(** * Enhanced Reading Practice Platform: the frontend's checks, embedded and verified

    The development follows the TypeScript sources of the single-page
    frontend:
    - [utils/security.ts]            (password and upload validation, rate limiter),
    - [components/RecordingReview.tsx] (the teacher's review form),
    - [components/StoryReader.tsx]   (the record control and the upload),
    - [components/AdvancedAnalytics.tsx] (the numbers shown on the dashboard),
    - the [BulkReports] component, [contexts/AuthContext.tsx], [services/api.ts]
      (where the authentication token is stored and read).

    The Django backend is not part of the sources at hand.  Where a property
    is decided by a backend operation, that operation is modelled from the
    specification and marked as such. *)

From Stdlib Require Import ZArith QArith Qabs Qround Lia Lqa Bool Ascii String List.
From Stdlib Require DecimalString DecimalPos DecimalZ.
From stdpp Require Import gmap strings list sorting.

Import ListNotations.

Local Open Scope string_scope.
Local Open Scope list_scope.

(** ** Part I: the embedding *)

(** *** JavaScript strings

    A string is a sequence of code units; the model keeps the code units
    below 256 ([Ascii.ascii]).  The regular expressions of the sources only
    tell ASCII characters apart; [toLowerCase] also lowers the capital
    letters of the Latin-1 range. *)
Module JS.

Definition code (c : ascii) : nat := nat_of_ascii c.

(** the character class [[A-Z]] *)
Definition is_upper (c : ascii) : bool :=
  (65 <=? code c)%nat && (code c <=? 90)%nat.

(** the character class [[a-z]] *)
Definition is_lower (c : ascii) : bool :=
  (97 <=? code c)%nat && (code c <=? 122)%nat.

(** the character class [\d], which in JavaScript is [[0-9]] *)
Definition is_digit (c : ascii) : bool :=
  (48 <=? code c)%nat && (code c <=? 57)%nat.

Definition chars (s : string) : list ascii := list_ascii_of_string s.

(** [/[C]/.test(s)] for a character class [C]: some character of [s] is in [C] *)
Definition test_class (cls : ascii -> bool) (s : string) : bool :=
  existsb cls (chars s).

(** the code units below 256 that [toLowerCase] changes: A to Z, and the
    capital letters of Latin-1, 192 to 214 and 216 to 222 (215 is the
    multiplication sign); each goes 32 up *)
Definition has_lower_case (c : ascii) : bool :=
  is_upper c
  || ((192 <=? code c)%nat && (code c <=? 214)%nat)
  || ((216 <=? code c)%nat && (code c <=? 222)%nat).

Definition lower_char (c : ascii) : ascii :=
  if has_lower_case c then ascii_of_nat (code c + 32) else c.

(** [s.toLowerCase()] *)
Fixpoint toLowerCase (s : string) : string :=
  match s with
  | EmptyString => EmptyString
  | String c s' => String (lower_char c) (toLowerCase s')
  end.

(** [s.startsWith(pat)] *)
Fixpoint startsWith (s pat : string) : bool :=
  match pat, s with
  | EmptyString, _ => true
  | String _ _, EmptyString => false
  | String p pat', String c s' => Ascii.eqb p c && startsWith s' pat'
  end.

(** [s.includes(pat)] *)
Fixpoint includes (s pat : string) : bool :=
  startsWith s pat ||
  match s with
  | EmptyString => false
  | String _ s' => includes s' pat
  end.

(** [s.endsWith(pat)], used for a pattern anchored with [$] *)
Fixpoint endsWith (s pat : string) : bool :=
  String.eqb s pat ||
  match s with
  | EmptyString => false
  | String _ s' => endsWith s' pat
  end.

(** [s.split('.').pop()]: the text after the last dot; the whole string
    when it has no dot.  [split] never returns an empty array, so [pop]
    never returns [undefined] here. *)
Fixpoint split_dot_pop_aux (acc : string) (s : string) : string :=
  match s with
  | EmptyString => acc
  | String c s' =>
      if Ascii.eqb c "."%char then split_dot_pop_aux s' s'
      else split_dot_pop_aux acc s'
  end.

Definition split_dot_pop (s : string) : string := split_dot_pop_aux s s.

(** [pat] occurs in [s] as a contiguous substring *)
Definition occurs_in (pat s : string) : Prop :=
  exists pre post, s = (pre ++ pat ++ post)%string.

(** [`${v}`] for a value that is a string or [null] *)
Definition template (v : option string) : string :=
  match v with
  | Some s => s
  | None => "null"
  end.

(** a string is truthy when it is not empty; [null] is falsy *)
Definition truthy (v : option string) : bool :=
  match v with
  | Some s => negb (String.eqb s EmptyString)
  | None => false
  end.

End JS.

(** *** [utils/security.ts] *)
Module SecurityUtils.

Record ValidationResult := mkResult { isValid : bool; errors : list string }.

(** [if (c) errors.push(msg)] *)
Definition push_if (c : bool) (msg : string) (errors : list string) : list string :=
  if c then errors ++ [msg] else errors.

(** the class of special characters of the fifth check; the double quote,
    which sits between [?] and [:] in the source, is code 34 *)
Definition special_chars : list ascii :=
  JS.chars "!@#$%^&*(),.?" ++ [ascii_of_nat 34] ++ JS.chars ":{}|<>".

Definition is_special (c : ascii) : bool := existsb (Ascii.eqb c) special_chars.

Definition commonPatterns : list string := ["123456"; "password"; "qwerty"; "abc123"].

Definition msg_length := "Password must be at least 8 characters long".
Definition msg_upper := "Password must contain at least one uppercase letter".
Definition msg_lower := "Password must contain at least one lowercase letter".
Definition msg_digit := "Password must contain at least one number".
Definition msg_special := "Password must contain at least one special character".
Definition msg_common := "Password contains common patterns".

Definition validatePassword (password : string) : ValidationResult :=
  let errors := [] in
  let errors := push_if (String.length password <? 8)%nat msg_length errors in
  let errors := push_if (negb (JS.test_class JS.is_upper password)) msg_upper errors in
  let errors := push_if (negb (JS.test_class JS.is_lower password)) msg_lower errors in
  let errors := push_if (negb (JS.test_class JS.is_digit password)) msg_digit errors in
  let errors := push_if (negb (JS.test_class is_special password)) msg_special errors in
  let errors :=
    push_if (existsb (fun pattern => JS.includes (JS.toLowerCase password) pattern)
                     commonPatterns)
            msg_common errors in
  {| isValid := (length errors =? 0)%nat; errors := errors |}.

(** **** validateFileUpload *)

(** What the check reads of a [File]: its name and its size in bytes. *)
Record File := mkFile { name : string; size : Z }.

(** [options.maxSize] is a number of megabytes (any finite number, hence a
    rational); both options may be left out. *)
Record UploadOptions := mkOptions {
  maxSize : option Q;
  allowedTypes : option (list string)
}.

(** The three messages.  The first two are templates over the effective
    ceiling and the allowed list, which the constructors carry:
    - [File size must be less than ${maxSize}MB]
    - [File type must be one of: ${allowedTypes.join(', ')}]
    - [File type not allowed for security reasons] *)
Inductive UploadError :=
| FileTooLarge (maxSizeMB : Q)
| FileTypeNotListed (allowed : list string)
| DangerousFileName.

Record UploadValidation := mkUpload { uploadValid : bool; uploadErrors : list UploadError }.

Definition Qnonzero (q : Q) : bool := negb (Qeq_bool q 0).

(** [options.maxSize || 10]: an absent or zero [maxSize] gives the default *)
Definition effective_maxSize (o : UploadOptions) : Q :=
  match maxSize o with
  | Some q => if Qnonzero q then q else 10
  | None => 10
  end.

(** [options.allowedTypes || []] *)
Definition effective_allowedTypes (o : UploadOptions) : list string :=
  match allowedTypes o with
  | Some l => l
  | None => []
  end.

(** [file.size > maxSize * 1024 * 1024] *)
Definition too_large (f : File) (o : UploadOptions) : bool :=
  negb (Qle_bool (inject_Z (size f)) (effective_maxSize o * 1024 * 1024)).

(** [file.name.split('.').pop()?.toLowerCase()] *)
Definition fileExtension (f : File) : string :=
  JS.toLowerCase (JS.split_dot_pop (name f)).

(** [allowedTypes.includes(ext)] *)
Definition list_includes (l : list string) (x : string) : bool :=
  existsb (String.eqb x) l.

(** [!fileExtension]: the empty string is falsy *)
Definition str_falsy (s : string) : bool := String.eqb s EmptyString.

(** the second check, entered only when [allowedTypes.length > 0] *)
Definition type_not_listed (f : File) (o : UploadOptions) : bool :=
  let allowed := effective_allowedTypes o in
  (0 <? length allowed)%nat &&
  (str_falsy (fileExtension f) || negb (list_includes allowed (fileExtension f))).

Definition dangerousExtensions : list string :=
  ["exe"; "bat"; "cmd"; "com"; "scr"; "php"; "asp"; "jsp"; "py"; "pl"].

(** [/\.(exe|bat|...|pl)$/i.test(file.name)]: the name ends, whatever the
    case of its letters, with a dot and one of the extensions *)
Definition dangerousPatterns_test (s : string) : bool :=
  existsb (fun ext => JS.endsWith (JS.toLowerCase s) ("." ++ ext)%string) dangerousExtensions.

Definition push_err (c : bool) (e : UploadError) (errors : list UploadError) :=
  if c then errors ++ [e] else errors.

Definition validateFileUpload (file : File) (options : UploadOptions) : UploadValidation :=
  let errors := [] in
  let maxSize := effective_maxSize options in
  let allowedTypes := effective_allowedTypes options in
  let errors := push_err (too_large file options) (FileTooLarge maxSize) errors in
  let errors := push_err (type_not_listed file options) (FileTypeNotListed allowedTypes) errors in
  let errors := push_err (dangerousPatterns_test (name file)) DangerousFileName errors in
  {| uploadValid := (length errors =? 0)%nat; uploadErrors := errors |}.

End SecurityUtils.

Module APISecurityUtils.

(** **** createRateLimiter

    The closure owns the array [requests] of the times of the calls it has
    let through.  A call is a function from the clock reading and the array
    to the answer and the array it leaves behind. *)

(** [while (requests.length > 0 && now - requests[0] > timeWindow) requests.shift()] *)
Fixpoint drop_old (timeWindow now : Z) (requests : list Z) : list Z :=
  match requests with
  | [] => []
  | r0 :: rest =>
      if (now - r0 >? timeWindow)%Z then drop_old timeWindow now rest
      else requests
  end.

Definition limiter_call (maxRequests timeWindow : Z) (now : Z) (requests : list Z)
  : bool * list Z :=
  let requests := drop_old timeWindow now requests in
  if (Z.of_nat (length requests) >=? maxRequests)%Z then (false, requests)
  else (true, requests ++ [now]).

(** A run of the limiter returned by [createRateLimiter(maxRequests, timeWindow)]:
    the calls are given by their clock readings, in the order they are made;
    the result pairs every call with its answer. *)
Fixpoint limiter_run (maxRequests timeWindow : Z) (requests : list Z) (calls : list Z)
  : list (Z * bool) :=
  match calls with
  | [] => []
  | now :: calls' =>
      let '(ok, requests') := limiter_call maxRequests timeWindow now requests in
      (now, ok) :: limiter_run maxRequests timeWindow requests' calls'
  end.

(** the array [requests] that a run leaves behind *)
Fixpoint limiter_state (maxRequests timeWindow : Z) (requests : list Z) (calls : list Z)
  : list Z :=
  match calls with
  | [] => requests
  | now :: calls' =>
      limiter_state maxRequests timeWindow
        (snd (limiter_call maxRequests timeWindow now requests)) calls'
  end.

(** [createRateLimiter] starts from [requests = []] *)
Definition createRateLimiter (maxRequests timeWindow : Z) (calls : list Z) : list (Z * bool) :=
  limiter_run maxRequests timeWindow [] calls.

End APISecurityUtils.

(** *** The rules of a password, stated on the text itself

    The vocabulary in which the behaviour of [validatePassword] is stated:
    each rule as a property of the characters of the password, with the
    message the validator reports when the rule is violated. *)
Module PasswordRules.
Import SecurityUtils.

Inductive Rule :=
| MinLength | HasUpper | HasLower | HasDigit | HasSpecial | NoCommonPattern.

Definition all_rules : list Rule :=
  [MinLength; HasUpper; HasLower; HasDigit; HasSpecial; NoCommonPattern].

Definition has_char (P : ascii -> Prop) (s : string) : Prop :=
  exists c, In c (JS.chars s) /\ P c.

Definition between (lo hi : ascii) (c : ascii) : Prop :=
  (nat_of_ascii lo <= nat_of_ascii c <= nat_of_ascii hi)%nat.

Definition satisfies (p : string) (r : Rule) : Prop :=
  match r with
  | MinLength => (8 <= String.length p)%nat
  | HasUpper => has_char (between "A" "Z") p
  | HasLower => has_char (between "a" "z") p
  | HasDigit => has_char (between "0" "9") p
  | HasSpecial => has_char (fun c => In c special_chars) p
  | NoCommonPattern =>
      forall pat, In pat commonPatterns -> ~ JS.occurs_in pat (JS.toLowerCase p)
  end.

Definition rule_message (r : Rule) : string :=
  match r with
  | MinLength => msg_length
  | HasUpper => msg_upper
  | HasLower => msg_lower
  | HasDigit => msg_digit
  | HasSpecial => msg_special
  | NoCommonPattern => msg_common
  end.

(** the test the validator runs for each rule: [true] when it pushes the message *)
Definition violated (p : string) (r : Rule) : bool :=
  match r with
  | MinLength => (String.length p <? 8)%nat
  | HasUpper => negb (JS.test_class JS.is_upper p)
  | HasLower => negb (JS.test_class JS.is_lower p)
  | HasDigit => negb (JS.test_class JS.is_digit p)
  | HasSpecial => negb (JS.test_class is_special p)
  | NoCommonPattern =>
      existsb (fun pattern => JS.includes (JS.toLowerCase p) pattern) commonPatterns
  end.

End PasswordRules.

(** *** The conditions of an upload, stated on the file itself *)
Module UploadRules.
Import SecurityUtils.

(** the ceiling in bytes that the first check compares the size with *)
Definition ceiling_bytes (o : UploadOptions) : Q := effective_maxSize o * 1024 * 1024.

(** the name ends, up to the case of its letters, with a dot and a
    dangerous extension *)
Definition dangerous_name (n : string) : Prop :=
  exists stem ext, In ext dangerousExtensions /\
                   JS.toLowerCase n = (stem ++ "." ++ ext)%string.

(** the file has an extension and the allowed list names it *)
Definition extension_allowed (f : File) (allowed : list string) : Prop :=
  fileExtension f <> EmptyString /\ In (fileExtension f) allowed.

(** **** The same conditions, on the characters of the name

    [ext] is the extension of the name [n]: the text after its last dot,
    the whole name when it has no dot. *)
Definition is_extension (n ext : string) : Prop :=
  ~ In "."%char (JS.chars ext) /\
  (n = ext \/ exists stem, n = (stem ++ "." ++ ext)%string).

(** the code unit [d] is [c] in lower case *)
Definition lowers_to (c d : ascii) : Prop :=
  let n := nat_of_ascii c in
  ((65 <= n <= 90 \/ 192 <= n <= 214 \/ 216 <= n <= 222)%nat /\
   nat_of_ascii d = (n + 32)%nat) \/
  (~ (65 <= n <= 90 \/ 192 <= n <= 214 \/ 216 <= n <= 222)%nat /\ d = c).

(** the text [t] is [s] in lower case, character by character *)
Definition lowered (s t : string) : Prop := Forall2 lowers_to (JS.chars s) (JS.chars t).

(** the name ends with a dot and, in whatever case, one of the ten endings *)
Definition dangerous_ending (n : string) : Prop :=
  exists stem tail ext,
    n = (stem ++ "." ++ tail)%string /\ lowered tail ext /\
    In ext ["exe"; "bat"; "cmd"; "com"; "scr"; "php"; "asp"; "jsp"; "py"; "pl"].

End UploadRules.

(** *** Counting the calls that a limiter lets through *)
Module LimiterRules.

(** the times of the calls that were answered [true] *)
Definition let_through (run : list (Z * bool)) : list Z :=
  map fst (List.filter snd run).

(** [t] lies within the trailing [timeWindow] milliseconds of [now] *)
Definition within (timeWindow now t : Z) : bool := (now - t <=? timeWindow)%Z.

(** [t] lies in the window of length [timeWindow] that starts at [a] *)
Definition in_window (timeWindow a t : Z) : bool :=
  (a <=? t)%Z && (t <=? a + timeWindow)%Z.

Definition count (f : Z -> bool) (l : list Z) : Z := Z.of_nat (length (List.filter f l)).

End LimiterRules.

(** *** [types/index.ts] *)
Module Types.

Inductive Status := pending | reviewed | flagged.
Inductive Grade := excellent | good | needs_practice.

#[global] Instance Status_eq_dec : EqDecision Status.
Proof. solve_decision. Defined.

(** [interface Recording]; a field marked [?] is optional *)
Module Recording.
Record t := mk {
  id : Z;
  student_name : string;
  student_username : string;
  story_title : string;
  status : Status;
  grade : option string;
  teacher_feedback : option string;
  duration : Z + string;
  audio_file : option string;
  attempt_number : Z;
  fluency_score : option Z;
  accuracy_score : option Z;
  created_at : string;
  updated_at : option string
}.
End Recording.

(** [interface RecordingReview], the payload of a review *)
Module RecordingReview.
Record t := mk {
  recording_id : Z;
  feedback : string;
  grade : Grade;
  fluency_score : Z;
  accuracy_score : Z
}.
End RecordingReview.

(** [interface StudentAssignment] *)
Module StudentAssignment.
Record t := mk {
  id : Z;
  assignment_title : string;
  story_title : string;
  story_id : Z;
  due_date : option string;
  attempts_used : Z;
  is_completed : bool;
  can_attempt : bool;
  created_at : string
}.
End StudentAssignment.

End Types.

(** *** [components/RecordingReview.tsx]

    The state of the component that decides what happens to the list of
    recordings: the list itself, the recording open in the review dialog,
    the form, and the two flags.  The audio player of the dialog does not
    touch any of them and is left out. *)
Module RecordingReviewComponent.
Import Types.

Record ReviewForm := mkForm {
  feedback : string;
  grade : Grade;
  fluency_score : Z;
  accuracy_score : Z
}.

Record State := mkState {
  recordings : list Recording.t;
  selectedRecording : option Recording.t;
  reviewForm : ReviewForm;
  submitLoading : bool;
  error : string
}.

Definition initialForm : ReviewForm :=
  {| feedback := EmptyString; grade := good; fluency_score := 3; accuracy_score := 3 |}.

Definition initialState : State :=
  {| recordings := []; selectedRecording := None; reviewForm := initialForm;
     submitLoading := false; error := EmptyString |}.

Definition setRecordings (f : list Recording.t -> list Recording.t) (st : State) : State :=
  {| recordings := f (recordings st); selectedRecording := selectedRecording st;
     reviewForm := reviewForm st; submitLoading := submitLoading st; error := error st |}.

Definition setSelectedRecording (r : option Recording.t) (st : State) : State :=
  {| recordings := recordings st; selectedRecording := r;
     reviewForm := reviewForm st; submitLoading := submitLoading st; error := error st |}.

Definition setReviewForm (f : ReviewForm) (st : State) : State :=
  {| recordings := recordings st; selectedRecording := selectedRecording st;
     reviewForm := f; submitLoading := submitLoading st; error := error st |}.

Definition setSubmitLoading (b : bool) (st : State) : State :=
  {| recordings := recordings st; selectedRecording := selectedRecording st;
     reviewForm := reviewForm st; submitLoading := b; error := error st |}.

Definition setError (e : string) (st : State) : State :=
  {| recordings := recordings st; selectedRecording := selectedRecording st;
     reviewForm := reviewForm st; submitLoading := submitLoading st; error := e |}.

(** [loadRecordings], once the request has settled: [response.results || []]
    on success, the error message otherwise *)
Definition loadRecordings (response : option (list Recording.t)) (st : State) : State :=
  match response with
  | Some results => setRecordings (fun _ => results) st
  | None => setError "Failed to load recordings for review." st
  end.

Definition handleSelectRecording (recording : Recording.t) (st : State) : State :=
  setReviewForm initialForm (setSelectedRecording (Some recording) st).

(** [{ ...r, status: 'reviewed', teacher_feedback: reviewForm.feedback }] *)
Definition spread_reviewed (fb : string) (r : Recording.t) : Recording.t :=
  {| Recording.id := Recording.id r;
     Recording.student_name := Recording.student_name r;
     Recording.student_username := Recording.student_username r;
     Recording.story_title := Recording.story_title r;
     Recording.status := reviewed;
     Recording.grade := Recording.grade r;
     Recording.teacher_feedback := Some fb;
     Recording.duration := Recording.duration r;
     Recording.audio_file := Recording.audio_file r;
     Recording.attempt_number := Recording.attempt_number r;
     Recording.fluency_score := Recording.fluency_score r;
     Recording.accuracy_score := Recording.accuracy_score r;
     Recording.created_at := Recording.created_at r;
     Recording.updated_at := Recording.updated_at r |}.

(** the function passed to [setRecordings] after a successful submission *)
Definition update_reviewed (sel : Recording.t) (form : ReviewForm)
    (prev : list Recording.t) : list Recording.t :=
  map (fun r => if (Recording.id r =? Recording.id sel)%Z
                then spread_reviewed (feedback form) r else r) prev.

(** [handleSubmitReview] awaits the server between its two halves.  A
    submission in flight keeps the recording and the form it was started
    with (the values its closure captured). *)
Definition Submission : Type := Recording.t * ReviewForm.

(** [{ ...reviewForm, recording_id: selectedRecording.id }] *)
Definition review_payload (c : Submission) : RecordingReview.t :=
  {| RecordingReview.recording_id := Recording.id (fst c);
     RecordingReview.feedback := feedback (snd c);
     RecordingReview.grade := grade (snd c);
     RecordingReview.fluency_score := fluency_score (snd c);
     RecordingReview.accuracy_score := accuracy_score (snd c) |}.

(** up to the [await]: nothing happens without a selected recording;
    otherwise the request leaves with the selected id and the payload *)
Definition handleSubmitReview_send (st : State) : option (Submission * State) :=
  match selectedRecording st with
  | None => None
  | Some sel => Some ((sel, reviewForm st), setSubmitLoading true st)
  end.

Inductive ApiOutcome := Resolved | Rejected.

(** after the [await]: the list is updated and the dialog closed when the
    request resolved, the error is shown when it was rejected; [finally]
    clears [submitLoading] *)
Definition handleSubmitReview_settle (c : Submission) (o : ApiOutcome) (st : State) : State :=
  let st :=
    match o with
    | Resolved =>
        setSelectedRecording None (setRecordings (update_reviewed (fst c) (snd c)) st)
    | Rejected => setError "Failed to submit review. Please try again." st
    end in
  setSubmitLoading false st.

Definition has_status (s : Status) (r : Recording.t) : bool :=
  bool_decide (Recording.status r = s).

Definition pendingRecordings (st : State) : list Recording.t :=
  List.filter (has_status pending) (recordings st).

Definition reviewedRecordings (st : State) : list Recording.t :=
  List.filter (has_status reviewed) (recordings st).

(** [reviewedRecordings.slice(0, 6)], the reviewed cards on screen *)
Definition reviewedCards (st : State) : list Recording.t := take 6 (reviewedRecordings st).

(** [s.trim()] is empty exactly when [s] holds white space only *)
Definition is_space (c : ascii) : bool :=
  let n := JS.code c in
  ((9 <=? n) && (n <=? 13) || (n =? 32) || (n =? 160))%nat.

Definition trim_is_empty (s : string) : bool := forallb is_space (JS.chars s).

(** the submit button: [disabled={submitLoading || !reviewForm.feedback.trim()}] *)
Definition submit_disabled (st : State) : bool :=
  submitLoading st || trim_is_empty (feedback (reviewForm st)).

(** the values offered by the two score selectors *)
Definition score_option (v : Z) : bool := (1 <=? v)%Z && (v <=? 5)%Z.

(** What the teacher and the network can do to the component. *)
Inductive Event :=
| ClickReview (card : nat)          (* the Review button of a pending card *)
| ClickViewReview (card : nat)      (* the View Review button of a reviewed card *)
| CloseDialog                       (* the close and cancel buttons *)
| ChangeFluency (v : Z)
| ChangeAccuracy (v : Z)
| ChangeGrade (g : Grade)
| ChangeFeedback (text : string)
| SubmitForm
| Settle (k : nat) (o : ApiOutcome). (* the k-th submission in flight settles *)

Record Machine := mkMachine { ui : State; inflight : list Submission }.

Definition with_ui (f : State -> State) (m : Machine) : Machine :=
  {| ui := f (ui m); inflight := inflight m |}.

Definition dialog_open (m : Machine) : bool :=
  match selectedRecording (ui m) with Some _ => true | None => false end.

Definition change_form (f : ReviewForm -> ReviewForm) (m : Machine) : option Machine :=
  if dialog_open m then Some (with_ui (fun st => setReviewForm (f (reviewForm st)) st) m)
  else None.

(** one event; [None] when the control is not on screen or is disabled *)
Definition step (m : Machine) (e : Event) : option Machine :=
  match e with
  | ClickReview i =>
      match pendingRecordings (ui m) !! i with
      | Some r => Some (with_ui (handleSelectRecording r) m)
      | None => None
      end
  | ClickViewReview i =>
      match reviewedCards (ui m) !! i with
      | Some r => Some (with_ui (handleSelectRecording r) m)
      | None => None
      end
  | CloseDialog =>
      if dialog_open m then Some (with_ui (setSelectedRecording None) m) else None
  | ChangeFluency v =>
      if score_option v
      then change_form (fun f => {| feedback := feedback f; grade := grade f;
                                    fluency_score := v;
                                    accuracy_score := accuracy_score f |}) m
      else None
  | ChangeAccuracy v =>
      if score_option v
      then change_form (fun f => {| feedback := feedback f; grade := grade f;
                                    fluency_score := fluency_score f;
                                    accuracy_score := v |}) m
      else None
  | ChangeGrade g =>
      change_form (fun f => {| feedback := feedback f; grade := g;
                               fluency_score := fluency_score f;
                               accuracy_score := accuracy_score f |}) m
  | ChangeFeedback text =>
      change_form (fun f => {| feedback := text; grade := grade f;
                               fluency_score := fluency_score f;
                               accuracy_score := accuracy_score f |}) m
  | SubmitForm =>
      if dialog_open m && negb (submit_disabled (ui m)) then
        match handleSubmitReview_send (ui m) with
        | Some (c, st) => Some {| ui := st; inflight := inflight m ++ [c] |}
        | None => None
        end
      else None
  | Settle k o =>
      match inflight m !! k with
      | Some c => Some {| ui := handleSubmitReview_settle c o (ui m);
                          inflight := delete k (inflight m) |}
      | None => None
      end
  end.

Fixpoint steps (m : Machine) (es : list Event) : option Machine :=
  match es with
  | [] => Some m
  | e :: es' =>
      match step m e with
      | Some m' => steps m' es'
      | None => None
      end
  end.

(** the component once the list of recordings has been loaded *)
Definition loaded (results : list Recording.t) : Machine :=
  {| ui := loadRecordings (Some results) initialState; inflight := [] |}.

Definition reachable (results : list Recording.t) (m : Machine) : Prop :=
  exists es, steps (loaded results) es = Some m.

(** **** What may happen to one recording of the list *)

Definition has_scores (r : Recording.t) : Prop :=
  is_Some (Recording.fluency_score r) /\ is_Some (Recording.accuracy_score r).

(** the reading of the data model: scores are present only on a reviewed recording *)
Definition scores_only_if_reviewed (r : Recording.t) : Prop :=
  has_scores r -> Recording.status r = reviewed.

(** the reading of the testable property: scores are present exactly on
    the reviewed recordings *)
Definition scores_iff_reviewed (r : Recording.t) : Prop :=
  has_scores r <-> Recording.status r = reviewed.

(** [r] is what the component shows for the recording loaded as [r0] *)
Definition evolved (r0 r : Recording.t) : Prop :=
  Recording.id r = Recording.id r0 /\
  Recording.fluency_score r = Recording.fluency_score r0 /\
  Recording.accuracy_score r = Recording.accuracy_score r0 /\
  (Recording.status r = Recording.status r0 \/
   (Recording.status r0 = pending /\ Recording.status r = reviewed)).

(** **** What an accepted review writes

    [r'] is [r] with the status reviewed and the feedback [fb]; every other
    field, the two scores among them, is as it was *)
Definition reviewed_with (fb : string) (r r' : Recording.t) : Prop :=
  Recording.status r' = reviewed /\
  Recording.teacher_feedback r' = Some fb /\
  Recording.id r' = Recording.id r /\
  Recording.student_name r' = Recording.student_name r /\
  Recording.student_username r' = Recording.student_username r /\
  Recording.story_title r' = Recording.story_title r /\
  Recording.grade r' = Recording.grade r /\
  Recording.duration r' = Recording.duration r /\
  Recording.audio_file r' = Recording.audio_file r /\
  Recording.attempt_number r' = Recording.attempt_number r /\
  Recording.fluency_score r' = Recording.fluency_score r /\
  Recording.accuracy_score r' = Recording.accuracy_score r /\
  Recording.created_at r' = Recording.created_at r /\
  Recording.updated_at r' = Recording.updated_at r.

(** the list [after] is the list [before] in which the recordings with the
    id [sel_id] are reviewed with the feedback [fb], and the others are as
    they were *)
Definition review_written (sel_id : Z) (fb : string)
    (before after : list Recording.t) : Prop :=
  Forall2 (fun r r' => (Recording.id r = sel_id -> reviewed_with fb r r') /\
                       (Recording.id r <> sel_id -> r' = r)) before after.

(** **** The invariant of the component

    [results] is the list the server answered to [loadRecordings]. *)

(** the recording was loaded, and was not flagged then *)
Definition known (results : list Recording.t) (sel : Recording.t) : Prop :=
  exists r0, In r0 results /\ Recording.id r0 = Recording.id sel /\
             Recording.status r0 <> flagged.

Definition Inv (results : list Recording.t) (m : Machine) : Prop :=
  Forall2 evolved results (recordings (ui m)) /\
  (forall sel, selectedRecording (ui m) = Some sel -> known results sel) /\
  (forall c, In c (inflight m) -> known results (fst c)).

(** a recording to run the component on: a first attempt awaiting review *)
Definition sample_recording : Recording.t :=
  {| Recording.id := 1;
     Recording.student_name := "Sam Reader";
     Recording.student_username := "sam";
     Recording.story_title := "The Tortoise and the Hare";
     Recording.status := pending;
     Recording.grade := None;
     Recording.teacher_feedback := None;
     Recording.duration := inl 60%Z;
     Recording.audio_file := Some "/media/recordings/1.wav";
     Recording.attempt_number := 1;
     Recording.fluency_score := None;
     Recording.accuracy_score := None;
     Recording.created_at := "2024-01-15T10:00:00Z";
     Recording.updated_at := None |}.

(** the teacher opens it, fills the form and submits; the server accepts *)
Definition sample_review : list Event :=
  [ClickReview 0; ChangeFluency 4; ChangeAccuracy 3; ChangeFeedback "Good pacing";
   SubmitForm; Settle 0 Resolved].

Definition run_from (results : list Recording.t) (es : list Event) : Machine :=
  match steps (loaded results) es with
  | Some m => m
  | None => loaded results
  end.

(** the component while the request is in flight, and after the answer *)
Definition sample_submitted : Machine :=
  Eval vm_compute in run_from [sample_recording] (take 5 sample_review).

Definition sample_reviewed : Machine :=
  Eval vm_compute in run_from [sample_recording] sample_review.

End RecordingReviewComponent.

(** *** The review operation of the backend

    The sources hold the client of this operation
    ([recordingsAPI.submitReview] and [handleSubmitReview]); the operation
    itself runs on the server. *)
Module ReviewWorkflow.
Import Types.

(** Modelled from the spec: the three failures of Submit Review (section 4.2). *)
Inductive ReviewError := NotFound | AlreadyReviewed | InvalidScore.

Definition score_in_range (s : Z) : bool := (1 <=? s)%Z && (s <=? 5)%Z.

Definition grade_name (g : Grade) : string :=
  match g with
  | excellent => "excellent"
  | good => "good"
  | needs_practice => "needs_practice"
  end.

(** Modelled from the spec: the row of a recording once the review [p] is
    written to it at time [now] (section 4.2): scores, feedback, grade,
    status reviewed, updated timestamp. *)
Definition reviewed_row (now : string) (p : RecordingReview.t) (r : Recording.t)
  : Recording.t :=
  {| Recording.id := Recording.id r;
     Recording.student_name := Recording.student_name r;
     Recording.student_username := Recording.student_username r;
     Recording.story_title := Recording.story_title r;
     Recording.status := reviewed;
     Recording.grade := Some (grade_name (RecordingReview.grade p));
     Recording.teacher_feedback := Some (RecordingReview.feedback p);
     Recording.duration := Recording.duration r;
     Recording.audio_file := Recording.audio_file r;
     Recording.attempt_number := Recording.attempt_number r;
     Recording.fluency_score := Some (RecordingReview.fluency_score p);
     Recording.accuracy_score := Some (RecordingReview.accuracy_score p);
     Recording.created_at := Recording.created_at r;
     Recording.updated_at := Some now |}.

(** Modelled from the spec: the Submit Review operation of the Review
    Workflow (section 4.2), whose code is on the server and not among the
    sources.  Given a recording id and a review payload it fails with
    [NotFound] if the id does not exist, with [AlreadyReviewed] if the
    status is not pending, with [InvalidScore] if a score lies outside 1-5;
    otherwise it updates the row: scores, feedback, grade, status reviewed,
    updated timestamp.  The table of recordings is keyed by id; a failed
    call returns the table it was given. *)
Definition submit_review (now : string) (table : gmap Z Recording.t)
    (recording_id : Z) (p : RecordingReview.t)
  : gmap Z Recording.t * option ReviewError :=
  match table !! recording_id with
  | None => (table, Some NotFound)
  | Some r =>
      if bool_decide (Recording.status r = pending) then
        if score_in_range (RecordingReview.fluency_score p)
           && score_in_range (RecordingReview.accuracy_score p)
        then (<[recording_id := reviewed_row now p r]> table, None)
        else (table, Some InvalidScore)
      else (table, Some AlreadyReviewed)
  end.

(** what the client sees of the answer: the request resolves or is rejected *)
Definition outcome_of (e : option ReviewError) : RecordingReviewComponent.ApiOutcome :=
  match e with
  | None => RecordingReviewComponent.Resolved
  | Some _ => RecordingReviewComponent.Rejected
  end.

(** [handleSubmitReview] of the component, run against this operation:
    the request carries the id of the selected recording and the form *)
Definition handleSubmitReview (now : string) (table : gmap Z Recording.t)
    (st : RecordingReviewComponent.State)
  : gmap Z Recording.t * RecordingReviewComponent.State :=
  match RecordingReviewComponent.handleSubmitReview_send st with
  | None => (table, st)
  | Some (c, st1) =>
      let '(table', answer) :=
        submit_review now table (Recording.id (fst c))
                      (RecordingReviewComponent.review_payload c) in
      (table', RecordingReviewComponent.handleSubmitReview_settle c (outcome_of answer) st1)
  end.

(** a table and a component to run the operation on: the sample recording
    after its review, open again in the dialog through View Review *)
Definition sample_table : gmap Z Recording.t :=
  {[ 1%Z := reviewed_row "2024-01-16T09:00:00Z"
              (RecordingReview.mk 1 "Good pacing" good 4 3)
              RecordingReviewComponent.sample_recording ]}.

End ReviewWorkflow.

(** *** [components/AdvancedAnalytics.tsx]: the numbers on the dashboard

    A JavaScript number that is finite is a rational; [Math.round] and
    [toFixed] are defined on its exact value, which is what the model
    computes with. *)
Module AdvancedAnalytics.
Local Open Scope Q_scope.

(** [Math.round(x)]: the nearest integer, a tie going up *)
Definition Math_round (x : Q) : Z := Qfloor (x + (1 # 2)).

(** [x || 0] on a numeric field that may be missing *)
Definition or_zero (x : option Q) : Q :=
  match x with
  | Some v => v
  | None => 0
  end.

(** [renderOverview]: [Math.round(dashboardSummary.average_completion_rate || 0)],
    followed by the percent sign *)
Definition overview_completion (average_completion_rate : option Q) : Z :=
  Math_round (or_zero average_completion_rate).

(** [renderStudents]: [Math.round(student.completion_rate)] *)
Definition student_completion (completion_rate : Q) : Z :=
  Math_round completion_rate.

(** The number that [x.toFixed(1)] writes: with the sign set apart, the
    integer [n] for which [n / 10] is nearest to the magnitude, the larger
    one on a tie.  From 10^21 on, [toFixed] switches to another notation
    ([None]). *)
Definition toFixed1 (x : Q) : option Q :=
  if Qle_bool (10 ^ 21) (Qabs x) then None
  else if Qle_bool 0 x then Some (Qfloor (x * 10 + (1 # 2)) # 10)
  else Some (- (Qfloor ((- x) * 10 + (1 # 2)) # 10)).

(** [renderStudents]: [student.avg_fluency_score.toFixed(1)] and
    [student.avg_accuracy_score.toFixed(1)] *)
Definition student_avg_score (avg_score : Q) : option Q := toFixed1 avg_score.

(** Modelled from the spec: the rounding of the Report Generator (section
    4.4), which is on the server and not among the sources.  A numeric
    aggregate is exported rounded to one decimal place: the exported number
    [y] is a multiple of one tenth and no other multiple is nearer to the
    aggregate [x].  The spec gives no rule for ties. *)
Definition rounded_to_one_decimal (x y : Q) : Prop :=
  (exists n : Z, y == n # 10) /\ Qabs (y - x) <= 1 # 20.

(** [x] lies half-way between two multiples of one tenth *)
Definition tie (x : Q) : Prop := exists k : Z, x == (2 * k + 1) # 20.

End AdvancedAnalytics.

(** *** Where the authentication token is kept

    [localStorage] is a map from keys to strings.  [contexts/AuthContext.tsx]
    and [services/api.ts] write and read it for the login flow; the
    [BulkReports] component reads it for the download of a report. *)
Module Auth.

Definition getItem (key : string) (storage : gmap string string) : option string :=
  storage !! key.

Definition setItem (key value : string) (storage : gmap string string)
  : gmap string string :=
  <[key := value]> storage.

Definition removeItem (key : string) (storage : gmap string string)
  : gmap string string :=
  delete key storage.

(** [AuthProvider], [initAuth]: with a token at hand the profile is fetched,
    and the token is dropped when that fails *)
Definition initAuth (profile_ok : bool) (storage : gmap string string)
  : gmap string string :=
  if JS.truthy (getItem "authToken" storage) then
    if profile_ok then storage else removeItem "authToken" storage
  else storage.

(** [login]: [localStorage.setItem('authToken', response.token)] when
    [authAPI.login] resolves ([Some token]); nothing when it throws *)
Definition login (response : option string) (storage : gmap string string)
  : gmap string string :=
  match response with
  | Some token => setItem "authToken" token storage
  | None => storage
  end.

(** [logout]: [localStorage.removeItem('authToken')] *)
Definition logout (storage : gmap string string) : gmap string string :=
  removeItem "authToken" storage.

(** [authAPI.logout], once its request has resolved: the same removal *)
Definition authAPI_logout_resolved (storage : gmap string string) : gmap string string :=
  removeItem "authToken" storage.

(** What the login flow does to the storage.  The request that [logout]
    starts settles on its own, at any later time. *)
Inductive LoginFlowEvent :=
| InitAuth (profile_ok : bool)
| Login (response : option string)
| Logout
| LogoutRequestResolved.

Definition login_flow_step (storage : gmap string string) (e : LoginFlowEvent)
  : gmap string string :=
  match e with
  | InitAuth ok => initAuth ok storage
  | Login response => login response storage
  | Logout => logout storage
  | LogoutRequestResolved => authAPI_logout_resolved storage
  end.

(** the storage after a run of the login flow, from an empty storage *)
Definition login_flow (events : list LoginFlowEvent) : gmap string string :=
  fold_left login_flow_step events ∅.

(** [services/api.ts], the request interceptor: the header is set when the
    token under ['authToken'] is truthy *)
Definition request_authorization (storage : gmap string string) : option string :=
  let token := getItem "authToken" storage in
  if JS.truthy token then Some ("Token " ++ JS.template token)%string else None.

(** [generateReport]: [const token = localStorage.getItem('token')] *)
Definition report_token (storage : gmap string string) : option string :=
  getItem "token" storage.

(** [generateReport]: the header ['Authorization': `Token ${token}`] *)
Definition report_authorization (storage : gmap string string) : string :=
  ("Token " ++ JS.template (report_token storage))%string.

End Auth.

(** *** [components/StoryReader.tsx]

    The reader shows the story with its record control; while
    [showRecording] is set it shows the recorder instead.  The player of
    the story audio is kept to its [isPlaying] flag and its error text. *)
Module StoryReader.
Import Types.

(** what the component reads of its props: [story.id] and [assignment] *)
Record Props := mkProps { story_id : Z; assignment : option StudentAssignment.t }.

Record State := mkState {
  isPlaying : bool;
  showRecording : bool;
  audioError : string
}.

Definition initialState : State :=
  {| isPlaying := false; showRecording := false; audioError := EmptyString |}.

Definition setIsPlaying (b : bool) (st : State) : State :=
  {| isPlaying := b; showRecording := showRecording st; audioError := audioError st |}.

Definition setShowRecording (b : bool) (st : State) : State :=
  {| isPlaying := isPlaying st; showRecording := b; audioError := audioError st |}.

Definition setAudioError (e : string) (st : State) : State :=
  {| isPlaying := isPlaying st; showRecording := showRecording st; audioError := e |}.

(** the fields appended to the [FormData] of an upload; the numbers are
    sent as their decimal text *)
Record UploadForm := mkUploadForm {
  audio_name : string;
  audio_size : Z;
  story : Z;
  form_assignment : Z;
  duration : string;
  file_size : Z
}.

(** the record control: [disabled={assignment && !assignment.can_attempt}] *)
Definition record_disabled (p : Props) : bool :=
  match assignment p with
  | Some a => negb (StudentAssignment.can_attempt a)
  | None => false
  end.

Definition handleStartRecording (st : State) : State := setShowRecording true st.

(** [handleRecordingComplete], up to the [await]: with an assignment the
    upload leaves; without one nothing is sent and the recorder closes *)
Definition handleRecordingComplete_send (p : Props) (blob_size : Z) (st : State)
  : State * list UploadForm :=
  match assignment p with
  | Some a =>
      (st, [ {| audio_name := "recording.wav"; audio_size := blob_size;
                story := story_id p; form_assignment := StudentAssignment.id a;
                duration := "60"; file_size := blob_size |} ])
  | None => (setShowRecording false st, [])
  end.

(** after the [await], whether the upload succeeded or failed *)
Definition handleRecordingComplete_settle (st : State) : State := setShowRecording false st.

Inductive Event :=
| ClickListen (started : bool)   (* [handlePlay]; the browser starts the audio or refuses *)
| ClickPause
| AudioEnded
| AudioFailed
| ClickStartRecording
| RecorderSubmit (blob_size : Z) (* the recorder calls [onComplete] *)
| RecorderCancel                 (* the recorder calls [onCancel] *)
| UploadSettled.                 (* an upload in flight has been answered *)

Record Machine := mkMachine { ui : State; uploading : nat }.

(** one event: the new state and the uploads it sends; [None] when the
    control is not on screen or is disabled *)
Definition step (p : Props) (m : Machine) (e : Event) : option (Machine * list UploadForm) :=
  let reader := negb (showRecording (ui m)) in
  let keep st := Some ({| ui := st; uploading := uploading m |}, []) in
  match e with
  | ClickListen started =>
      if reader && negb (isPlaying (ui m)) then
        if started then keep (setIsPlaying true (setAudioError EmptyString (ui m)))
        else keep (setAudioError
                     "Unable to play audio. The audio file may not be available."
                     (setAudioError EmptyString (ui m)))
      else None
  | ClickPause =>
      if reader && isPlaying (ui m) then keep (setIsPlaying false (ui m)) else None
  | AudioEnded =>
      if reader then keep (setIsPlaying false (ui m)) else None
  | AudioFailed =>
      if reader then
        keep (setIsPlaying false
                (setAudioError
                   "Audio file could not be loaded. This may be because the audio files have not been generated yet."
                   (ui m)))
      else None
  | ClickStartRecording =>
      if reader && negb (record_disabled p) then keep (handleStartRecording (ui m))
      else None
  | RecorderSubmit blob_size =>
      if showRecording (ui m) then
        let '(st, sent) := handleRecordingComplete_send p blob_size (ui m) in
        Some ({| ui := st; uploading := uploading m + length sent |}, sent)
      else None
  | RecorderCancel =>
      if showRecording (ui m) then keep (setShowRecording false (ui m)) else None
  | UploadSettled =>
      match uploading m with
      | O => None
      | S n => Some ({| ui := handleRecordingComplete_settle (ui m); uploading := n |}, [])
      end
  end.

(** a run of events from the state [m], with all the uploads it sends *)
Fixpoint run (p : Props) (m : Machine) (es : list Event)
  : option (Machine * list UploadForm) :=
  match es with
  | [] => Some (m, [])
  | e :: es' =>
      match step p m e with
      | Some (m', sent) =>
          match run p m' es' with
          | Some (m'', sent') => Some (m'', sent ++ sent')
          | None => None
          end
      | None => None
      end
  end.

Definition mounted : Machine := {| ui := initialState; uploading := 0 |}.

(** the recorder is closed and no upload is in flight *)
Definition closed (m : Machine) : Prop :=
  showRecording (ui m) = false /\ uploading m = O.

(** an assignment of three attempts, all used, as the student's list serves it *)
Definition exhausted_assignment : StudentAssignment.t :=
  {| StudentAssignment.id := 7;
     StudentAssignment.assignment_title := "Week 3 reading";
     StudentAssignment.story_title := "The Tortoise and the Hare";
     StudentAssignment.story_id := 12;
     StudentAssignment.due_date := None;
     StudentAssignment.attempts_used := 3;
     StudentAssignment.is_completed := true;
     StudentAssignment.can_attempt := false;
     StudentAssignment.created_at := "2024-01-10T08:00:00Z" |}.

Definition exhausted_props : Props :=
  {| story_id := 12; assignment := Some exhausted_assignment |}.

End StoryReader.

(** *** The upload operation of the backend

    The sources hold the client of this operation
    ([recordingsAPI.uploadRecording], called by the story reader); the
    operation itself runs on the server.  The model follows the uploads of
    one student against one assignment, the unit on which the attempt limit
    is counted. *)
Module RecordingStore.

(** Modelled from the spec: the rejections of an upload (section 4.1). *)
Inductive UploadError := PayloadTooLarge | UnsupportedMediaType | AttemptLimitExceeded.

Record Config := mkConfig { size_ceiling : Z; allowed_media : list string }.

Record Upload := mkUpload { payload_size : Z; media_type : string }.

(** Modelled from the spec: the row of StudentAssignmentProgress (section
    3), with its attempts used and its completed flag. *)
Record Progress := mkProgress { attempts_used : Z; completed : bool }.

(** the sentinel of an assignment without attempt limit; the assignment
    form of the frontend offers it as the value [-1] *)
Definition unlimited (max_attempts : Z) : bool := (max_attempts =? -1)%Z.

(** Modelled from the spec: the validation of the payload by the Recording
    Store (section 4.1), whose code is on the server and not among the
    sources: the payload size must be below a configured ceiling (reject
    with [PayloadTooLarge]) and the media type in an allowed set (reject
    with [UnsupportedMediaType]). *)
Definition validate_payload (cfg : Config) (u : Upload) : option UploadError :=
  if negb (payload_size u <? size_ceiling cfg)%Z then Some PayloadTooLarge
  else if negb (SecurityUtils.list_includes (allowed_media cfg) (media_type u))
       then Some UnsupportedMediaType
       else None.

(** Modelled from the spec: the attempt check of the Recording Store
    (section 4.1) and the field [can_attempt] it serves to the student: the
    attempts used must be below the maximum, or the assignment must allow
    unlimited attempts. *)
Definition can_attempt (max_attempts : Z) (p : Progress) : bool :=
  unlimited max_attempts || (attempts_used p <? max_attempts)%Z.

(** Modelled from the spec: the serialization point of section 5, as a
    conditional update of the progress row: in one atomic step the attempt
    check is made and, when it passes, the counter is incremented and the
    row marked completed. *)
Definition reserve_attempt (max_attempts : Z) (p : Progress) : option Progress :=
  if can_attempt max_attempts p
  then Some {| attempts_used := attempts_used p + 1; completed := true |}
  else None.

(** the progress row of the pair and the attempt numbers of its recordings *)
Record PairState := mkPair { progress : Progress; accepted : list Z }.

(** Modelled from the spec: the Upload Recording operation of the Recording
    Store (section 4.1) for an upload that names the assignment: validate
    the payload, check the attempts (reject with [AttemptLimitExceeded]),
    and on success insert the recording, increment the attempt counter and
    mark the progress completed.  A rejected upload leaves the state as it
    was. *)
Definition upload_recording (cfg : Config) (max_attempts : Z) (u : Upload) (st : PairState)
  : PairState * (UploadError + Z) :=
  match validate_payload cfg u with
  | Some e => (st, inl e)
  | None =>
      match reserve_attempt max_attempts (progress st) with
      | None => (st, inl AttemptLimitExceeded)
      | Some p' =>
          ({| progress := p'; accepted := accepted st ++ [attempts_used p'] |},
           inr (attempts_used p'))
      end
  end.

(** **** Uploads that run at the same time

    Every upload request is handled by a thread of its own; the threads
    share the state of the pair and advance one step at a time, in any
    order.  The attempt check is made either as the conditional update
    above, or, for comparison, as a read of the counter followed later by
    its write. *)
Inductive Discipline := ConditionalUpdate | CheckThenWrite.

Inductive Pc :=
| Received (u : Upload)
| Validated
| Checked                 (* has read the counter and passed the check *)
| Reserved (attempt : Z)  (* has incremented the counter *)
| Accepted (attempt : Z)  (* has inserted its recording *)
| Rejected (e : UploadError).

Record System := mkSystem { pair : PairState; threads : list Pc }.

Definition set_thread (i : nat) (pc : Pc) (s : System) : System :=
  {| pair := pair s; threads := <[i := pc]> (threads s) |}.

(** Modelled from the spec: the handler of an upload, cut into the steps
    between which other handlers may run (sections 4.1 and 5): validate the
    payload, pass the attempt check and increment the counter, insert the
    recording.  Thread [i] advances by one step; [None] when it does not
    exist or has finished. *)
Definition thread_step (d : Discipline) (cfg : Config) (max_attempts : Z)
    (s : System) (i : nat) : option System :=
  match threads s !! i with
  | Some (Received u) =>
      match validate_payload cfg u with
      | Some e => Some (set_thread i (Rejected e) s)
      | None => Some (set_thread i Validated s)
      end
  | Some Validated =>
      match d with
      | ConditionalUpdate =>
          match reserve_attempt max_attempts (progress (pair s)) with
          | Some p' =>
              Some {| pair := {| progress := p'; accepted := accepted (pair s) |};
                      threads := <[i := Reserved (attempts_used p')]> (threads s) |}
          | None => Some (set_thread i (Rejected AttemptLimitExceeded) s)
          end
      | CheckThenWrite =>
          if can_attempt max_attempts (progress (pair s))
          then Some (set_thread i Checked s)
          else Some (set_thread i (Rejected AttemptLimitExceeded) s)
      end
  | Some Checked =>
      let p' := {| attempts_used := attempts_used (progress (pair s)) + 1;
                   completed := true |} in
      Some {| pair := {| progress := p'; accepted := accepted (pair s) |};
              threads := <[i := Reserved (attempts_used p')]> (threads s) |}
  | Some (Reserved n) =>
      Some {| pair := {| progress := progress (pair s);
                         accepted := accepted (pair s) ++ [n] |};
              threads := <[i := Accepted n]> (threads s) |}
  | Some (Accepted _) | Some (Rejected _) | None => None
  end.

(** an interleaving: the threads in the order they take their steps *)
Fixpoint interleave (d : Discipline) (cfg : Config) (max_attempts : Z)
    (s : System) (schedule : list nat) : option System :=
  match schedule with
  | [] => Some s
  | i :: rest =>
      match thread_step d cfg max_attempts s i with
      | Some s' => interleave d cfg max_attempts s' rest
      | None => None
      end
  end.

(** the uploads arrive while the pair is in state [st] *)
Definition arrivals (st : PairState) (us : list Upload) : System :=
  {| pair := st; threads := map Received us |}.

Definition is_reserved (pc : Pc) : bool :=
  match pc with
  | Reserved _ => true
  | _ => false
  end.

(** the recordings accepted so far, with those whose attempt is reserved *)
Definition committed (s : System) : Z :=
  Z.of_nat (length (accepted (pair s))) + Z.of_nat (length (List.filter is_reserved (threads s))).

(** the counter agrees with the recordings of the pair *)
Definition consistent (st : PairState) : Prop :=
  Z.of_nat (length (accepted st)) = attempts_used (progress st).

Definition b2z (b : bool) : Z := if b then 1%Z else 0%Z.

(** the invariant of the conditional update, for uploads that arrived in
    state [st0]: every increment of the counter stands for a recording that
    is accepted or about to be, the counter stays within the limit, and the
    recordings only grow *)
Definition safe (max_attempts : Z) (st0 : PairState) (s : System) : Prop :=
  committed s = attempts_used (progress (pair s)) /\
  (attempts_used (progress (pair s)) <= max_attempts)%Z /\
  (attempts_used (progress st0) <= attempts_used (progress (pair s)))%Z /\
  (exists extra, accepted (pair s) = accepted st0 ++ extra) /\
  Forall (fun pc => pc <> Checked) (threads s).

Definition sample_config : Config := {| size_ceiling := 10485760; allowed_media := ["audio/wav"; "audio/webm"] |}.

Definition sample_upload : Upload := {| payload_size := 480000; media_type := "audio/wav" |}.

(** three attempts allowed and all three used *)
Definition at_ceiling : PairState :=
  {| progress := {| attempts_used := 3; completed := true |}; accepted := [1; 2; 3]%Z |}.

(** three attempts allowed and two used *)
Definition one_left : PairState :=
  {| progress := {| attempts_used := 2; completed := true |}; accepted := [1; 2]%Z |}.

End RecordingStore.

(** *** A reader that outlives the allowance

    The student's list serves [can_attempt] with each assignment; the card
    hands the assignment to the reader, and nothing fetches it again after
    an upload. *)
Module StaleAllowance.
Import Types.

(** the assignment as it is served while one of three attempts is left:
    [can_attempt] is the check of the store at that time *)
Definition served_with_one_left : StudentAssignment.t :=
  {| StudentAssignment.id := 7;
     StudentAssignment.assignment_title := "Week 3 reading";
     StudentAssignment.story_title := "The Tortoise and the Hare";
     StudentAssignment.story_id := 12;
     StudentAssignment.due_date := None;
     StudentAssignment.attempts_used := 2;
     StudentAssignment.is_completed := true;
     StudentAssignment.can_attempt :=
       RecordingStore.can_attempt 3 (RecordingStore.progress RecordingStore.one_left);
     StudentAssignment.created_at := "2024-01-10T08:00:00Z" |}.

Definition reader_props : StoryReader.Props :=
  {| StoryReader.story_id := 12; StoryReader.assignment := Some served_with_one_left |}.

(** the student records and uploads, and the upload is answered *)
Definition first_take : list StoryReader.Event :=
  [StoryReader.ClickStartRecording; StoryReader.RecorderSubmit 480000;
   StoryReader.UploadSettled].

(** in the same reader, the student records and uploads again *)
Definition second_take : list StoryReader.Event :=
  [StoryReader.ClickStartRecording; StoryReader.RecorderSubmit 480000].

Definition the_upload : StoryReader.UploadForm :=
  StoryReader.mkUploadForm "recording.wav" 480000 12 7 "60" 480000.

(** the store once the first upload is in *)
Definition after_first_take : RecordingStore.PairState :=
  fst (RecordingStore.upload_recording RecordingStore.sample_config 3
         RecordingStore.sample_upload RecordingStore.one_left).

(** what the store receives for a form of the reader: the audio with its
    size, under the media type [media] *)
Definition received (media : string) (f : StoryReader.UploadForm) : RecordingStore.Upload :=
  {| RecordingStore.payload_size := StoryReader.audio_size f;
     RecordingStore.media_type := media |}.

(** the store once it has handled the uploads [forms], in their order *)
Definition store_after (cfg : RecordingStore.Config) (max_attempts : Z) (media : string)
    (forms : list StoryReader.UploadForm) (st : RecordingStore.PairState)
  : RecordingStore.PairState :=
  fold_left (fun s f => fst (RecordingStore.upload_recording cfg max_attempts
                               (received media f) s)) forms st.

(** The claim, read on a reader and the store it uploads to.  The reader is
    opened on the assignment as the store serves it in the state [st], and
    the store handles the uploads the reader sends.  Once the allowance is
    exhausted in the store, the reader initiates no further upload. *)
Definition reader_stops_when_exhausted (cfg : RecordingStore.Config) (max_attempts : Z)
    (media : string) : Prop :=
  forall (p : StoryReader.Props) (a : StudentAssignment.t) (st : RecordingStore.PairState)
         (es es' : list StoryReader.Event) (m m' : StoryReader.Machine)
         (sent sent' : list StoryReader.UploadForm),
    StoryReader.assignment p = Some a ->
    StudentAssignment.can_attempt a
    = RecordingStore.can_attempt max_attempts (RecordingStore.progress st) ->
    StoryReader.run p StoryReader.mounted es = Some (m, sent) ->
    RecordingStore.can_attempt max_attempts
      (RecordingStore.progress (store_after cfg max_attempts media sent st)) = false ->
    StoryReader.run p m es' = Some (m', sent') ->
    sent' = [].

End StaleAllowance.

(** *** The flagging engine of the backend

    The frontend lists the flags, resolves them and triggers the analysis
    ([analyticsAPI]); the engine itself runs on the server and none of its
    code is among the sources. *)
Module FlagEngine.

Inductive FlagType := low_submission_rate | submission_gap | declining_scores.
Inductive Severity := low | medium | high | urgent.

#[global] Instance FlagType_eq_dec : EqDecision FlagType.
Proof. solve_decision. Defined.

(** Modelled from the spec: the StudentFlag entity (section 3). *)
Record StudentFlag := mkFlag {
  flag_id : nat;
  student : Z;
  flag_type : FlagType;
  severity : Severity;
  description : string;
  resolved : bool;
  resolution_notes : string;
  created_at : string
}.

(** what a threshold rule emits for a student *)
Record Emission := mkEmission {
  e_student : Z;
  e_type : FlagType;
  e_severity : Severity;
  e_description : string
}.

(** [f] is an unresolved flag of the pair (student, flag type) *)
Definition open_for (s : Z) (t : FlagType) (f : StudentFlag) : bool :=
  negb (resolved f) && bool_decide (student f = s) && bool_decide (flag_type f = t).

Definition count_open (s : Z) (t : FlagType) (flags : list StudentFlag) : nat :=
  length (List.filter (open_for s t) flags).

Definition has_open (s : Z) (t : FlagType) (flags : list StudentFlag) : bool :=
  existsb (open_for s t) flags.

Definition fresh_id (flags : list StudentFlag) : nat := S (list_max (map flag_id flags)).

(** Modelled from the spec: the update in place of section 4.3: the severity
    and the description of an unresolved flag of the pair are brought up to
    date, the flag stays the same otherwise. *)
Definition refresh (e : Emission) (f : StudentFlag) : StudentFlag :=
  if open_for (e_student e) (e_type e) f then
    {| flag_id := flag_id f; student := student f; flag_type := flag_type f;
       severity := e_severity e; description := e_description e;
       resolved := resolved f; resolution_notes := resolution_notes f;
       created_at := created_at f |}
  else f.

(** Modelled from the spec: how the Analytics / Flagging Engine (section
    4.3), which is on the server and not among the sources, records an
    emission: it must not duplicate an unresolved flag of the same (student,
    flag type) pair, and updates the severity and description of the
    existing unresolved flag in place rather than creating a duplicate;
    with no unresolved flag of the pair it creates one.  The other rule of
    the section, that the engine does not flag a condition again on the
    evaluation window that just produced its resolution, is not part of
    this definition: an emission for a pair whose flag was just resolved
    creates a flag here.  The properties below are about unresolved
    duplicates and resolved flags staying resolved, and say nothing on
    that rule. *)
Definition record_emission (now : string) (flags : list StudentFlag) (e : Emission)
  : list StudentFlag :=
  if has_open (e_student e) (e_type e) flags then map (refresh e) flags
  else flags ++ [ {| flag_id := fresh_id flags; student := e_student e;
                     flag_type := e_type e; severity := e_severity e;
                     description := e_description e; resolved := false;
                     resolution_notes := EmptyString; created_at := now |} ].

(** Modelled from the spec: resolving a flag (section 4.3) sets resolved to
    true with the resolution notes; a resolved flag is never reopened. *)
Definition resolve_flag (id : nat) (notes : string) (flags : list StudentFlag)
  : list StudentFlag :=
  map (fun f => if (flag_id f =? id)%nat then
                  {| flag_id := flag_id f; student := student f; flag_type := flag_type f;
                     severity := severity f; description := description f;
                     resolved := true; resolution_notes := notes;
                     created_at := created_at f |}
                else f) flags.

Section Engine.

(** The threshold rules are, by the spec, a deterministic pure function from
    the submission history to zero or more emissions; their thresholds are
    left to the implementer, so the rules are a parameter here. *)
Variable History : Type.
Variable evaluate : History -> list Emission.

(** Modelled from the spec: one run of the engine (section 4.3) over the
    input data [h]: a recomputation that records every emission of the
    rules. *)
Definition run_engine (now : string) (h : History) (flags : list StudentFlag)
  : list StudentFlag :=
  fold_left (record_emission now) (evaluate h) flags.

Inductive Action :=
| RunEngine (now : string) (h : History)
| ResolveFlag (id : nat) (notes : string).

Definition act (flags : list StudentFlag) (a : Action) : list StudentFlag :=
  match a with
  | RunEngine now h => run_engine now h flags
  | ResolveFlag id notes => resolve_flag id notes flags
  end.

(** the table of flags after a history of engine runs and resolutions *)
Definition flags_after (actions : list Action) : list StudentFlag :=
  fold_left act actions [].

End Engine.

(** at most one unresolved flag per (student, flag type) *)
Definition at_most_one_open (flags : list StudentFlag) : Prop :=
  forall s t, (count_open s t flags <= 1)%nat.

(** [f'] is the flag [f], up to its severity and description *)
Definition same_flag (f f' : StudentFlag) : Prop :=
  flag_id f' = flag_id f /\ student f' = student f /\ flag_type f' = flag_type f /\
  resolved f' = resolved f /\ resolution_notes f' = resolution_notes f /\
  created_at f' = created_at f.

(** rules to run the engine on: the history is the number of days since the
    last recording of student 42, flagged from the eighth day on *)
Definition gap_rule (days : Z) : list Emission :=
  if (7 <? days)%Z then
    [ {| e_student := 42; e_type := submission_gap;
         e_severity := (if (14 <=? days)%Z then high else medium);
         e_description := "No recording submitted recently" |} ]
  else [].

End FlagEngine.

(** *** More of [utils/security.ts] *)

(** **** A regular expression of the shape the sources use

    A pattern anchored at both ends, made of single characters and of
    character classes repeated one or more times. *)
Module Regex.

Inductive Item :=
| Lit (c : ascii)
| Plus (cls : ascii -> bool).

(** [/^...$/.test(s)]: the whole of [s] matches the pattern *)
Fixpoint test (pat : list Item) : string -> bool :=
  match pat with
  | [] => fun s => String.eqb s EmptyString
  | Lit c :: rest =>
      fun s =>
        match s with
        | EmptyString => false
        | String c' s' => Ascii.eqb c c' && test rest s'
        end
  | Plus cls :: rest =>
      fix more (s : string) : bool :=
        match s with
        | EmptyString => false
        | String c' s' => cls c' && (test rest s' || more s')
        end
  end.

(** every character of [w] is in the class *)
Definition all_in (cls : ascii -> bool) (w : string) : Prop :=
  forall c, In c (JS.chars w) -> cls c = true.

(** the strings a pattern stands for *)
Fixpoint language (pat : list Item) (s : string) : Prop :=
  match pat with
  | [] => s = EmptyString
  | Lit c :: rest => exists s', s = String c s' /\ language rest s'
  | Plus cls :: rest =>
      exists w s', w <> EmptyString /\ all_in cls w /\
                   s = (w ++ s')%string /\ language rest s'
  end.

End Regex.

Module EmailCheck.

(** the class [\s], on the code units of the model: tab to carriage
    return, space and no-break space *)
Definition is_whitespace (c : ascii) : bool :=
  let n := JS.code c in
  ((9 <=? n) && (n <=? 13) || (n =? 32) || (n =? 160))%nat.

(** the class [[^\s@]] *)
Definition not_space_at (c : ascii) : bool :=
  negb (is_whitespace c) && negb (Ascii.eqb c "@"%char).

(** [/^[^\s@]+@[^\s@]+\.[^\s@]+$/] *)
Definition emailRegex : list Regex.Item :=
  [Regex.Plus not_space_at; Regex.Lit "@"; Regex.Plus not_space_at;
   Regex.Lit "."; Regex.Plus not_space_at].

Definition isValidEmail (email : string) : bool := Regex.test emailRegex email.

(** how often the character [c] occurs in [s] *)
Definition occurrences (c : ascii) (s : string) : nat :=
  length (List.filter (Ascii.eqb c) (JS.chars s)).

End EmailCheck.

(** **** [FormSecurityUtils.createSubmissionLimiter] *)
Module FormSecurityUtils.

(** the parameter [minInterval = 1000] *)
Definition minInterval_of (minInterval : option Z) : Z :=
  match minInterval with
  | Some v => v
  | None => 1000%Z
  end.

(** one call of the returned function at clock reading [now], on the
    variable [lastSubmission] of the closure *)
Definition submission_call (minInterval : Z) (now : Z) (lastSubmission : Z) : bool * Z :=
  if (now - lastSubmission <? minInterval)%Z then (false, lastSubmission)
  else (true, now).

Fixpoint submission_run (minInterval : Z) (lastSubmission : Z) (calls : list Z)
  : list (Z * bool) :=
  match calls with
  | [] => []
  | now :: calls' =>
      let '(ok, last') := submission_call minInterval now lastSubmission in
      (now, ok) :: submission_run minInterval last' calls'
  end.

(** [createSubmissionLimiter(minInterval)] starts from [lastSubmission = 0] *)
Definition createSubmissionLimiter (minInterval : option Z) (calls : list Z)
  : list (Z * bool) :=
  submission_run (minInterval_of minInterval) 0 calls.

(** each time of the list lies at least [gap] after the one before it, the
    first one after [from] *)
Fixpoint spaced (gap : Z) (from : Z) (times : list Z) : Prop :=
  match times with
  | [] => True
  | t :: rest => (gap <= t - from)%Z /\ spaced gap t rest
  end.

End FormSecurityUtils.

(** **** [APISecurityUtils.validateAPIResponse] *)
Module APIResponse.

Unset Elimination Schemes.

(** a value as [JSON.parse] builds it; an object is the list of its own
    properties *)
Inductive JSON :=
| JNull
| JBool (b : bool)
| JNumber (q : Q)
| JString (s : string)
| JArray (items : list JSON)
| JObject (props : list (string * JSON)).

Set Elimination Schemes.

Definition dangerousKeys : list string := ["__proto__"; "constructor"; "prototype"].

Definition is_dangerous (key : string) : bool :=
  existsb (String.eqb key) dangerousKeys.

(** [checkObject]: the loop [for (const key in obj)] runs over the indices
    of an array, which are never dangerous, and over the keys of an object;
    a value that is not an object is safe *)
Fixpoint checkObject (obj : JSON) : bool :=
  match obj with
  | JArray items => forallb checkObject items
  | JObject props =>
      forallb (fun kv => negb (is_dangerous (fst kv)) && checkObject (snd kv)) props
  | _ => true
  end.

(** [typeof response !== 'object' || response === null] answers [true]
    at once; every other value goes to [checkObject] *)
Definition validateAPIResponse (response : JSON) : bool :=
  match response with
  | JArray _ | JObject _ => checkObject response
  | _ => true
  end.

(** some object inside the value, at any depth, has a dangerous key *)
Inductive has_dangerous_key : JSON -> Prop :=
| dangerous_here props key v :
    In (key, v) props -> In key dangerousKeys -> has_dangerous_key (JObject props)
| dangerous_in_prop props key v :
    In (key, v) props -> has_dangerous_key v -> has_dangerous_key (JObject props)
| dangerous_in_item items v :
    In v items -> has_dangerous_key v -> has_dangerous_key (JArray items).

End APIResponse.

(** **** [APISecurityUtils.getCSRFToken] and [addSecurityHeaders] *)
Module CSRF.

(** [s.split(sep)] for a separator that is not empty: [cur] collects the
    piece being read, [skip] counts the characters of a separator that are
    still to be passed over *)
Fixpoint split_go (sep : string) (skip : nat) (cur : string) (s : string) : list string :=
  match s with
  | EmptyString => [cur]
  | String c s' =>
      match skip with
      | S k => split_go sep k cur s'
      | O =>
          if JS.startsWith s sep
          then cur :: split_go sep (String.length sep - 1) EmptyString s'
          else split_go sep 0 (cur ++ String c EmptyString)%string s'
      end
  end.

Definition split (sep : string) (s : string) : list string :=
  split_go sep 0 EmptyString s.

(** what the function reads of the document: the cookie string, and the
    [content] of the element [meta[name=csrf-token]] when there is one *)
Record Document := mkDocument { cookie : string; csrf_meta : option string }.

(** [x || null] on a string that may be missing *)
Definition or_null (x : option string) : option string :=
  if JS.truthy x then x else None.

(** [document.cookie.split('; ').find(row => row.startsWith('csrftoken='))?.split('=')[1]] *)
Definition cookieValue (doc : Document) : option string :=
  match List.find (fun row => JS.startsWith row "csrftoken=") (split "; " (cookie doc)) with
  | Some row => nth_error (split "=" row) 1
  | None => None
  end.

Definition getCSRFToken (doc : Document) : option string :=
  if JS.truthy (cookieValue doc) then cookieValue doc
  else or_null (csrf_meta doc).

(** [{ ...headers, 'Content-Type': ..., 'X-Requested-With': ...,
       ...(csrfToken && { 'X-CSRFToken': csrfToken }) }] *)
Definition addSecurityHeaders (doc : Document) (headers : gmap string string)
  : gmap string string :=
  let csrfToken := getCSRFToken doc in
  let fixed :=
    <["X-Requested-With" := "XMLHttpRequest"]>
      (<["Content-Type" := "application/json"]> headers) in
  if JS.truthy csrfToken then <["X-CSRFToken" := JS.template csrfToken]> fixed
  else fixed.

(** the character [c] does not occur in [s] *)
Definition free_of (c : ascii) (s : string) : Prop := ~ In c (JS.chars s).

(** **** The cookie string, read as text

    the pieces [parts] with [sep] between them *)
Fixpoint join (sep : string) (parts : list string) : string :=
  match parts with
  | [] => EmptyString
  | p :: rest =>
      match rest with
      | [] => p
      | _ :: _ => (p ++ sep ++ join sep rest)%string
      end
  end.

(** [rows] are the entries of the cookie string [s]: the texts between its
    separators, a semicolon and a space; no entry holds a separator *)
Definition entries (s : string) (rows : list string) : Prop :=
  rows <> [] /\ join "; " rows = s /\
  List.Forall (fun row => ~ JS.occurs_in "; " row) rows.

(** the entry is one of the CSRF token: it starts with [csrftoken=] *)
Definition names_token (row : string) : Prop :=
  exists x, row = ("csrftoken=" ++ x)%string.

(** the token [t] of such an entry: the text after [csrftoken=], up to the
    next equals sign or to the end of the entry *)
Definition entry_token (row t : string) : Prop :=
  exists rest, row = ("csrftoken=" ++ t ++ rest)%string /\ free_of "=" t /\
               (rest = EmptyString \/ exists rest', rest = ("=" ++ rest')%string).

End CSRF.

(** **** [StorageSecurityUtils.clearSensitiveData] *)
Module StorageSecurityUtils.

Definition sensitiveKeys : list string := ["auth_token"; "user_data"; "session_data"].

(** the two storages of the browser *)
Record Storages := mkStorages {
  localStorage : gmap string string;
  sessionStorage : gmap string string
}.

(** [sensitiveKeys.forEach(key => { localStorage.removeItem(key);
                                    sessionStorage.removeItem(key); })] *)
Definition clearSensitiveData (st : Storages) : Storages :=
  fold_left (fun st key =>
               {| localStorage := Auth.removeItem key (localStorage st);
                  sessionStorage := Auth.removeItem key (sessionStorage st) |})
            sensitiveKeys st.

End StorageSecurityUtils.

(** *** More on the review component *)
Module RecordingReviewViews.
Import Types RecordingReviewComponent.

(** the two numbers in the header: [pendingRecordings.length] Pending
    Reviews and [reviewedRecordings.length] Completed *)
Definition pending_count (m : Machine) : nat := length (pendingRecordings (ui m)).
Definition completed_count (m : Machine) : nat := length (reviewedRecordings (ui m)).

(** the banner [{error && <div className="error-message">...}] is on screen *)
Definition error_shown (m : Machine) : Prop := error (ui m) <> EmptyString.

(** a review that the server refuses, followed by one it accepts *)
Definition refused_then_accepted : list Event :=
  [ClickReview 0; ChangeFeedback "Good pacing"; SubmitForm; Settle 0 Rejected;
   SubmitForm; Settle 0 Resolved].

Definition sample_refused : Machine :=
  Eval vm_compute in run_from [sample_recording] (take 4 refused_then_accepted).

Definition sample_refused_then_accepted : Machine :=
  Eval vm_compute in run_from [sample_recording] refused_then_accepted.

End RecordingReviewViews.

(** *** Numbers as text *)
Module JSNumber.

(** the text of an integer, as [toString] and a template literal give it:
    its decimal digits, with a minus sign before a negative number.  This
    is the text JavaScript gives for an integer of magnitude below 10^21,
    which the identifiers, counts and sizes of this program are; from 10^21
    on JavaScript writes an exponent, which this definition does not
    follow. *)
Definition toString (z : Z) : string :=
  DecimalString.NilZero.string_of_int (Z.to_int z).

Fixpoint pad (k : nat) (fill : ascii) (s : string) : string :=
  match k with
  | O => s
  | S k' => String fill (pad k' fill s)
  end.

(** [s.padStart(targetLength, fill)] for a [fill] of one character *)
Definition padStart (targetLength : nat) (fill : ascii) (s : string) : string :=
  pad (targetLength - String.length s) fill s.

End JSNumber.

(** *** [services/api.ts], the base address *)
Module Api.

(** [process.env.REACT_APP_API_URL || 'http://localhost:8000/api'] *)
Definition API_BASE_URL (env : option string) : string :=
  if JS.truthy env then JS.template env else "http://localhost:8000/api".

(** [storiesAPI.getAudioUrl], for the text [voiceType] of a voice *)
Definition getAudioUrl (env : option string) (storyId : Z) (voiceType : string) : string :=
  (API_BASE_URL env ++ "/stories/" ++ JSNumber.toString storyId ++ "/audio/"
     ++ voiceType ++ "/")%string.

End Api.

(** *** [types/index.ts], the story and its audio files *)
Module StoryTypes.

Inductive VoiceType := female_1 | female_2 | male_1 | male_2.
Inductive Difficulty := easy | medium | hard.

#[global] Instance VoiceType_eq_dec : EqDecision VoiceType.
Proof. solve_decision. Defined.

(** the string of a voice type *)
Definition voice_text (v : VoiceType) : string :=
  match v with
  | female_1 => "female_1"
  | female_2 => "female_2"
  | male_1 => "male_1"
  | male_2 => "male_2"
  end.

Module AudioFile.
Record t := mk {
  id : Z;
  voice_type : VoiceType;
  file_path : string;
  duration : Q;
  file_size : Z
}.
End AudioFile.

Module Story.
Record t := mk {
  id : Z;
  title : string;
  content : string;
  grade_level : string;
  difficulty : Difficulty;
  word_count : Z;
  estimated_reading_time : Q;
  audio_files : list AudioFile.t;
  created_at : string
}.
End Story.

End StoryTypes.

(** *** [components/StoryReader.tsx], the uploads of a run *)
Module StoryReaderUploads.
Import Types StoryReader.

(** the sizes of the blobs that the recorder handed over, in order *)
Definition submitted (es : list Event) : list Z :=
  flat_map (fun e => match e with RecorderSubmit blob_size => [blob_size] | _ => [] end) es.

(** the uploads in flight that have been answered *)
Definition is_settled (e : Event) : bool :=
  match e with UploadSettled => true | _ => false end.

Definition answered (es : list Event) : nat := length (List.filter is_settled es).

(** the fields of an upload that come from the reader's props *)
Definition names (p : Props) (a : StudentAssignment.t) (u : UploadForm) : Prop :=
  audio_name u = "recording.wav" /\
  story u = story_id p /\
  form_assignment u = StudentAssignment.id a /\
  duration u = "60" /\
  file_size u = audio_size u.

(** a reader opened from the story list, with no assignment *)
Definition free_practice : Props := {| story_id := 12; assignment := None |}.

Definition one_attempt_left : StudentAssignment.t :=
  StudentAssignment.mk 7 "Week 3 reading" "The Tortoise and the Hare" 12 None
    2 false true "2024-01-10T08:00:00Z".

End StoryReaderUploads.

(** *** [components/StoryReader.tsx], the voice of the story audio *)
Module StoryVoices.
Import StoryTypes.

Record VoiceOption := mkVoiceOption { value : VoiceType; label : string }.

Definition voiceOptions : list VoiceOption :=
  [ {| value := female_1; label := "Female Voice 1" |};
    {| value := female_2; label := "Female Voice 2" |};
    {| value := male_1; label := "Male Voice 1" |};
    {| value := male_2; label := "Male Voice 2" |} ].

Definition availableVoices (story : Story.t) : list VoiceOption :=
  List.filter
    (fun voice =>
       existsb (fun audio => bool_decide (AudioFile.voice_type audio = value voice))
         (Story.audio_files story))
    voiceOptions.

(** [useState(story.audio_files[0]?.voice_type || 'female_1')] *)
Definition initialVoice (story : Story.t) : VoiceType :=
  match Story.audio_files story with
  | audio :: _ => AudioFile.voice_type audio
  | [] => female_1
  end.

Definition currentAudioFile (story : Story.t) (selectedVoice : VoiceType)
  : option AudioFile.t :=
  List.find (fun audio => bool_decide (AudioFile.voice_type audio = selectedVoice))
    (Story.audio_files story).

(** the [src] of the player; empty when the selected voice has no file *)
Definition audioUrl (env : option string) (story : Story.t) (selectedVoice : VoiceType)
  : string :=
  match currentAudioFile story selectedVoice with
  | Some _ => Api.getAudioUrl env (Story.id story) (voice_text selectedVoice)
  | None => EmptyString
  end.

(** the select: a voice can be chosen when its option is on the list *)
Definition choose (story : Story.t) (v : VoiceType) : option VoiceType :=
  if existsb (fun voice => bool_decide (value voice = v)) (availableVoices story)
  then Some v else None.

(** the selected voice after a run of choices *)
Fixpoint choices (story : Story.t) (selectedVoice : VoiceType) (vs : list VoiceType)
  : option VoiceType :=
  match vs with
  | [] => Some selectedVoice
  | v :: vs' =>
      match choose story v with
      | Some selected => choices story selected vs'
      | None => None
      end
  end.

Definition narrated : Story.t :=
  Story.mk 12 "The Tortoise and the Hare" "Once upon a time" "3" easy 120 (60 # 1)
    [ AudioFile.mk 31 male_1 "stories/12/male_1.mp3" (58 # 1) 470000;
      AudioFile.mk 32 female_2 "stories/12/female_2.mp3" (61 # 1) 480000 ]
    "2024-01-05T08:00:00Z".

End StoryVoices.

(** *** [components/AssignmentCard.tsx]

    The card of one assignment; its button fetches the story and then the
    card gives way to the story reader. *)
Module AssignmentCard.
Import Types StoryTypes.

Record State := mkState {
  showReader : bool;
  fullStory : option Story.t;
  loading : bool
}.

Definition initialState : State :=
  {| showReader := false; fullStory := None; loading := false |}.

Definition setShowReader (b : bool) (st : State) : State :=
  {| showReader := b; fullStory := fullStory st; loading := loading st |}.

Definition setFullStory (s : option Story.t) (st : State) : State :=
  {| showReader := showReader st; fullStory := s; loading := loading st |}.

Definition setLoading (b : bool) (st : State) : State :=
  {| showReader := showReader st; fullStory := fullStory st; loading := b |}.

Definition getStatusColor (a : StudentAssignment.t) : string :=
  if StudentAssignment.is_completed a then "#4CAF50"
  else if negb (StudentAssignment.can_attempt a) then "#F44336"
  else "#2196F3".

Definition getStatusText (a : StudentAssignment.t) : string :=
  if StudentAssignment.is_completed a then "Completed"
  else if negb (StudentAssignment.can_attempt a) then "Max attempts reached"
  else (JSNumber.toString (StudentAssignment.attempts_used a) ++ " / "
          ++ JSNumber.toString 3 ++ " attempts used")%string.

(** [if (showReader && fullStory)]: the reader is on screen, not the card *)
Definition reader_shown (st : State) : bool :=
  showReader st && match fullStory st with Some _ => true | None => false end.

(** the props the card hands to the reader *)
Definition reader_props (a : StudentAssignment.t) (st : State) : option StoryReader.Props :=
  if showReader st then
    match fullStory st with
    | Some s => Some {| StoryReader.story_id := Story.id s;
                        StoryReader.assignment := Some a |}
    | None => None
    end
  else None.

(** the button: [disabled={loading || (!can_attempt && !is_completed)}] *)
Definition start_disabled (a : StudentAssignment.t) (st : State) : bool :=
  loading st
  || (negb (StudentAssignment.can_attempt a) && negb (StudentAssignment.is_completed a)).

Definition start_label (a : StudentAssignment.t) (st : State) : string :=
  if loading st then "Loading..."
  else if StudentAssignment.is_completed a then "Review" else "Start Assignment".

Inductive Event :=
| ClickStart                                  (* [handleStartAssignment] *)
| StoryLoaded (storyData : option Story.t)    (* [getStory] resolved, or threw *)
| ReaderClose.                                (* the reader calls [onClose] *)

Record Machine := mkMachine { ui : State; fetching : nat }.

Definition step (a : StudentAssignment.t) (m : Machine) (e : Event) : option Machine :=
  match e with
  | ClickStart =>
      if negb (reader_shown (ui m)) && negb (start_disabled a (ui m)) then
        Some {| ui := setLoading true (ui m); fetching := S (fetching m) |}
      else None
  | StoryLoaded storyData =>
      match fetching m with
      | O => None
      | S n =>
          Some {| ui := setLoading false
                          match storyData with
                          | Some s => setShowReader true (setFullStory (Some s) (ui m))
                          | None => ui m
                          end;
                  fetching := n |}
      end
  | ReaderClose =>
      if reader_shown (ui m) then
        Some {| ui := setFullStory None (setShowReader false (ui m));
                fetching := fetching m |}
      else None
  end.

Fixpoint run (a : StudentAssignment.t) (m : Machine) (es : list Event) : option Machine :=
  match es with
  | [] => Some m
  | e :: es' =>
      match step a m e with
      | Some m' => run a m' es'
      | None => None
      end
  end.

Definition mounted : Machine := {| ui := initialState; fetching := 0 |}.

(** what the card keeps true: one request at most, and [loading] while it
    is in flight; a card whose button is off stays as it was mounted *)
Definition Inv (a : StudentAssignment.t) (m : Machine) : Prop :=
  (fetching m <= 1)%nat /\
  loading (ui m) = (fetching m =? 1)%nat /\
  (StudentAssignment.can_attempt a || StudentAssignment.is_completed a = false ->
   m = mounted).

End AssignmentCard.

(** *** [components/AudioRecorder.tsx]

    The state of the component and what its refs hold: whether a
    [MediaRecorder] has been made, the sizes of the chunks kept, whether the
    object address of the take is set and whether [timerRef] holds a timer.
    Beside them, what is under way: the requests for the microphone that
    are not answered, and the intervals that are running. *)
Module AudioRecorder.
Local Open Scope Z_scope.

Record State := mkState {
  isRecording : bool;
  recordingTime : nat;
  hasRecording : bool;
  isPlaying : bool;
  error : string
}.

Record Refs := mkRefs {
  mediaRecorder : bool;
  audioChunks : list Z;
  audioUrl : bool;
  timer : bool
}.

Record Machine := mkMachine {
  ui : State;
  refs : Refs;
  media_requests : nat;
  intervals : nat
}.

Definition mounted : Machine :=
  {| ui := {| isRecording := false; recordingTime := 0; hasRecording := false;
              isPlaying := false; error := EmptyString |};
     refs := {| mediaRecorder := false; audioChunks := []; audioUrl := false;
                timer := false |};
     media_requests := 0; intervals := 0 |}.

(** what the component calls on its parent *)
Inductive Call :=
| onComplete (blob_size : Z)
| onCancel.

(** [new Blob(parts)]: the size of a blob is the sum of the sizes of its parts *)
Definition Blob_size (parts : list Z) : Z := fold_right Z.add 0 parts.

Definition setError (e : string) (st : State) : State :=
  {| isRecording := isRecording st; recordingTime := recordingTime st;
     hasRecording := hasRecording st; isPlaying := isPlaying st; error := e |}.

Definition setIsPlaying (b : bool) (st : State) : State :=
  {| isRecording := isRecording st; recordingTime := recordingTime st;
     hasRecording := hasRecording st; isPlaying := b; error := error st |}.

(** [startRecording], up to the [await] of [getUserMedia] *)
Definition startRecording_ask (m : Machine) : Machine :=
  {| ui := setError EmptyString (ui m); refs := refs m;
     media_requests := S (media_requests m); intervals := intervals m |}.

(** the rest of [startRecording], once [getUserMedia] has answered; the
    new timer takes the place of the one in [timerRef], which keeps running *)
Definition startRecording_answered (granted : bool) (m : Machine) : Machine :=
  if granted then
    {| ui := {| isRecording := true; recordingTime := 0;
                hasRecording := hasRecording (ui m); isPlaying := isPlaying (ui m);
                error := error (ui m) |};
       refs := {| mediaRecorder := true; audioChunks := [];
                  audioUrl := audioUrl (refs m); timer := true |};
       media_requests := Nat.pred (media_requests m);
       intervals := S (intervals m) |}
  else
    {| ui := setError "Unable to access microphone. Please check your browser permissions."
               (ui m);
       refs := refs m;
       media_requests := Nat.pred (media_requests m);
       intervals := intervals m |}.

(** [ondataavailable]: a chunk is kept when it is not empty *)
Definition ondataavailable (size : Z) (m : Machine) : Machine :=
  if 0 <? size then
    {| ui := ui m;
       refs := {| mediaRecorder := mediaRecorder (refs m);
                  audioChunks := audioChunks (refs m) ++ [size];
                  audioUrl := audioUrl (refs m); timer := timer (refs m) |};
       media_requests := media_requests m; intervals := intervals m |}
  else m.

(** [onstop] *)
Definition onstop (m : Machine) : Machine :=
  {| ui := {| isRecording := isRecording (ui m); recordingTime := recordingTime (ui m);
              hasRecording := true; isPlaying := isPlaying (ui m);
              error := error (ui m) |};
     refs := {| mediaRecorder := mediaRecorder (refs m);
                audioChunks := audioChunks (refs m);
                audioUrl := true; timer := timer (refs m) |};
     media_requests := media_requests m; intervals := intervals m |}.

Definition stopRecording (m : Machine) : Machine :=
  if mediaRecorder (refs m) && isRecording (ui m) then
    {| ui := {| isRecording := false; recordingTime := recordingTime (ui m);
                hasRecording := hasRecording (ui m); isPlaying := isPlaying (ui m);
                error := error (ui m) |};
       refs := {| mediaRecorder := mediaRecorder (refs m);
                  audioChunks := audioChunks (refs m);
                  audioUrl := audioUrl (refs m); timer := false |};
       media_requests := media_requests m;
       intervals := if timer (refs m) then Nat.pred (intervals m) else intervals m |}
  else m.

Definition tick (m : Machine) : Machine :=
  {| ui := {| isRecording := isRecording (ui m); recordingTime := S (recordingTime (ui m));
              hasRecording := hasRecording (ui m); isPlaying := isPlaying (ui m);
              error := error (ui m) |};
     refs := refs m; media_requests := media_requests m; intervals := intervals m |}.

(** the audio element is there whenever the play control is *)
Definition playRecording (m : Machine) : Machine :=
  if audioUrl (refs m) then
    {| ui := setIsPlaying true (ui m); refs := refs m;
       media_requests := media_requests m; intervals := intervals m |}
  else m.

Definition pauseRecording (m : Machine) : Machine :=
  {| ui := setIsPlaying false (ui m); refs := refs m;
     media_requests := media_requests m; intervals := intervals m |}.

Definition handleSubmit (m : Machine) : list Call :=
  match audioChunks (refs m) with
  | [] => []
  | _ :: _ => [onComplete (Blob_size (audioChunks (refs m)))]
  end.

Definition handleRetry (m : Machine) : Machine :=
  {| ui := {| isRecording := isRecording (ui m); recordingTime := 0;
              hasRecording := false; isPlaying := isPlaying (ui m);
              error := error (ui m) |};
     refs := {| mediaRecorder := mediaRecorder (refs m);
                audioChunks := audioChunks (refs m);
                audioUrl := false; timer := timer (refs m) |};
     media_requests := media_requests m; intervals := intervals m |}.

Definition formatTime (seconds : nat) : string :=
  let mins := (seconds / 60)%nat in
  let secs := (seconds mod 60)%nat in
  (JSNumber.toString (Z.of_nat mins) ++ ":"
     ++ JSNumber.padStart 2 "0" (JSNumber.toString (Z.of_nat secs)))%string.

Inductive Event :=
| ClickStartRecording
| MediaAnswered (granted : bool) (* [getUserMedia] resolves, or throws *)
| DataAvailable (size : Z)       (* a recorder hands over a chunk *)
| RecorderStopped                (* a recorder fires [onstop] *)
| Tick                           (* an interval of one second *)
| ClickStopRecording
| ClickPlay
| ClickPause
| PlaybackEnded
| ClickRetry
| ClickSubmit
| ClickBack.

(** one event: the new state and the calls made on the parent; [None] when
    the control is not on screen, or the source of the event does not exist *)
Definition step (m : Machine) (e : Event) : option (Machine * list Call) :=
  let review := hasRecording (ui m) in
  match e with
  | ClickStartRecording =>
      if negb review && negb (isRecording (ui m)) then Some (startRecording_ask m, [])
      else None
  | MediaAnswered granted =>
      match media_requests m with
      | O => None
      | S _ => Some (startRecording_answered granted m, [])
      end
  | DataAvailable size =>
      if mediaRecorder (refs m) then Some (ondataavailable size m, []) else None
  | RecorderStopped =>
      if mediaRecorder (refs m) then Some (onstop m, []) else None
  | Tick =>
      match intervals m with
      | O => None
      | S _ => Some (tick m, [])
      end
  | ClickStopRecording =>
      if negb review && isRecording (ui m) then Some (stopRecording m, []) else None
  | ClickPlay =>
      if review && negb (isPlaying (ui m)) then Some (playRecording m, []) else None
  | ClickPause =>
      if review && isPlaying (ui m) then Some (pauseRecording m, []) else None
  | PlaybackEnded =>
      if review then Some (pauseRecording m, []) else None
  | ClickRetry =>
      if review then Some (handleRetry m, []) else None
  | ClickSubmit =>
      if review then Some (m, handleSubmit m) else None
  | ClickBack => Some (m, [onCancel])
  end.

Fixpoint run (m : Machine) (es : list Event) : option (Machine * list Call) :=
  match es with
  | [] => Some (m, [])
  | e :: es' =>
      match step m e with
      | Some (m', calls) =>
          match run m' es' with
          | Some (m'', calls') => Some (m'', calls ++ calls')
          | None => None
          end
      | None => None
      end
  end.

(** the chunks kept are not empty, and a recording in progress or a
    finished take has a recorder behind it *)
Definition Inv (m : Machine) : Prop :=
  List.Forall (fun size => 0 < size) (audioChunks (refs m)) /\
  (isRecording (ui m) = true -> mediaRecorder (refs m) = true) /\
  (hasRecording (ui m) = true -> mediaRecorder (refs m) = true).

End AudioRecorder.


(** *** [components/BulkReports.tsx]

    The list of reports, the set of the keys of the reports being
    generated, and what is under way: the timers that Download All has set
    and the fetches that have not been answered. *)
Module BulkReports.

Inductive Format := csv | json.

Definition format_text (f : Format) : string :=
  match f with
  | csv => "csv"
  | json => "json"
  end.

Record ReportOption := mkReportOption {
  type : string;
  title : string;
  description : string;
  endpoint : string;
  class_id : option Z
}.

(** [`${report.type}_${report.class_id || 'general'}`] *)
Definition reportKey (report : ReportOption) : string :=
  (type report ++ "_"
     ++ match class_id report with
        | Some id => if (id =? 0)%Z then "general" else JSNumber.toString id
        | None => "general"
        end)%string.

(** the address that [generateReport] fetches *)
Definition report_url (env : option string) (report : ReportOption) (selectedFormat : Format)
  : string :=
  ((if JS.truthy env then JS.template env else "http://localhost:8000")
     ++ "/api" ++ endpoint report ++ "?format=" ++ format_text selectedFormat)%string.

Record State := mkState {
  availableReports : list ReportOption;
  loading : bool;
  error : string;
  generatingReports : gset string;
  selectedFormat : Format
}.

Definition initialState : State :=
  {| availableReports := []; loading := true; error := EmptyString;
     generatingReports := ∅; selectedFormat := csv |}.

Record Machine := mkMachine {
  ui : State;
  timers : list (ReportOption * Format);
  inflight : list ReportOption
}.

Definition mounted : Machine := {| ui := initialState; timers := []; inflight := [] |}.

(** [loadAvailableReports], once the request is answered ([None]: it threw) *)
Definition loadAvailableReports (response : option (list ReportOption)) (st : State)
  : State :=
  match response with
  | Some reports =>
      {| availableReports := reports; loading := false; error := error st;
         generatingReports := generatingReports st; selectedFormat := selectedFormat st |}
  | None =>
      {| availableReports := availableReports st; loading := false;
         error := "Failed to load available reports.";
         generatingReports := generatingReports st; selectedFormat := selectedFormat st |}
  end.

Definition setSelectedFormat (f : Format) (st : State) : State :=
  {| availableReports := availableReports st; loading := loading st; error := error st;
     generatingReports := generatingReports st; selectedFormat := f |}.

(** [generateReport], up to the [await] of the fetch; [f] is the format of
    the render that made the handler *)
Definition generateReport_send (env : option string) (report : ReportOption) (f : Format)
    (m : Machine) : Machine * list string :=
  ({| ui := {| availableReports := availableReports (ui m); loading := loading (ui m);
               error := EmptyString;
               generatingReports := generatingReports (ui m) ∪ {[ reportKey report ]};
               selectedFormat := selectedFormat (ui m) |};
      timers := timers m;
      inflight := inflight m ++ [report] |},
   [report_url env report f]).

(** the rest of [generateReport]: the [catch] when the fetch failed or was
    not ok, and the [finally] *)
Definition generateReport_settle (report : ReportOption) (ok : bool) (st : State) : State :=
  {| availableReports := availableReports st; loading := loading st;
     error := if ok then error st
              else ("Failed to generate " ++ title report ++ ". Please try again.")%string;
     generatingReports := generatingReports st ∖ {[ reportKey report ]};
     selectedFormat := selectedFormat st |}.

Inductive Event :=
| Loaded (response : option (list ReportOption))
| ChooseFormat (f : Format)
| ClickDownload (i : nat)        (* the button of the [i]-th report *)
| ClickDownloadAll
| TimerFires (k : nat)           (* one of the timers of Download All *)
| Settled (k : nat) (ok : bool). (* one of the fetches is answered *)

(** one event: the new state and the addresses fetched; [None] when the
    control is not on screen or is disabled, or there is no such timer or
    fetch *)
Definition step (env : option string) (m : Machine) (e : Event)
  : option (Machine * list string) :=
  match e with
  | Loaded response =>
      if loading (ui m) then
        Some ({| ui := loadAvailableReports response (ui m);
                 timers := timers m; inflight := inflight m |}, [])
      else None
  | ChooseFormat f =>
      if loading (ui m) then None
      else Some ({| ui := setSelectedFormat f (ui m);
                    timers := timers m; inflight := inflight m |}, [])
  | ClickDownload i =>
      if loading (ui m) then None
      else
        match availableReports (ui m) !! i with
        | Some report =>
            if bool_decide (reportKey report ∈ generatingReports (ui m)) then None
            else Some (generateReport_send env report (selectedFormat (ui m)) m)
        | None => None
        end
  | ClickDownloadAll =>
      if loading (ui m) then None
      else if (length (availableReports (ui m)) =? 0)%nat
              || negb (size (generatingReports (ui m)) =? 0)%nat then None
      else
        Some ({| ui := ui m;
                 timers := timers m
                           ++ map (fun report => (report, selectedFormat (ui m)))
                                (availableReports (ui m));
                 inflight := inflight m |}, [])
  | TimerFires k =>
      match timers m !! k with
      | Some (report, f) =>
          Some (generateReport_send env report f
                  {| ui := ui m; timers := delete k (timers m); inflight := inflight m |})
      | None => None
      end
  | Settled k ok =>
      match inflight m !! k with
      | Some report =>
          Some ({| ui := generateReport_settle report ok (ui m);
                   timers := timers m;
                   inflight := delete k (inflight m) |}, [])
      | None => None
      end
  end.

Fixpoint run (env : option string) (m : Machine) (es : list Event)
  : option (Machine * list string) :=
  match es with
  | [] => Some (m, [])
  | e :: es' =>
      match step env m e with
      | Some (m', urls) =>
          match run env m' es' with
          | Some (m'', urls') => Some (m'', urls ++ urls')
          | None => None
          end
      | None => None
      end
  end.

(** what the component keeps true *)
Definition Inv (m : Machine) : Prop :=
  (forall key, key ∈ generatingReports (ui m) ->
     exists report, In report (inflight m) /\ reportKey report = key) /\
  List.Forall (fun report => In report (availableReports (ui m))) (inflight m) /\
  List.Forall (fun t => In (fst t) (availableReports (ui m))) (timers m) /\
  (loading (ui m) = true ->
   availableReports (ui m) = [] /\ timers m = [] /\ inflight m = []).

Definition teacher_summary : ReportOption :=
  {| type := "teacher_summary"; title := "Teacher Summary";
     description := "All classes of the teacher";
     endpoint := "/analytics/reports/teacher-summary/"; class_id := None |}.

Definition class_performance : ReportOption :=
  {| type := "class_performance"; title := "Class Performance";
     description := "One class"; endpoint := "/analytics/reports/class/4/";
     class_id := Some 4%Z |}.

End BulkReports.

(** *** [components/AssignmentCreation.tsx] *)
Module AssignmentCreation.
Local Open Scope Z_scope.

(** [interface ClassListItem] *)
Module ClassListItem.
Record t := mk {
  id : Z;
  name : string;
  teacher_name : string;
  grade_level : string;
  school_year : string;
  student_count : Z;
  is_active : bool;
  created_at : string
}.
End ClassListItem.

(** [interface StoryListItem] *)
Module StoryListItem.
Record t := mk {
  id : Z;
  title : string;
  grade_level : string;
  difficulty : StoryTypes.Difficulty;
  word_count : Z;
  estimated_reading_time : Q;
  audio_count : Z
}.
End StoryListItem.

(** [interface CreateClassAssignmentRequest], as the form keeps it *)
Record CreateClassAssignmentRequest := mkRequest {
  class_id : Z;
  story_id : Z;
  title : string;
  description : string;
  due_date : string;
  max_attempts : Z
}.

Record State := mkState {
  assignment : CreateClassAssignmentRequest;
  selectedStory : option StoryListItem.t;
  loading : bool;
  error : string;
  success : string
}.

Definition emptyAssignment : CreateClassAssignmentRequest :=
  {| class_id := 0; story_id := 0; title := EmptyString; description := EmptyString;
     due_date := EmptyString; max_attempts := 3 |}.

Definition initialState : State :=
  {| assignment := emptyAssignment; selectedStory := None; loading := false;
     error := EmptyString; success := EmptyString |}.

Definition setAssignment (a : CreateClassAssignmentRequest) (st : State) : State :=
  {| assignment := a; selectedStory := selectedStory st; loading := loading st;
     error := error st; success := success st |}.

(** the values of the options of the Max Attempts select *)
Definition attempt_options : list Z := [1; 2; 3; 5; -1].

Definition handleStorySelect (story : StoryListItem.t) (st : State) : State :=
  {| assignment :=
       {| class_id := class_id (assignment st); story_id := StoryListItem.id story;
          title := ("Reading Practice: " ++ StoryListItem.title story)%string;
          description := description (assignment st);
          due_date := due_date (assignment st);
          max_attempts := max_attempts (assignment st) |};
     selectedStory := Some story; loading := loading st;
     error := error st; success := success st |}.

(** [!assignment.class_id || !assignment.story_id || !assignment.title] *)
Definition incomplete (a : CreateClassAssignmentRequest) : bool :=
  (class_id a =? 0) || (story_id a =? 0) || String.eqb (title a) EmptyString.

(** the submit button: [disabled={loading || !class_id || !story_id || !title}] *)
Definition submit_disabled (st : State) : bool := loading st || incomplete (assignment st).

(** [handleSubmit], up to the [await]: the request it sends, if any *)
Definition handleSubmit_send (st : State) : State * list CreateClassAssignmentRequest :=
  if incomplete (assignment st) then
    ({| assignment := assignment st; selectedStory := selectedStory st;
        loading := loading st; error := "Please fill in all required fields.";
        success := success st |}, [])
  else
    ({| assignment := assignment st; selectedStory := selectedStory st;
        loading := true; error := EmptyString; success := EmptyString |},
     [assignment st]).

(** the rest of [handleSubmit]; [Some message] is the answer of the server,
    [None] a request that threw *)
Definition handleSubmit_settle (response : option string) (st : State) : State :=
  match response with
  | Some message =>
      {| assignment := emptyAssignment; selectedStory := None; loading := false;
         error := error st; success := message |}
  | None =>
      {| assignment := assignment st; selectedStory := selectedStory st; loading := false;
         error := "Failed to create assignment. Please try again.";
         success := success st |}
  end.

Inductive Event :=
| ClickClass (i : nat)
| ClickStory (j : nat)
| ChangeTitle (s : string)
| ChangeDescription (s : string)
| ChangeDueDate (s : string)
| ChangeMaxAttempts (k : nat)        (* the [k]-th option of the select *)
| Submit
| Settled (response : option string).

Record Machine := mkMachine { ui : State; inflight : nat }.

Definition mounted : Machine := {| ui := initialState; inflight := 0 |}.

Definition step (classes : list ClassListItem.t) (stories : list StoryListItem.t)
    (m : Machine) (e : Event) : option (Machine * list CreateClassAssignmentRequest) :=
  let a := assignment (ui m) in
  let keep st := Some ({| ui := st; inflight := inflight m |}, []) in
  match e with
  | ClickClass i =>
      match classes !! i with
      | Some classItem =>
          keep (setAssignment
                  {| class_id := ClassListItem.id classItem; story_id := story_id a;
                     title := title a; description := description a;
                     due_date := due_date a; max_attempts := max_attempts a |} (ui m))
      | None => None
      end
  | ClickStory j =>
      match stories !! j with
      | Some story => keep (handleStorySelect story (ui m))
      | None => None
      end
  | ChangeTitle s =>
      keep (setAssignment
              {| class_id := class_id a; story_id := story_id a; title := s;
                 description := description a; due_date := due_date a;
                 max_attempts := max_attempts a |} (ui m))
  | ChangeDescription s =>
      keep (setAssignment
              {| class_id := class_id a; story_id := story_id a; title := title a;
                 description := s; due_date := due_date a;
                 max_attempts := max_attempts a |} (ui m))
  | ChangeDueDate s =>
      keep (setAssignment
              {| class_id := class_id a; story_id := story_id a; title := title a;
                 description := description a; due_date := s;
                 max_attempts := max_attempts a |} (ui m))
  | ChangeMaxAttempts k =>
      match attempt_options !! k with
      | Some n =>
          keep (setAssignment
                  {| class_id := class_id a; story_id := story_id a; title := title a;
                     description := description a; due_date := due_date a;
                     max_attempts := n |} (ui m))
      | None => None
      end
  | Submit =>
      if submit_disabled (ui m) then None
      else
        let '(st, sent) := handleSubmit_send (ui m) in
        Some ({| ui := st; inflight := (inflight m + length sent)%nat |}, sent)
  | Settled response =>
      match inflight m with
      | O => None
      | S n => Some ({| ui := handleSubmit_settle response (ui m); inflight := n |}, [])
      end
  end.

Fixpoint run (classes : list ClassListItem.t) (stories : list StoryListItem.t)
    (m : Machine) (es : list Event)
  : option (Machine * list CreateClassAssignmentRequest) :=
  match es with
  | [] => Some (m, [])
  | e :: es' =>
      match step classes stories m e with
      | Some (m', sent) =>
          match run classes stories m' es' with
          | Some (m'', sent') => Some (m'', sent ++ sent')
          | None => None
          end
      | None => None
      end
  end.

(** the class and the story of a form are unset, or come from the lists;
    the attempts come from the select *)
Definition form_ok (classes : list ClassListItem.t) (stories : list StoryListItem.t)
    (a : CreateClassAssignmentRequest) : Prop :=
  (class_id a = 0 \/ exists c, In c classes /\ ClassListItem.id c = class_id a) /\
  (story_id a = 0 \/ exists s, In s stories /\ StoryListItem.id s = story_id a) /\
  In (max_attempts a) attempt_options.

Definition Inv (classes : list ClassListItem.t) (stories : list StoryListItem.t)
    (m : Machine) : Prop :=
  form_ok classes stories (assignment (ui m)) /\
  (inflight m <= 1)%nat /\
  loading (ui m) = (inflight m =? 1)%nat.

Definition sample_classes : list ClassListItem.t :=
  [ ClassListItem.mk 4 "Room 12" "Ms Rivera" "3" "2024-2025" 21 true "2024-09-01T08:00:00Z" ].

Definition sample_stories : list StoryListItem.t :=
  [ StoryListItem.mk 12 "The Tortoise and the Hare" "3" StoryTypes.easy 120 (60 # 1) 2 ].

End AssignmentCreation.


(** *** [contexts/AuthContext.tsx] and [components/Dashboard.tsx]

    The provider keeps the user and its [loading] flag; the token is in
    [localStorage].  The dashboard picks the screen from what the provider
    gives. *)
Module AuthProvider.

Inductive UserType := student | teacher | admin.

#[global] Instance UserType_eq_dec : EqDecision UserType.
Proof. solve_decision. Defined.

(** [interface User] *)
Module User.
Record t := mk {
  id : Z;
  username : string;
  email : string;
  first_name : string;
  last_name : string;
  user_type : UserType;
  grade_level : option string;
  school : option string;
  date_joined : string
}.
End User.

(** [interface LoginResponse] *)
Module LoginResponse.
Record t := mk { token : string; user : User.t }.
End LoginResponse.

Record State := mkState { user : option User.t; loading : bool }.

(** the state of the provider, the storage, and the requests that [logout]
    has started and that are not answered *)
Record Machine := mkMachine {
  ui : State;
  storage : gmap string string;
  logout_requests : nat
}.

Definition mounted (storage0 : gmap string string) : Machine :=
  {| ui := {| user := None; loading := true |}; storage := storage0;
     logout_requests := 0 |}.

Definition isAuthenticated (st : State) : bool :=
  match user st with Some _ => true | None => false end.

(** [user?.user_type === 'student'] *)
Definition isStudent (st : State) : bool :=
  match user st with
  | Some u => bool_decide (User.user_type u = student)
  | None => false
  end.

Definition isTeacher (st : State) : bool :=
  match user st with
  | Some u => bool_decide (User.user_type u = teacher)
  | None => false
  end.

Inductive Screen :=
| LoadingScreen
| LoginForm
| StudentDashboard
| TeacherDashboard
| NotRecognized (user_type : UserType).

(** [Dashboard] *)
Definition Dashboard (st : State) : Screen :=
  if loading st then LoadingScreen
  else
    match user st with
    | None => LoginForm
    | Some u =>
        if isStudent st then StudentDashboard
        else if isTeacher st then TeacherDashboard
        else NotRecognized (User.user_type u)
    end.

(** the screens with a Log Out button *)
Definition has_logout (s : Screen) : bool :=
  match s with
  | StudentDashboard | TeacherDashboard => true
  | _ => false
  end.

Inductive Event :=
| InitAuthDone (profile : option User.t)        (* [initAuth] has run; [getProfile] answered *)
| Login (response : option LoginResponse.t)     (* the form is sent; [authAPI.login] answered *)
| Logout
| LogoutRequestResolved.

Definition step (m : Machine) (e : Event) : option Machine :=
  match e with
  | InitAuthDone profile =>
      if loading (ui m) then
        Some {| ui := {| user := if JS.truthy (Auth.getItem "authToken" (storage m))
                                 then match profile with
                                      | Some u => Some u
                                      | None => user (ui m)
                                      end
                                 else user (ui m);
                         loading := false |};
                storage := Auth.initAuth
                             (match profile with Some _ => true | None => false end)
                             (storage m);
                logout_requests := logout_requests m |}
      else None
  | Login response =>
      match Dashboard (ui m) with
      | LoginForm =>
          Some {| ui := {| user := match response with
                                   | Some r => Some (LoginResponse.user r)
                                   | None => user (ui m)
                                   end;
                           loading := loading (ui m) |};
                  storage := Auth.login (option_map LoginResponse.token response) (storage m);
                  logout_requests := logout_requests m |}
      | _ => None
      end
  | Logout =>
      if has_logout (Dashboard (ui m)) then
        Some {| ui := {| user := None; loading := loading (ui m) |};
                storage := Auth.logout (storage m);
                logout_requests := S (logout_requests m) |}
      else None
  | LogoutRequestResolved =>
      match logout_requests m with
      | O => None
      | S n =>
          Some {| ui := ui m;
                  storage := Auth.authAPI_logout_resolved (storage m);
                  logout_requests := n |}
      end
  end.

Fixpoint run (m : Machine) (es : list Event) : option Machine :=
  match es with
  | [] => Some m
  | e :: es' =>
      match step m e with
      | Some m' => run m' es'
      | None => None
      end
  end.

(** no login of the run is answered with a token *)
Definition no_login (es : list Event) : bool :=
  forallb (fun e => match e with Login (Some _) => false | _ => true end) es.

(** nobody is signed in and no token is kept *)
Definition signed_out (m : Machine) : Prop :=
  user (ui m) = None /\ loading (ui m) = false /\ storage m !! "authToken" = None.

Definition pupil : User.t :=
  User.mk 3 "student1" "student1@example.org" "Ada" "Byron" student (Some "3") None
    "2024-01-02T08:00:00Z".

Definition administrator : User.t :=
  User.mk 1 "root" "root@example.org" "Grace" "Hopper" admin None None
    "2024-01-01T08:00:00Z".

End AuthProvider.

(** *** [components/AdvancedAnalytics.tsx]: the flags view *)
Module FlagsView.

(** [interface StudentFlag] *)
Record StudentFlag := mkStudentFlag {
  id : Z;
  student_name : string;
  student_username : string;
  flag_type : string;
  flag_type_display : string;
  severity : string;
  severity_display : string;
  description : string;
  is_resolved : bool;
  created_at : string
}.

(** the heading: Student Flags ([flags.length]) *)
Definition heading_count (flags : list StudentFlag) : nat := length flags.

(** the navigation button: Flags ([flags.filter(f => !f.is_resolved).length]) *)
Definition nav_count (flags : list StudentFlag) : nat :=
  length (List.filter (fun f => negb (is_resolved f)) flags).

(** [flags.length === 0]: the empty state takes the place of the grid *)
Definition empty_state (flags : list StudentFlag) : bool := (length flags =? 0)%nat.

(** the cards of the grid *)
Definition cards (flags : list StudentFlag) : list StudentFlag :=
  if empty_state flags then []
  else List.filter (fun flag => negb (is_resolved flag)) flags.

End FlagsView.


(** *** JavaScript sets

    A [Set] keeps its elements without repetition, in the order in which
    they were added. *)
Module JSSet.
Section Ops.
Context {A : Type} `{EqDecision A}.

Definition has (x : A) (s : list A) : bool := existsb (fun y => bool_decide (y = x)) s.

Definition add (x : A) (s : list A) : list A := if has x s then s else s ++ [x].

Definition delete (x : A) (s : list A) : list A :=
  List.filter (fun y => negb (bool_decide (y = x))) s.

(** [new Set(array)] *)
Definition from (l : list A) : list A := fold_left (fun s x => add x s) l [].

Definition size (s : list A) : nat := length s.

End Ops.
End JSSet.

(** *** [components/BulkAudioGeneration.tsx]

    The selection of stories and voices and the jobs made from it.  The
    simulated progress of a job, which draws random numbers and changes
    only the progress, the completed files and the status of a job, is
    left out; so are the two dates of a job. *)
Module BulkAudioGeneration.
Import AssignmentCreation.

Inductive JobStatus := pending | processing | completed | failed.

Module Job.
Record t := mk {
  id : string;
  stories : list StoryListItem.t;
  voiceTypes : list string;
  status : JobStatus;
  progress : Q;
  totalFiles : nat;
  completedFiles : nat
}.
End Job.

Module Voice.
Record t := mk { id : string; name : string; description : string }.
End Voice.

Definition availableVoices : list Voice.t :=
  [ Voice.mk "female_1" "Female Voice 1" "Clear, professional female voice";
    Voice.mk "female_2" "Female Voice 2" "Warm, storytelling female voice";
    Voice.mk "male_1" "Male Voice 1" "Deep, authoritative male voice";
    Voice.mk "male_2" "Male Voice 2" "Friendly, conversational male voice" ].

Record State := mkState {
  stories : list StoryListItem.t;
  selectedStories : list Z;
  selectedVoices : list string;
  loading : bool;
  error : string;
  generationJobs : list Job.t;
  isGenerating : bool
}.

Definition initialState : State :=
  {| stories := []; selectedStories := []; selectedVoices := JSSet.from ["female_1"];
     loading := true; error := EmptyString; generationJobs := [];
     isGenerating := false |}.

(** [loadStories], once the request is answered ([None]: it threw) *)
Definition loadStories (response : option (list StoryListItem.t)) (st : State) : State :=
  {| stories := match response with Some results => results | None => stories st end;
     selectedStories := selectedStories st; selectedVoices := selectedVoices st;
     loading := false;
     error := match response with Some _ => error st | None => "Failed to load stories." end;
     generationJobs := generationJobs st; isGenerating := isGenerating st |}.

Definition setSelectedStories (s : list Z) (st : State) : State :=
  {| stories := stories st; selectedStories := s; selectedVoices := selectedVoices st;
     loading := loading st; error := error st; generationJobs := generationJobs st;
     isGenerating := isGenerating st |}.

Definition setSelectedVoices (s : list string) (st : State) : State :=
  {| stories := stories st; selectedStories := selectedStories st; selectedVoices := s;
     loading := loading st; error := error st; generationJobs := generationJobs st;
     isGenerating := isGenerating st |}.

Definition handleStorySelect (storyId : Z) (st : State) : State :=
  setSelectedStories
    (if JSSet.has storyId (selectedStories st) then JSSet.delete storyId (selectedStories st)
     else JSSet.add storyId (selectedStories st)) st.

Definition handleVoiceSelect (voiceId : string) (st : State) : State :=
  setSelectedVoices
    (if JSSet.has voiceId (selectedVoices st) then JSSet.delete voiceId (selectedVoices st)
     else JSSet.add voiceId (selectedVoices st)) st.

Definition handleSelectAllStories (st : State) : State :=
  setSelectedStories
    (if (JSSet.size (selectedStories st) =? length (stories st))%nat then []
     else JSSet.from (map StoryListItem.id (stories st))) st.

Definition handleSelectAllVoices (st : State) : State :=
  setSelectedVoices
    (if (JSSet.size (selectedVoices st) =? length availableVoices)%nat then []
     else JSSet.from (map Voice.id availableVoices)) st.

Definition getSelectedStoriesData (st : State) : list StoryListItem.t :=
  List.filter (fun story => JSSet.has (StoryListItem.id story) (selectedStories st))
    (stories st).

Definition calculateTotalFiles (st : State) : nat :=
  (JSSet.size (selectedStories st) * JSSet.size (selectedVoices st))%nat.

(** the text of the estimate, at thirty seconds for a file *)
Definition estimateGenerationTime (st : State) : string :=
  let estimatedSeconds := (calculateTotalFiles st * 30)%nat in
  let hours := (estimatedSeconds / 3600)%nat in
  let minutes := ((estimatedSeconds mod 3600) / 60)%nat in
  if (0 <? hours)%nat then
    (JSNumber.toString (Z.of_nat hours) ++ "h "
       ++ JSNumber.toString (Z.of_nat minutes) ++ "m")%string
  else (JSNumber.toString (Z.of_nat minutes) ++ "m")%string.

(** [handleStartGeneration] at the time [now]; [isGenerating] is set and
    reset within the handler *)
Definition handleStartGeneration (now : Z) (st : State) : State :=
  if (JSSet.size (selectedStories st) =? 0)%nat || (JSSet.size (selectedVoices st) =? 0)%nat
  then
    {| stories := stories st; selectedStories := selectedStories st;
       selectedVoices := selectedVoices st; loading := loading st;
       error := "Please select at least one story and one voice type.";
       generationJobs := generationJobs st; isGenerating := isGenerating st |}
  else
    {| stories := stories st; selectedStories := [];
       selectedVoices := JSSet.from ["female_1"]; loading := loading st;
       error := EmptyString;
       generationJobs :=
         {| Job.id := JSNumber.toString now;
            Job.stories := getSelectedStoriesData st;
            Job.voiceTypes := selectedVoices st;
            Job.status := pending;
            Job.progress := 0;
            Job.totalFiles := calculateTotalFiles st;
            Job.completedFiles := 0 |} :: generationJobs st;
       isGenerating := false |}.

(** the summary with the start button is on screen *)
Definition summary_shown (st : State) : bool :=
  (0 <? JSSet.size (selectedStories st))%nat || (0 <? JSSet.size (selectedVoices st))%nat.

Definition start_disabled (st : State) : bool :=
  isGenerating st || (JSSet.size (selectedStories st) =? 0)%nat
  || (JSSet.size (selectedVoices st) =? 0)%nat.

Inductive Event :=
| StoriesLoaded (response : option (list StoryListItem.t))
| ClickStory (i : nat)
| ClickVoice (j : nat)
| ClickSelectAllStories
| ClickSelectAllVoices
| ClickStart (now : Z).

Definition step (st : State) (e : Event) : option State :=
  match e with
  | StoriesLoaded response => if loading st then Some (loadStories response st) else None
  | ClickStory i =>
      if loading st then None
      else match stories st !! i with
           | Some story => Some (handleStorySelect (StoryListItem.id story) st)
           | None => None
           end
  | ClickVoice j =>
      if loading st then None
      else match availableVoices !! j with
           | Some voice => Some (handleVoiceSelect (Voice.id voice) st)
           | None => None
           end
  | ClickSelectAllStories => if loading st then None else Some (handleSelectAllStories st)
  | ClickSelectAllVoices => if loading st then None else Some (handleSelectAllVoices st)
  | ClickStart now =>
      if loading st then None
      else if summary_shown st && negb (start_disabled st)
           then Some (handleStartGeneration now st) else None
  end.

Fixpoint run (st : State) (es : list Event) : option State :=
  match es with
  | [] => Some st
  | e :: es' =>
      match step st e with
      | Some st' => run st' es'
      | None => None
      end
  end.

(** what holds of a job made from the stories [loaded] *)
Definition job_ok (loaded : list StoryListItem.t) (job : Job.t) : Prop :=
  Job.voiceTypes job <> [] /\
  List.NoDup (Job.voiceTypes job) /\
  (forall v, In v (Job.voiceTypes job) -> In v (map Voice.id availableVoices)) /\
  Job.stories job <> [] /\
  (forall s, In s (Job.stories job) -> In s loaded) /\
  (1 <= Job.totalFiles job)%nat /\
  (Job.totalFiles job <= length (Job.stories job) * length (Job.voiceTypes job))%nat /\
  (List.NoDup (map StoryListItem.id loaded) ->
   Job.totalFiles job = (length (Job.stories job) * length (Job.voiceTypes job))%nat).

Definition Inv (st : State) : Prop :=
  List.NoDup (selectedStories st) /\
  (forall i, In i (selectedStories st) -> In i (map StoryListItem.id (stories st))) /\
  List.NoDup (selectedVoices st) /\
  (forall v, In v (selectedVoices st) -> In v (map Voice.id availableVoices)) /\
  List.Forall (job_ok (stories st)) (generationJobs st) /\
  (loading st = true ->
   stories st = [] /\ selectedStories st = [] /\ generationJobs st = []) /\
  isGenerating st = false.

Definition two_stories : list StoryListItem.t :=
  [ StoryListItem.mk 12 "The Tortoise and the Hare" "3" StoryTypes.easy 120 (60 # 1) 2;
    StoryListItem.mk 15 "The Fox and the Grapes" "3" StoryTypes.medium 150 (75 # 1) 0 ].

End BulkAudioGeneration.

(** *** [components/TeacherAnalytics.tsx], the counts *)
Module TeacherAnalytics.
Import Types RecordingReviewComponent.

Record GradeDistribution := mkGradeDistribution {
  excellent_count : nat;
  good_count : nat;
  needs_practice_count : nat
}.

(** the counts that [loadAnalyticsData] stores, and the recent activity *)
Definition totalRecordings (recordings : list Recording.t) : nat := length recordings.

Definition pendingReviews (recordings : list Recording.t) : nat :=
  length (List.filter (has_status pending) recordings).

Definition completedReviews (recordings : list Recording.t) : nat :=
  length (List.filter (has_status reviewed) recordings).

(** [recordings.slice(0, 5)] *)
Definition recentActivity (recordings : list Recording.t) : list Recording.t :=
  take 5 recordings.

(** one pass of the [forEach] of [getGradeDistribution] *)
Definition count_grade (d : GradeDistribution) (recording : Recording.t) : GradeDistribution :=
  match Recording.grade recording with
  | Some g =>
      if String.eqb g "excellent" then
        {| excellent_count := S (excellent_count d); good_count := good_count d;
           needs_practice_count := needs_practice_count d |}
      else if String.eqb g "good" then
        {| excellent_count := excellent_count d; good_count := S (good_count d);
           needs_practice_count := needs_practice_count d |}
      else if String.eqb g "needs_practice" then
        {| excellent_count := excellent_count d; good_count := good_count d;
           needs_practice_count := S (needs_practice_count d) |}
      else d
  | None => d
  end.

Definition getGradeDistribution (recordings : list Recording.t) : GradeDistribution :=
  fold_left count_grade
    (List.filter (has_status reviewed) (recentActivity recordings))
    {| excellent_count := 0; good_count := 0; needs_practice_count := 0 |}.

Definition graded_total (d : GradeDistribution) : nat :=
  (excellent_count d + good_count d + needs_practice_count d)%nat.

End TeacherAnalytics.


(** ** Part II: properties *)

(** *** Strings *)
Section JSFacts.
Import JS.

Lemma startsWith_spec s pat :
  startsWith s pat = true <-> exists post, s = (pat ++ post)%string.
Proof.
  revert s; induction pat as [|p pat IH]; intros s; simpl.
  - split; [intros _; exists s; reflexivity | destruct s; reflexivity].
  - destruct s as [|c s]; simpl.
    + split; [discriminate | intros [post H]; discriminate].
    + rewrite andb_true_iff, IH. split.
      * intros [Hc [post ->]]. apply Ascii.eqb_eq in Hc. subst. eauto.
      * intros [post H]. injection H as -> ->. split; [apply Ascii.eqb_refl | eauto].
Qed.

Lemma includes_spec s pat : includes s pat = true <-> occurs_in pat s.
Proof.
  unfold occurs_in. induction s as [|c s IH]; cbn [includes].
  - rewrite orb_false_r, startsWith_spec. split.
    + intros [post H]. exists EmptyString, post. exact H.
    + intros [pre [post H]]. destruct pre; simpl in H; [eauto | discriminate].
  - rewrite orb_true_iff, startsWith_spec, IH. split.
    + intros [[post H] | [pre [post H]]].
      * exists EmptyString, post. exact H.
      * exists (String c pre), post. rewrite H. reflexivity.
    + intros [pre [post H]]. destruct pre as [|c' pre]; simpl in H.
      * left. eauto.
      * right. injection H as _ H. eauto.
Qed.

Lemma endsWith_spec s pat :
  endsWith s pat = true <-> exists pre, s = (pre ++ pat)%string.
Proof.
  induction s as [|c s IH]; cbn [endsWith].
  - rewrite orb_false_r, String.eqb_eq. split.
    + intros <-. exists EmptyString. reflexivity.
    + intros [pre H]. destruct pre; simpl in H; [auto | discriminate].
  - rewrite orb_true_iff, String.eqb_eq, IH. split.
    + intros [<- | [pre ->]]; [exists EmptyString; reflexivity | exists (String c pre); reflexivity].
    + intros [pre H]. destruct pre as [|c' pre]; simpl in H.
      * left. exact H.
      * right. injection H as _ H. eauto.
Qed.

Lemma test_class_spec cls s :
  test_class cls s = true <-> exists c, In c (chars s) /\ cls c = true.
Proof. unfold test_class. apply existsb_exists. Qed.

Lemma range_spec lo hi c :
  ((lo <=? code c)%nat && (code c <=? hi)%nat = true) <-> (lo <= code c <= hi)%nat.
Proof. rewrite andb_true_iff, !Nat.leb_le. reflexivity. Qed.

End JSFacts.

(** *** validatePassword *)
Section PasswordFacts.
Import SecurityUtils PasswordRules.

Lemma satisfied_spec p r : violated p r = false <-> satisfies p r.
Proof.
  assert (Hcls : forall cls (P : ascii -> Prop),
             (forall c, cls c = true <-> P c) ->
             negb (JS.test_class cls p) = false <-> has_char P p).
  { intros cls P HP. rewrite negb_false_iff, test_class_spec.
    unfold has_char. split; intros [c [Hin Hc]]; exists c; split; auto;
      apply HP; assumption. }
  destruct r; cbn [violated satisfies].
  - rewrite Nat.ltb_ge. reflexivity.
  - apply Hcls. intros c. apply (range_spec 65 90).
  - apply Hcls. intros c. apply (range_spec 97 122).
  - apply Hcls. intros c. apply (range_spec 48 57).
  - apply Hcls. intros c. unfold is_special. rewrite existsb_exists. split.
    + intros [x [Hin Hx]]. apply Ascii.eqb_eq in Hx. subst. assumption.
    + intros Hin. exists c. split; [assumption | apply Ascii.eqb_refl].
  - rewrite <- not_true_iff_false, existsb_exists. split.
    + intros H pat Hin Hocc. apply H. exists pat. split; [assumption|].
      apply includes_spec, Hocc.
    + intros H [pat [Hin Hinc]]. apply (H pat Hin). apply includes_spec, Hinc.
Qed.

Lemma violated_spec p r : violated p r = true <-> ~ satisfies p r.
Proof.
  rewrite <- satisfied_spec. destruct (violated p r); split; congruence.
Qed.

Lemma validatePassword_errors p :
  errors (validatePassword p) = map rule_message (List.filter (violated p) all_rules).
Proof.
  unfold validatePassword, all_rules. cbn [errors List.filter violated].
  destruct (String.length p <? 8)%nat,
    (negb (JS.test_class JS.is_upper p)),
    (negb (JS.test_class JS.is_lower p)),
    (negb (JS.test_class JS.is_digit p)),
    (negb (JS.test_class is_special p)),
    (existsb (fun pattern => JS.includes (JS.toLowerCase p) pattern) commonPatterns);
    reflexivity.
Qed.

Lemma validatePassword_isValid p :
  isValid (validatePassword p) = true <-> errors (validatePassword p) = [].
Proof.
  unfold validatePassword. simpl. rewrite Nat.eqb_eq. apply length_zero_iff_nil.
Qed.

End PasswordFacts.

Section PasswordTheorem.
Import SecurityUtils PasswordRules.

Lemma all_rules_complete r : In r all_rules.
Proof. destruct r; simpl; tauto. Qed.

Lemma all_rules_nodup : List.NoDup all_rules.
Proof. repeat constructor; simpl; intuition discriminate. Qed.


Example validatePassword_accepts :
  validatePassword "Tortoise&Hare7" = {| isValid := true; errors := [] |}.
Proof. reflexivity. Qed.

Example validatePassword_rejects :
  validatePassword "password" =
    {| isValid := false;
       errors := [msg_upper; msg_digit; msg_special; msg_common] |}.
Proof. reflexivity. Qed.

End PasswordTheorem.

(** *** validateFileUpload *)
Section UploadFacts.
Import SecurityUtils UploadRules.

Lemma too_large_spec f o :
  too_large f o = true <-> (ceiling_bytes o < inject_Z (size f))%Q.
Proof.
  unfold too_large, ceiling_bytes. rewrite negb_true_iff, <- not_true_iff_false, Qle_bool_iff.
  split; [apply Qnot_le_lt | apply Qlt_not_le].
Qed.

Lemma too_large_false f o :
  too_large f o = false <-> (inject_Z (size f) <= ceiling_bytes o)%Q.
Proof. unfold too_large, ceiling_bytes. rewrite negb_false_iff. apply Qle_bool_iff. Qed.

Lemma list_includes_spec l x : list_includes l x = true <-> In x l.
Proof.
  unfold list_includes. rewrite existsb_exists. split.
  - intros [y [Hin Hy]]. apply String.eqb_eq in Hy. subst. exact Hin.
  - intros Hin. exists x. split; [exact Hin | apply String.eqb_refl].
Qed.

Lemma type_not_listed_false f o :
  type_not_listed f o = false <->
  effective_allowedTypes o = [] \/ extension_allowed f (effective_allowedTypes o).
Proof.
  unfold type_not_listed, extension_allowed, str_falsy.
  destruct (effective_allowedTypes o) as [|a l] eqn:E.
  - simpl. split; [left; reflexivity | reflexivity].
  - cbn [length Nat.ltb Nat.leb andb]. rewrite orb_false_iff, negb_false_iff.
    rewrite list_includes_spec, <- not_true_iff_false, String.eqb_eq. split.
    + intros H. right. exact H.
    + intros [H | H]; [discriminate | exact H].
Qed.

Lemma type_not_listed_true f o :
  effective_allowedTypes o <> [] ->
  ~ In (fileExtension f) (effective_allowedTypes o) ->
  type_not_listed f o = true.
Proof.
  intros Hne Hnot. destruct (type_not_listed f o) eqn:E; [reflexivity|].
  apply type_not_listed_false in E. destruct E as [E | [_ E]]; contradiction.
Qed.

Lemma dangerousPatterns_spec n :
  dangerousPatterns_test n = true <-> dangerous_name n.
Proof.
  unfold dangerousPatterns_test, dangerous_name. rewrite existsb_exists. split.
  - intros [ext [Hin H]]. apply endsWith_spec in H. destruct H as [stem H]. eauto.
  - intros [stem [ext [Hin H]]]. exists ext. split; [exact Hin|].
    apply endsWith_spec. eauto.
Qed.

(** the three checks are independent: each pushes its own error or nothing *)
Lemma validateFileUpload_errors f o :
  uploadErrors (validateFileUpload f o) =
    (if too_large f o then [FileTooLarge (effective_maxSize o)] else []) ++
    (if type_not_listed f o then [FileTypeNotListed (effective_allowedTypes o)] else []) ++
    (if dangerousPatterns_test (name f) then [DangerousFileName] else []).
Proof.
  unfold validateFileUpload, push_err. cbn [uploadErrors].
  destruct (too_large f o), (type_not_listed f o), (dangerousPatterns_test (name f));
    reflexivity.
Qed.

Lemma validateFileUpload_valid f o :
  uploadValid (validateFileUpload f o) = true <->
  too_large f o = false /\ type_not_listed f o = false /\
  dangerousPatterns_test (name f) = false.
Proof.
  unfold validateFileUpload, push_err. cbn [uploadValid].
  destruct (too_large f o), (type_not_listed f o), (dangerousPatterns_test (name f));
    cbn; intuition discriminate.
Qed.

Lemma has_lower_case_spec c :
  JS.has_lower_case c = true <->
  (65 <= nat_of_ascii c <= 90 \/ 192 <= nat_of_ascii c <= 214 \/
   216 <= nat_of_ascii c <= 222)%nat.
Proof.
  unfold JS.has_lower_case, JS.is_upper, JS.code.
  rewrite !orb_true_iff, !andb_true_iff, !Nat.leb_le. tauto.
Qed.

Lemma code_below c : (nat_of_ascii c < 256)%nat.
Proof. apply nat_ascii_bounded. Qed.

Lemma lower_char_lowers c : lowers_to c (JS.lower_char c).
Proof.
  unfold lowers_to, JS.lower_char. cbv zeta.
  destruct (JS.has_lower_case c) eqn:E.
  - apply has_lower_case_spec in E. left. split; [exact E|].
    unfold JS.code. apply nat_ascii_embedding. lia.
  - right. split; [|reflexivity]. intros H. apply has_lower_case_spec in H. congruence.
Qed.

Lemma lowers_to_lower_char c d : lowers_to c d -> d = JS.lower_char c.
Proof.
  unfold lowers_to, JS.lower_char. cbv zeta. intros [[Hr Hd] | [Hr ->]].
  - rewrite (proj2 (has_lower_case_spec c) Hr). unfold JS.code.
    rewrite <- Hd. symmetry. apply ascii_nat_embedding.
  - destruct (JS.has_lower_case c) eqn:E; [|reflexivity].
    apply has_lower_case_spec in E. contradiction.
Qed.

Lemma lowered_toLowerCase s t : lowered s t <-> t = JS.toLowerCase s.
Proof.
  unfold lowered, JS.chars. revert t. induction s as [|c s IH]; intros t.
  - cbn. split.
    + intros H. inversion H as [Ht|]. destruct t; [reflexivity | discriminate].
    + intros ->. constructor.
  - cbn [list_ascii_of_string JS.toLowerCase]. split.
    + intros H. destruct t as [|d t]; cbn in H; inversion H as [|? ? ? ? Hc Hs]; subst.
      apply lowers_to_lower_char in Hc. apply IH in Hs. congruence.
    + intros ->. cbn. constructor; [apply lower_char_lowers | apply IH; reflexivity].
Qed.

Lemma toLowerCase_app a b :
  JS.toLowerCase (a ++ b) = (JS.toLowerCase a ++ JS.toLowerCase b)%string.
Proof.
  induction a as [|c a IH]; [reflexivity|].
  change (String (JS.lower_char c) (JS.toLowerCase (a ++ b))
          = String (JS.lower_char c) (JS.toLowerCase a ++ JS.toLowerCase b)%string).
  rewrite IH. reflexivity.
Qed.

Lemma toLowerCase_split a : forall n b,
  JS.toLowerCase n = (a ++ b)%string ->
  exists n1 n2, n = (n1 ++ n2)%string /\ JS.toLowerCase n1 = a /\ JS.toLowerCase n2 = b.
Proof.
  induction a as [|c a IH]; intros n b H.
  - exists EmptyString, n. auto.
  - destruct n as [|d n]; [discriminate|].
    change (String (JS.lower_char d) (JS.toLowerCase n) = String c (a ++ b)%string) in H.
    injection H as Hc H. destruct (IH _ _ H) as (n1 & n2 & -> & H1 & H2).
    exists (String d n1), n2. split; [reflexivity|]. split; [|exact H2].
    cbn [JS.toLowerCase]. rewrite Hc, H1. reflexivity.
Qed.

Lemma lower_char_dot c : JS.lower_char c = "."%char -> c = "."%char.
Proof.
  unfold JS.lower_char. destruct (JS.has_lower_case c) eqn:E; [|auto].
  apply has_lower_case_spec in E. intros H.
  apply (f_equal nat_of_ascii) in H. unfold JS.code in H.
  rewrite nat_ascii_embedding in H by lia.
  change (nat_of_ascii ".") with 46%nat in H. lia.
Qed.

Lemma dangerous_name_ending n : dangerous_name n <-> dangerous_ending n.
Proof.
  unfold dangerous_name, dangerous_ending. split.
  - intros (stem & ext & Hin & H).
    apply toLowerCase_split in H as (n1 & n2 & -> & H1 & H2).
    destruct n2 as [|c tail]; [discriminate|].
    change (String (JS.lower_char c) (JS.toLowerCase tail) = String "." ext) in H2.
    injection H2 as Hc Ht. apply lower_char_dot in Hc. subst c.
    exists n1, tail, ext. split; [reflexivity|].
    split; [apply lowered_toLowerCase; symmetry; exact Ht | exact Hin].
  - intros (stem & tail & ext & -> & Hl & Hin).
    apply lowered_toLowerCase in Hl. subst ext.
    exists (JS.toLowerCase stem), (JS.toLowerCase tail). split; [exact Hin|].
    rewrite toLowerCase_app. reflexivity.
Qed.

Lemma split_dot_pop_aux_spec s : forall acc,
  (~ In "."%char (JS.chars s) -> JS.split_dot_pop_aux acc s = acc) /\
  (forall stem ext, s = (stem ++ "." ++ ext)%string -> ~ In "."%char (JS.chars ext) ->
                    JS.split_dot_pop_aux acc s = ext).
Proof.
  induction s as [|c s IH]; intros acc.
  - split; [reflexivity|]. intros stem ext H. destruct stem; discriminate.
  - cbn [JS.split_dot_pop_aux]. destruct (Ascii.eqb_spec c ".") as [->|Hc].
    + split; [intros H; exfalso; apply H; left; reflexivity|].
      intros stem ext H Hfree. destruct stem as [|d stem].
      * change (String "." s = String "." ext) in H. injection H as ->.
        apply (proj1 (IH ext) Hfree).
      * change (String "." s = String d (stem ++ "." ++ ext)%string) in H.
        injection H as _ ->. apply (proj2 (IH _) stem ext eq_refl Hfree).
    + split.
      * intros H. apply (proj1 (IH acc)). intros Hin. apply H. right. exact Hin.
      * intros stem ext H Hfree. destruct stem as [|d stem].
        -- change (String c s = String "." ext) in H. injection H as -> _. contradiction.
        -- change (String c s = String d (stem ++ "." ++ ext)%string) in H.
           injection H as _ ->. apply (proj2 (IH _) stem ext eq_refl Hfree).
Qed.

Lemma last_dot s :
  ~ In "."%char (JS.chars s) \/
  exists stem ext, s = (stem ++ "." ++ ext)%string /\ ~ In "."%char (JS.chars ext).
Proof.
  induction s as [|c s IH]; [left; intros []|].
  destruct IH as [Hfree | (stem & ext & -> & Hfree)].
  - destruct (Ascii.eqb_spec c ".") as [->|Hc].
    + right. exists EmptyString, s. auto.
    + left. intros [H|H]; [congruence | contradiction].
  - right. exists (String c stem), ext. auto.
Qed.

Lemma is_extension_split_dot_pop n ext :
  is_extension n ext <-> ext = JS.split_dot_pop n.
Proof.
  unfold is_extension, JS.split_dot_pop. split.
  - intros [Hfree [-> | [stem ->]]].
    + symmetry. apply (proj1 (split_dot_pop_aux_spec ext ext) Hfree).
    + symmetry. apply (proj2 (split_dot_pop_aux_spec _ _) stem ext eq_refl Hfree).
  - intros ->. destruct (last_dot n) as [Hfree | (stem & ext & -> & Hfree)].
    + rewrite (proj1 (split_dot_pop_aux_spec n n) Hfree). auto.
    + rewrite (proj2 (split_dot_pop_aux_spec _ _) stem ext eq_refl Hfree). eauto.
Qed.

(** the lowered extension of a name is what the function looks up *)
Lemma fileExtension_spec f ext low :
  is_extension (name f) ext -> lowered ext low -> low = fileExtension f.
Proof.
  intros He Hl. apply is_extension_split_dot_pop in He. apply lowered_toLowerCase in Hl.
  subst. reflexivity.
Qed.

Lemma fileExtension_exists f :
  exists ext, is_extension (name f) ext /\ lowered ext (fileExtension f).
Proof.
  exists (JS.split_dot_pop (name f)).
  split; [apply is_extension_split_dot_pop | apply lowered_toLowerCase]; reflexivity.
Qed.

(** C5.  An upload larger than the ceiling ([maxSize] megabytes, 10 when no
    ceiling or the ceiling 0 is given) is rejected with the size error;
    when an allowed list is configured, an upload whose extension (the text
    after the last dot of the name, the whole name when it has no dot, in
    lower case) is empty or not in the list is rejected with the type
    error; and [validateFileUpload] answers [isValid = true] exactly when
    the size is within the ceiling, the extension is in the allowed list
    (if one is configured) and the file name does not end, in whatever
    case, in a dot and a dangerous extension. *)
Theorem validateFileUpload_characterisation (f : File) (o : UploadOptions) :
  let r := validateFileUpload f o in
  let ceiling : Q :=
    match maxSize o with
    | Some q => if Qeq_bool q 0 then 10%Q else q
    | None => 10%Q
    end in
  let allowed : list string :=
    match allowedTypes o with
    | Some l => l
    | None => []
    end in
  ((ceiling * 1024 * 1024 < inject_Z (size f))%Q ->
     uploadValid r = false /\ In (FileTooLarge ceiling) (uploadErrors r)) /\
  (allowed <> [] ->
   forall ext low, is_extension (name f) ext -> lowered ext low ->
     low = EmptyString \/ ~ In low allowed ->
     uploadValid r = false /\ In (FileTypeNotListed allowed) (uploadErrors r)) /\
  (uploadValid r = true <->
     (inject_Z (size f) <= ceiling * 1024 * 1024)%Q /\
     (allowed = [] \/
      exists ext low, is_extension (name f) ext /\ lowered ext low /\
                      low <> EmptyString /\ In low allowed) /\
     ~ dangerous_ending (name f)) /\
  (forall e, In e (uploadErrors r) ->
     e = FileTooLarge ceiling \/ e = FileTypeNotListed allowed \/ e = DangerousFileName).
Proof.
  cbv zeta.
  assert (Hc : match maxSize o with
               | Some q => if Qeq_bool q 0 then 10%Q else q
               | None => 10%Q
               end = effective_maxSize o).
  { unfold effective_maxSize, Qnonzero. destruct (maxSize o) as [q|]; [|reflexivity].
    destruct (Qeq_bool q 0); reflexivity. }
  rewrite Hc. change (match allowedTypes o with Some l => l | None => [] end)
    with (effective_allowedTypes o).
  change (effective_maxSize o * 1024 * 1024)%Q with (ceiling_bytes o).
  split; [|split; [|split]].
  - intros H. apply too_large_spec in H. split.
    + destruct (uploadValid (validateFileUpload f o)) eqn:E; [|reflexivity].
      apply validateFileUpload_valid in E. destruct E as [E _]. congruence.
    + rewrite validateFileUpload_errors, H. left. reflexivity.
  - intros Hne ext low He Hl Hbad.
    rewrite (fileExtension_spec f ext low He Hl) in Hbad.
    assert (H : type_not_listed f o = true).
    { destruct (type_not_listed f o) eqn:E; [reflexivity|].
      apply type_not_listed_false in E. destruct E as [E | [E1 E2]]; [contradiction|].
      destruct Hbad; contradiction. }
    split.
    + destruct (uploadValid (validateFileUpload f o)) eqn:E; [|reflexivity].
      apply validateFileUpload_valid in E. destruct E as (_ & E & _). congruence.
    + rewrite validateFileUpload_errors, H. apply in_or_app. right. left. reflexivity.
  - rewrite validateFileUpload_valid, too_large_false, type_not_listed_false.
    rewrite <- dangerous_name_ending, <- dangerousPatterns_spec, not_true_iff_false.
    unfold extension_allowed. split.
    + intros (H1 & H2 & H3). split; [exact H1|]. split; [|exact H3].
      destruct H2 as [H2 | [H2 H2']]; [left; exact H2 | right].
      destruct (fileExtension_exists f) as (ext & He & Hl).
      exists ext, (fileExtension f). auto.
    + intros (H1 & H2 & H3). split; [exact H1|]. split; [|exact H3].
      destruct H2 as [H2 | (ext & low & He & Hl & Hne & Hin)]; [left; exact H2 | right].
      rewrite (fileExtension_spec f ext low He Hl) in Hne, Hin. auto.
  - intros e. rewrite validateFileUpload_errors.
    destruct (too_large f o), (type_not_listed f o), (dangerousPatterns_test (name f));
      cbn; intuition congruence.
Qed.

Example validateFileUpload_accepts :
  validateFileUpload (mkFile "reading.WAV" 480000) (mkOptions None (Some ["wav"; "webm"]))
  = {| uploadValid := true; uploadErrors := [] |}.
Proof. reflexivity. Qed.

Example validateFileUpload_rejects :
  validateFileUpload (mkFile "notes.v2.ExE" 11000000) (mkOptions (Some 0%Q) (Some ["wav"]))
  = {| uploadValid := false;
       uploadErrors := [FileTooLarge 10%Q; FileTypeNotListed ["wav"]; DangerousFileName] |}.
Proof. reflexivity. Qed.

(** a capital letter of Latin-1 in the extension is lowered as well: the
    name ends in code unit 201, the list allows code unit 233 *)
Example validateFileUpload_latin1 :
  validateFileUpload (mkFile ("a." ++ String (ascii_of_nat 201) EmptyString) 480000)
    (mkOptions None (Some [String (ascii_of_nat 233) EmptyString]))
  = {| uploadValid := true; uploadErrors := [] |}.
Proof. reflexivity. Qed.

End UploadFacts.

(** *** createRateLimiter *)
Section LimiterFacts.
Import APISecurityUtils LimiterRules.
Local Open Scope Z_scope.

Variables maxRequests timeWindow : Z.

Local Abbreviation call := (limiter_call maxRequests timeWindow).
Local Abbreviation run := (limiter_run maxRequests timeWindow).
Local Abbreviation state := (limiter_state maxRequests timeWindow).

Lemma limiter_run_app rs xs ys :
  run rs (xs ++ ys) = run rs xs ++ run (state rs xs) ys.
Proof.
  revert rs; induction xs as [|x xs IH]; intros rs; [reflexivity|].
  cbn [app limiter_run limiter_state]. destruct (call x rs) as [ok rs'] eqn:E.
  cbn [snd app]. rewrite IH. reflexivity.
Qed.

Lemma limiter_state_app rs xs ys :
  state rs (xs ++ ys) = state (state rs xs) ys.
Proof.
  revert rs; induction xs as [|x xs IH]; intros rs; [reflexivity|].
  cbn [app limiter_state]. apply IH.
Qed.

Lemma let_through_app r1 r2 : let_through (r1 ++ r2) = let_through r1 ++ let_through r2.
Proof. unfold let_through. rewrite List.filter_app, map_app. reflexivity. Qed.

(** On an array in nondecreasing order the loop removes exactly the
    entries that are older than the window. *)
Lemma drop_old_sorted now rs :
  StronglySorted Z.le rs ->
  drop_old timeWindow now rs = List.filter (within timeWindow now) rs.
Proof.
  induction 1 as [|r0 rest Hs IH Hall]; [reflexivity|].
  cbn [drop_old List.filter]. unfold within at 1.
  destruct (now - r0 >? timeWindow) eqn:E.
  - apply Z.gtb_lt in E. rewrite (proj2 (Z.leb_gt _ _)) by lia. exact IH.
  - assert (Hle : now - r0 <= timeWindow).
    { destruct (Z.gtb_spec (now - r0) timeWindow); [discriminate | lia]. }
    rewrite (proj2 (Z.leb_le _ _) Hle). f_equal.
    symmetry. apply forallb_filter_id. apply forallb_forall. intros t Ht.
    rewrite List.Forall_forall in Hall. specialize (Hall t Ht).
    unfold within. apply Z.leb_le. lia.
Qed.

Lemma filter_within_later now now' l :
  now <= now' ->
  List.filter (within timeWindow now') (List.filter (within timeWindow now) l)
  = List.filter (within timeWindow now') l.
Proof.
  intros Hle. induction l as [|t l IH]; [reflexivity|].
  cbn [List.filter]. destruct (within timeWindow now t) eqn:E1.
  - cbn [List.filter]. rewrite IH. reflexivity.
  - rewrite IH. destruct (within timeWindow now' t) eqn:E2; [|reflexivity].
    unfold within in *. apply Z.leb_le in E2. apply Z.leb_gt in E1. lia.
Qed.

Lemma sorted_filter (f : Z -> bool) l :
  StronglySorted Z.le l -> StronglySorted Z.le (List.filter f l).
Proof.
  induction 1 as [|a l Hs IH Hall]; [constructor|].
  cbn [List.filter]. destruct (f a); [|exact IH].
  constructor; [exact IH|]. rewrite List.Forall_forall in *.
  intros x Hx. apply filter_In in Hx. apply Hall, Hx.
Qed.

Lemma sorted_snoc l c :
  StronglySorted Z.le l -> (forall t, In t l -> t <= c) -> StronglySorted Z.le (l ++ [c]).
Proof.
  intros Hs Hle. apply StronglySorted_app_2; [|exact Hs|repeat constructor].
  intros x1 x2 H1 H2. apply list_elem_of_In in H1. apply list_elem_of_In in H2.
  destruct H2 as [<-|[]]. auto.
Qed.

Lemma sorted_snoc_inv l c :
  StronglySorted Z.le (l ++ [c]) ->
  StronglySorted Z.le l /\ (forall t, In t l -> t <= c).
Proof.
  intros H. apply StronglySorted_app in H. destruct H as (H1 & H2 & _). split; [exact H2|].
  intros t Ht. apply H1; apply list_elem_of_In; [exact Ht | left; reflexivity].
Qed.

(** The array of a limiter after a run of calls at nondecreasing times:
    pruned at any later time, it is the list of the calls let through that
    lie within the trailing window of that time. *)
Lemma limiter_state_spec calls :
  StronglySorted Z.le calls ->
  StronglySorted Z.le (let_through (run [] calls)) /\
  (forall t, In t (let_through (run [] calls)) -> In t calls) /\
  (forall now, (forall t, In t calls -> t <= now) ->
     drop_old timeWindow now (state [] calls)
     = List.filter (within timeWindow now) (let_through (run [] calls))).
Proof.
  induction calls as [|c cs IH] using rev_ind; intros Hs.
  - cbn. split; [constructor | split; [intros t [] | reflexivity]].
  - apply sorted_snoc_inv in Hs. destruct Hs as [Hs Hle].
    destruct (IH Hs) as (IHs & IHin & IHst). clear IH.
    rewrite limiter_run_app, limiter_state_app, let_through_app.
    cbn [limiter_run limiter_state]. unfold limiter_call.
    rewrite (IHst c Hle).
    set (rq := List.filter (within timeWindow c) (let_through (run [] cs))).
    assert (Hrq : StronglySorted Z.le rq) by (apply sorted_filter, IHs).
    assert (Hrqle : forall t, In t rq -> t <= c).
    { intros t Ht. apply filter_In in Ht. apply Hle, IHin, Ht. }
    destruct (Z.of_nat (length rq) >=? maxRequests) eqn:E; cbn [snd let_through List.filter map].
    + rewrite app_nil_r. split; [exact IHs|]. split.
      * intros t Ht. apply in_or_app. left. apply IHin, Ht.
      * intros now Hnow. rewrite (drop_old_sorted now rq Hrq). unfold rq.
        apply filter_within_later. apply Hnow, in_or_app. right. left. reflexivity.
    + split; [|split].
      * apply sorted_snoc; [exact IHs|]. intros t Ht. apply Hle, IHin, Ht.
      * intros t Ht. apply in_app_or in Ht. apply in_or_app.
        destruct Ht as [Ht|Ht]; [left; apply IHin, Ht | right; exact Ht].
      * intros now Hnow. rewrite drop_old_sorted by (apply sorted_snoc; assumption).
        rewrite !List.filter_app. f_equal. unfold rq.
        apply filter_within_later. apply Hnow, in_or_app. right. left. reflexivity.
Qed.

(** The answer to the call that follows a run of calls. *)
Lemma limiter_answer cs c :
  StronglySorted Z.le (cs ++ [c]) ->
  run [] (cs ++ [c]) =
    run [] cs ++ [(c, count (within timeWindow c) (let_through (run [] cs)) <? maxRequests)].
Proof.
  intros Hs. apply sorted_snoc_inv in Hs. destruct Hs as [Hs Hle].
  destruct (limiter_state_spec cs Hs) as (_ & _ & Hst).
  rewrite limiter_run_app. f_equal. cbn [limiter_run]. unfold limiter_call.
  rewrite (Hst c Hle). unfold count.
  destruct (Z.of_nat (length (List.filter (within timeWindow c) (let_through (run [] cs))))
            >=? maxRequests) eqn:E.
  - rewrite Z.geb_leb in E. apply Z.leb_le in E.
    rewrite (proj2 (Z.ltb_ge _ _)); [reflexivity | exact E].
  - rewrite Z.geb_leb in E. apply Z.leb_gt in E.
    rewrite (proj2 (Z.ltb_lt _ _)); [reflexivity | exact E].
Qed.

Lemma count_mono (f g : Z -> bool) l :
  (forall t, In t l -> f t = true -> g t = true) -> count f l <= count g l.
Proof.
  unfold count. induction l as [|t l IH]; intros H; [cbn; lia|].
  cbn [List.filter]. assert (IH' := IH (fun t' Ht' => H t' (or_intror Ht'))).
  specialize (H t (or_introl eq_refl)).
  destruct (f t), (g t); cbn [length]; try lia; discriminate (H eq_refl).
Qed.

Lemma count_app f l1 l2 : count f (l1 ++ l2) = count f l1 + count f l2.
Proof. unfold count. rewrite List.filter_app, length_app. lia. Qed.

Lemma count_nonneg f l : 0 <= count f l.
Proof. unfold count. lia. Qed.

Lemma limiter_window_bound calls a :
  StronglySorted Z.le calls ->
  count (in_window timeWindow a) (let_through (run [] calls)) <= Z.max 0 maxRequests.
Proof.
  induction calls as [|c cs IH] using rev_ind; intros Hs.
  - change (0 <= Z.max 0 maxRequests). lia.
  - rewrite (limiter_answer cs c Hs), let_through_app, count_app.
    destruct (sorted_snoc_inv _ _ Hs) as [Hs' Hle]. specialize (IH Hs').
    destruct (count (within timeWindow c) (let_through (run [] cs)) <? maxRequests) eqn:E;
      [|change (let_through [(c, false)]) with (@nil Z); change (count (in_window timeWindow a) []) with 0; lia].
    apply Z.ltb_lt in E.
    change (let_through [(c, true)]) with [c]. unfold count at 2. cbn [List.filter].
    destruct (in_window timeWindow a c) eqn:Ew; [|cbn [length]; lia].
    cbn [length].
    assert (count (in_window timeWindow a) (let_through (run [] cs))
            <= count (within timeWindow c) (let_through (run [] cs))); [|lia].
    apply count_mono. intros t _ Ht. unfold in_window, within in *.
    apply andb_true_iff in Ht, Ew. rewrite !Z.leb_le in *. lia.
Qed.

End LimiterFacts.

Section LimiterTheorem.
Import APISecurityUtils LimiterRules.
Local Open Scope Z_scope.

(** C9.  For the limiter made by [createRateLimiter(maxRequests, timeWindow)]
    and calls at nondecreasing times: a call is answered [true] exactly when
    fewer than [maxRequests] of the calls let through before it lie within the
    trailing [timeWindow] milliseconds; hence no window of length
    [timeWindow] holds more than [maxRequests] such calls (and none at all
    when [maxRequests] is negative). *)
Theorem createRateLimiter_bound (maxRequests timeWindow : Z) (calls : list Z)
  (Hsorted : StronglySorted Z.le calls) :
  (forall before now after, calls = before ++ now :: after ->
     exists ok rest,
       createRateLimiter maxRequests timeWindow calls
       = createRateLimiter maxRequests timeWindow before ++ (now, ok) :: rest /\
       (ok = true <->
        count (within timeWindow now)
              (let_through (createRateLimiter maxRequests timeWindow before)) < maxRequests)) /\
  (0 <= maxRequests ->
   forall a,
     count (in_window timeWindow a)
           (let_through (createRateLimiter maxRequests timeWindow calls))
     <= maxRequests) /\
  (forall a,
     count (in_window timeWindow a)
           (let_through (createRateLimiter maxRequests timeWindow calls))
     <= Z.max 0 maxRequests).
Proof.
  split; [|split].
  - intros before now after ->. unfold createRateLimiter.
    replace (before ++ now :: after) with ((before ++ [now]) ++ after) in *
      by (rewrite <- app_assoc; reflexivity).
    apply StronglySorted_app_1_l in Hsorted.
    rewrite limiter_run_app, (limiter_answer _ _ _ _ Hsorted), <- app_assoc.
    eexists _, _. split; [reflexivity|]. apply Z.ltb_lt.
  - intros Hpos a. unfold createRateLimiter.
    pose proof (limiter_window_bound maxRequests timeWindow calls a Hsorted). lia.
  - intros a. apply limiter_window_bound, Hsorted.
Qed.

Lemma createRateLimiter_bound_witness :
  StronglySorted Z.le [0; 1; 2; 10; 11; 12; 13] /\
  forall a,
    count (in_window 10 a) (let_through (createRateLimiter 2 10 [0; 1; 2; 10; 11; 12; 13]))
    <= 2.
Proof.
  assert (H : StronglySorted Z.le [0; 1; 2; 10; 11; 12; 13])
    by (repeat (constructor; try lia)).
  split; [exact H|].
  apply (proj1 (proj2 (createRateLimiter_bound 2 10 _ H))). lia.
Defined.

Example createRateLimiter_run :
  createRateLimiter 2 10 [0; 1; 2; 10; 11; 12; 13]
  = [(0, true); (1, true); (2, false); (10, false); (11, true); (12, true); (13, false)].
Proof. reflexivity. Qed.

End LimiterTheorem.

(** *** The review component *)
Section ListFacts.
Context {A B : Type}.

Lemma Forall2_In_r (R : A -> B -> Prop) l1 l2 y :
  Forall2 R l1 l2 -> In y l2 -> exists x, In x l1 /\ R x y.
Proof.
  induction 1 as [|x y' l1 l2 Hxy _ IH]; intros Hin; [destruct Hin|].
  destruct Hin as [<-|Hin].
  - exists x. split; [left; reflexivity | exact Hxy].
  - destruct (IH Hin) as [x' [Hx' HR]]. exists x'. split; [right; exact Hx' | exact HR].
Qed.

Lemma Forall2_map_r_In (R R' : A -> B -> Prop) (g : B -> B) l1 l2 :
  Forall2 R l1 l2 ->
  (forall x y, In x l1 -> R x y -> R' x (g y)) ->
  Forall2 R' l1 (map g l2).
Proof.
  induction 1 as [|x y l1 l2 Hxy _ IH]; intros Hg; [constructor|].
  cbn [map]. constructor.
  - apply Hg; [left; reflexivity | exact Hxy].
  - apply IH. intros x' y' Hin. apply Hg. right. exact Hin.
Qed.

Lemma NoDup_map_injective (f : A -> B) l x y :
  List.NoDup (map f l) -> In x l -> In y l -> f x = f y -> x = y.
Proof.
  induction l as [|a l IH]; intros Hnd Hx Hy Hf; [destruct Hx|].
  cbn [map] in Hnd. apply List.NoDup_cons_iff in Hnd. destruct Hnd as [Hnotin Hnd].
  destruct Hx as [<-|Hx], Hy as [<-|Hy].
  - reflexivity.
  - exfalso. apply Hnotin. rewrite Hf. apply in_map, Hy.
  - exfalso. apply Hnotin. rewrite <- Hf. apply in_map, Hx.
  - apply IH; assumption.
Qed.

Lemma In_lookup (l : list A) i x : l !! i = Some x -> In x l.
Proof. intros H. apply list_elem_of_In. apply list_elem_of_lookup. eauto. Qed.

Lemma In_delete (l : list A) k x : In x (delete k l) -> In x l.
Proof.
  revert k; induction l as [|a l IH]; intros k H; [destruct k; exact H|].
  destruct k as [|k]; cbn in H.
  - right. exact H.
  - destruct H as [<-|H]; [left; reflexivity | right; apply (IH k), H].
Qed.

End ListFacts.

Section ReviewFacts.
Import Types RecordingReviewComponent.

Variable results : list Recording.t.
Hypothesis ids_unique : List.NoDup (map Recording.id results).

Lemma evolved_refl r : evolved r r.
Proof. unfold evolved. auto. Qed.

Lemma Forall2_evolved_refl l : Forall2 evolved l l.
Proof. induction l; constructor; [apply evolved_refl | assumption]. Qed.

Lemma loaded_Inv : Inv results (loaded results).
Proof.
  unfold Inv, loaded. cbn. split; [|split].
  - apply Forall2_evolved_refl.
  - intros sel H. discriminate.
  - intros c [].
Qed.

Lemma has_status_true s r : has_status s r = true <-> Recording.status r = s.
Proof. unfold has_status. apply bool_decide_eq_true. Qed.

(** a card on screen shows a recording of the list that was loaded, in a
    status other than flagged *)
Lemma card_known m r s :
  Inv results m -> s <> flagged ->
  In r (recordings (ui m)) -> Recording.status r = s -> known results r.
Proof.
  intros (Hev & _ & _) Hs Hin Hst.
  destruct (Forall2_In_r _ _ _ _ Hev Hin) as (r0 & Hin0 & Hid & _ & _ & Hstatus).
  exists r0. split; [exact Hin0|]. split; [symmetry; exact Hid|].
  destruct Hstatus as [Heq | [Hp _]]; [rewrite <- Heq, Hst; exact Hs | rewrite Hp; discriminate].
Qed.

(** the status of the recording a submission was started for *)
Lemma known_status m sel r :
  Inv results m -> known results sel ->
  In r (recordings (ui m)) -> Recording.id r = Recording.id sel ->
  Recording.status r = pending \/ Recording.status r = reviewed.
Proof.
  intros (Hev & _ & _) (r0' & Hin0' & Hid' & Hnf) Hin Hid.
  destruct (Forall2_In_r _ _ _ _ Hev Hin) as (r0 & Hin0 & Hid0 & _ & _ & Hstatus).
  assert (r0 = r0') as <-.
  { apply (NoDup_map_injective Recording.id results); [exact ids_unique | assumption..|].
    congruence. }
  destruct Hstatus as [Heq | [_ Hr]]; [|right; exact Hr].
  rewrite Heq. destruct (Recording.status r0); [left | right | contradiction]; reflexivity.
Qed.

(** the update of the list after an accepted review, one recording at a time *)
Lemma update_reviewed_evolved m c :
  Inv results m -> known results (fst c) ->
  Forall2 evolved (recordings (ui m))
          (update_reviewed (fst c) (snd c) (recordings (ui m))).
Proof.
  intros HI Hk. unfold update_reviewed.
  apply Forall2_map_r_In with (R := eq).
  - induction (recordings (ui m)); constructor; auto.
  - intros r _ Hin <-. destruct (Recording.id r =? Recording.id (fst c))%Z eqn:E.
    + apply Z.eqb_eq in E. unfold evolved. cbn.
      repeat split; try reflexivity.
      destruct (known_status m (fst c) r HI Hk Hin E) as [Hp | Hr]; [right | left]; auto.
    + apply evolved_refl.
Qed.

Lemma evolved_trans r0 r r' : evolved r0 r -> evolved r r' -> evolved r0 r'.
Proof.
  unfold evolved. intros (H1 & H2 & H3 & H4) (H1' & H2' & H3' & H4').
  repeat split; try congruence.
  destruct H4 as [H4 | [H4 H4r]], H4' as [H4' | [H4' H4r']];
    [left | right | right | right]; try split; congruence.
Qed.

Lemma Forall2_evolved_trans l0 l l' :
  Forall2 evolved l0 l -> Forall2 evolved l l' -> Forall2 evolved l0 l'.
Proof.
  intros H; revert l'. induction H as [|x y l0 l Hxy _ IH]; intros l' H'.
  - inversion H'. constructor.
  - inversion H' as [|y' z l1 l2 Hyz Hrest]; subst. constructor.
    + eapply evolved_trans; eassumption.
    + apply IH, Hrest.
Qed.

(** one event changes the list only by turning pending recordings into
    reviewed ones, and keeps the invariant *)
Lemma step_evolved m e m' :
  Inv results m -> step m e = Some m' ->
  Forall2 evolved (recordings (ui m)) (recordings (ui m')) /\ Inv results m'.
Proof.
  intros HI Hstep. pose proof HI as (Hev & Hsel & Hfl).
  assert (Hsame : forall m1, recordings (ui m1) = recordings (ui m) ->
            inflight m1 = inflight m ->
            (forall sel, selectedRecording (ui m1) = Some sel -> known results sel) ->
            Forall2 evolved (recordings (ui m)) (recordings (ui m1)) /\ Inv results m1).
  { intros m1 Hrec Hin Hs. rewrite Hrec. split; [apply Forall2_evolved_refl|].
    unfold Inv. rewrite Hrec, Hin. auto. }
  assert (Hform : forall f m1, change_form f m = Some m1 ->
            Forall2 evolved (recordings (ui m)) (recordings (ui m1)) /\ Inv results m1).
  { intros f m1. unfold change_form. destruct (dialog_open m); [|discriminate].
    intros [= <-]. apply Hsame; [reflexivity..|]. cbn. exact Hsel. }
  destruct e; cbn [step] in Hstep.
  - destruct (pendingRecordings (ui m) !! card) as [r|] eqn:E; [|discriminate].
    injection Hstep as <-. apply Hsame; [reflexivity..|]. cbn. intros sel [= <-].
    apply In_lookup in E. apply filter_In in E. destruct E as [Hin Hst].
    apply has_status_true in Hst. eapply card_known; eauto. discriminate.
  - destruct (reviewedCards (ui m) !! card) as [r|] eqn:E; [|discriminate].
    injection Hstep as <-. apply Hsame; [reflexivity..|]. cbn. intros sel [= <-].
    unfold reviewedCards in E. apply lookup_take_Some in E. destruct E as [E _].
    apply In_lookup in E. apply filter_In in E. destruct E as [Hin Hst].
    apply has_status_true in Hst. eapply card_known; eauto. discriminate.
  - destruct (dialog_open m); [|discriminate]. injection Hstep as <-.
    apply Hsame; [reflexivity..|]. cbn. discriminate.
  - destruct (score_option v); [eauto | discriminate].
  - destruct (score_option v); [eauto | discriminate].
  - eauto.
  - eauto.
  - destruct (dialog_open m && negb (submit_disabled (ui m))); [|discriminate].
    unfold handleSubmitReview_send in Hstep.
    destruct (selectedRecording (ui m)) as [sel|] eqn:E; [|discriminate].
    injection Hstep as <-. cbn. split; [apply Forall2_evolved_refl|].
    unfold Inv. cbn. split; [exact Hev|]. split.
    + rewrite E. exact Hsel.
    + intros c Hc. apply in_app_or in Hc. destruct Hc as [Hc | [<- | []]]; [auto|].
      cbn. apply Hsel. reflexivity.
  - destruct (inflight m !! k) as [c|] eqn:E; [|discriminate].
    injection Hstep as <-. apply In_lookup in E.
    assert (Hfl' : forall c', In c' (delete k (inflight m)) -> known results (fst c'))
      by (intros c' Hc'; apply Hfl; eapply In_delete; exact Hc').
    destruct o; cbn.
    + pose proof (update_reviewed_evolved m c HI (Hfl c E)) as Hup.
      split; [exact Hup|]. unfold Inv. cbn. split; [|split; [discriminate | exact Hfl']].
      eapply Forall2_evolved_trans; eassumption.
    + split; [apply Forall2_evolved_refl|]. unfold Inv. cbn. auto.
Qed.

Lemma steps_Inv es : forall m m', Inv results m -> steps m es = Some m' -> Inv results m'.
Proof.
  induction es as [|e es IH]; intros m m' HI H; cbn [steps] in H.
  - injection H as <-. exact HI.
  - destruct (step m e) as [m1|] eqn:E; [|discriminate].
    apply (IH m1); [|exact H]. eapply step_evolved; eassumption.
Qed.

Lemma reachable_Inv m : reachable results m -> Inv results m.
Proof. intros [es H]. eapply steps_Inv; [apply loaded_Inv | exact H]. Qed.

End ReviewFacts.

Section ReviewTheorem.
Import Types RecordingReviewComponent.

Lemma evolved_scores_only_if_reviewed l l' :
  Forall2 evolved l l' ->
  Forall scores_only_if_reviewed l -> Forall scores_only_if_reviewed l'.
Proof.
  induction 1 as [|r r' l l' Hev _ IH]; intros HF; [constructor|].
  apply List.Forall_cons_iff in HF. destruct HF as [Hr HF].
  constructor; [|apply IH, HF].
  destruct Hev as (_ & Hf & Ha & Hst). unfold scores_only_if_reviewed, has_scores in *.
  rewrite Hf, Ha. intros Hs. specialize (Hr Hs).
  destruct Hst as [-> | [Hp _]]; congruence.
Qed.

Lemma update_reviewed_written sel form prev :
  review_written (Recording.id sel) (feedback form) prev (update_reviewed sel form prev).
Proof.
  unfold review_written, update_reviewed.
  induction prev as [|r prev IH]; cbn [map]; constructor; [|exact IH].
  destruct (Z.eqb_spec (Recording.id r) (Recording.id sel)) as [E|E].
  - split; [|contradiction]. intros _. unfold reviewed_with, spread_reviewed. cbn.
    repeat split; reflexivity.
  - split; [contradiction | reflexivity].
Qed.

Lemma step_keeps_recordings m e m' :
  step m e = Some m' -> (forall k, e <> Settle k Resolved) ->
  recordings (ui m') = recordings (ui m).
Proof.
  intros H Hne. destruct e; cbn [step] in H.
  - destruct (pendingRecordings (ui m) !! card); [|discriminate]. injection H as <-. reflexivity.
  - destruct (reviewedCards (ui m) !! card); [|discriminate]. injection H as <-. reflexivity.
  - destruct (dialog_open m); [|discriminate]. injection H as <-. reflexivity.
  - unfold change_form in H. destruct (score_option v); [|discriminate].
    destruct (dialog_open m); [|discriminate]. injection H as <-. reflexivity.
  - unfold change_form in H. destruct (score_option v); [|discriminate].
    destruct (dialog_open m); [|discriminate]. injection H as <-. reflexivity.
  - unfold change_form in H. destruct (dialog_open m); [|discriminate].
    injection H as <-. reflexivity.
  - unfold change_form in H. destruct (dialog_open m); [|discriminate].
    injection H as <-. reflexivity.
  - destruct (dialog_open m && negb (submit_disabled (ui m))); [|discriminate].
    unfold handleSubmitReview_send in H.
    destruct (selectedRecording (ui m)); [|discriminate]. injection H as <-. reflexivity.
  - destruct (inflight m !! k); [|discriminate]. injection H as <-.
    destruct o; [exfalso; apply (Hne k); reflexivity | reflexivity].
Qed.

Lemma step_submit_captures m m' :
  step m SubmitForm = Some m' ->
  exists sel, selectedRecording (ui m) = Some sel /\
              inflight m' = inflight m ++ [(sel, reviewForm (ui m))].
Proof.
  cbn [step]. destruct (dialog_open m && negb (submit_disabled (ui m))); [|discriminate].
  unfold handleSubmitReview_send. destruct (selectedRecording (ui m)) as [sel|]; [|discriminate].
  intros [= <-]. exists sel. split; reflexivity.
Qed.




End ReviewTheorem.

(** *** The review operation *)
Section ReviewWorkflowFacts.
Import Types ReviewWorkflow.

Lemma score_in_range_spec s : score_in_range s = true <-> (1 <= s <= 5)%Z.
Proof. unfold score_in_range. rewrite andb_true_iff, !Z.leb_le. reflexivity. Qed.

Lemma submit_review_failure now table rid p :
  snd (submit_review now table rid p) <> None ->
  fst (submit_review now table rid p) = table.
Proof.
  unfold submit_review. destruct (table !! rid) as [r|]; [|reflexivity].
  destruct (bool_decide (Recording.status r = pending)); [|reflexivity].
  destruct (score_in_range (RecordingReview.fluency_score p)
            && score_in_range (RecordingReview.accuracy_score p)); [|reflexivity].
  cbn. congruence.
Qed.

Lemma submit_review_success now table rid p :
  snd (submit_review now table rid p) = None <->
  exists r, table !! rid = Some r /\ Recording.status r = pending /\
            (1 <= RecordingReview.fluency_score p <= 5)%Z /\
            (1 <= RecordingReview.accuracy_score p <= 5)%Z.
Proof.
  unfold submit_review. destruct (table !! rid) as [r|]; cbn.
  - destruct (bool_decide_reflect (Recording.status r = pending)) as [Hp|Hp].
    + destruct (score_in_range (RecordingReview.fluency_score p)
                && score_in_range (RecordingReview.accuracy_score p)) eqn:E; cbn.
      * apply andb_true_iff in E. rewrite !score_in_range_spec in E.
        split; [intros _; exists r; tauto | reflexivity].
      * split; [discriminate|]. intros (r' & [= <-] & _ & Hf & Ha).
        apply score_in_range_spec in Hf, Ha. rewrite Hf, Ha in E. discriminate.
    + cbn. split; [discriminate|]. intros (r' & [= <-] & Hp' & _). contradiction.
  - split; [discriminate|]. intros (r' & H & _). discriminate.
Qed.

(** C2.  A review of a recording whose status is not pending fails with
    [AlreadyReviewed] and leaves the table, hence the earlier review,
    unchanged; a review succeeds only when the recording exists, its status
    is pending and both scores are within 1-5; a score outside 1-5 is never
    accepted, and is answered with [InvalidScore] on a pending recording;
    and when the component submits a review for a recording that is not
    pending on the server, neither the table nor the component's list
    changes. *)
Theorem submit_review_guards (now : string) (table : gmap Z Recording.t)
    (rid : Z) (p : RecordingReview.t) :
  (forall r, table !! rid = Some r -> Recording.status r <> pending ->
     submit_review now table rid p = (table, Some AlreadyReviewed)) /\
  (snd (submit_review now table rid p) = None <->
     exists r, table !! rid = Some r /\ Recording.status r = pending /\
               (1 <= RecordingReview.fluency_score p <= 5)%Z /\
               (1 <= RecordingReview.accuracy_score p <= 5)%Z) /\
  (~ ((1 <= RecordingReview.fluency_score p <= 5)%Z /\
      (1 <= RecordingReview.accuracy_score p <= 5)%Z) ->
     fst (submit_review now table rid p) = table /\
     snd (submit_review now table rid p) <> None /\
     (forall r, table !! rid = Some r -> Recording.status r = pending ->
        snd (submit_review now table rid p) = Some InvalidScore)) /\
  (table !! rid = None -> submit_review now table rid p = (table, Some NotFound)) /\
  (forall st sel r,
     RecordingReviewComponent.selectedRecording st = Some sel ->
     rid = Recording.id sel ->
     table !! rid = Some r -> Recording.status r <> pending ->
     fst (handleSubmitReview now table st) = table /\
     RecordingReviewComponent.recordings (snd (handleSubmitReview now table st))
     = RecordingReviewComponent.recordings st).
Proof.
  assert (Hnp : forall r, table !! rid = Some r -> Recording.status r <> pending ->
            submit_review now table rid p = (table, Some AlreadyReviewed)).
  { intros r Hr Hs. unfold submit_review. rewrite Hr.
    rewrite bool_decide_eq_false_2 by exact Hs. reflexivity. }
  split; [exact Hnp|]. split; [apply submit_review_success|]. split; [|split].
  - intros Hbad.
    assert (Hfail : snd (submit_review now table rid p) <> None).
    { intros H. apply submit_review_success in H. destruct H as (r & _ & _ & Hf & Ha).
      apply Hbad. split; assumption. }
    split; [apply submit_review_failure, Hfail|]. split; [exact Hfail|].
    intros r Hr Hs. unfold submit_review. rewrite Hr.
    rewrite bool_decide_eq_true_2 by exact Hs.
    destruct (score_in_range (RecordingReview.fluency_score p)
              && score_in_range (RecordingReview.accuracy_score p)) eqn:E; [|reflexivity].
    exfalso. apply Hbad. apply andb_true_iff in E. rewrite !score_in_range_spec in E.
    exact E.
  - intros H. unfold submit_review. rewrite H. reflexivity.
  - intros st sel r Hsel -> Hr Hs. unfold handleSubmitReview.
    unfold RecordingReviewComponent.handleSubmitReview_send. rewrite Hsel.
    cbn [fst]. unfold submit_review. rewrite Hr.
    rewrite bool_decide_eq_false_2 by exact Hs. split; reflexivity.
Qed.

(** the sample recording, reviewed on the server, is submitted once more *)
Example second_review_rejected :
  let st := RecordingReviewComponent.ui RecordingReviewComponent.sample_submitted in
  submit_review "2024-01-17T09:00:00Z" sample_table 1
    (RecordingReview.mk 1 "Changed my mind" needs_practice 1 1)
  = (sample_table, Some AlreadyReviewed) /\
  fst (handleSubmitReview "2024-01-17T09:00:00Z" sample_table st) = sample_table /\
  RecordingReviewComponent.error (snd (handleSubmitReview "2024-01-17T09:00:00Z" sample_table st))
  = "Failed to submit review. Please try again.".
Proof. cbv zeta. split; [|split]; reflexivity. Qed.

(** the component has no guard of its own: were the same request to
    resolve, the feedback in its list would be replaced *)
Example client_relies_on_server :
  let reviewed_once := RecordingReviewComponent.sample_reviewed in
  exists m,
    RecordingReviewComponent.steps reviewed_once
      [RecordingReviewComponent.ClickViewReview 0;
       RecordingReviewComponent.ChangeFeedback "Changed my mind";
       RecordingReviewComponent.SubmitForm;
       RecordingReviewComponent.Settle 0 RecordingReviewComponent.Resolved] = Some m /\
    map Recording.teacher_feedback
        (RecordingReviewComponent.recordings (RecordingReviewComponent.ui m))
    = [Some "Changed my mind"].
Proof. cbv zeta. eexists. split; reflexivity. Qed.

End ReviewWorkflowFacts.

(** *** The numbers on the dashboard *)
Section AnalyticsFacts.
Import AdvancedAnalytics.
Local Open Scope Q_scope.

Lemma Math_round_nearest x :
  x - (1 # 2) < inject_Z (Math_round x) /\ inject_Z (Math_round x) <= x + (1 # 2).
Proof.
  unfold Math_round. pose proof (Qfloor_le (x + (1 # 2))) as Hle.
  pose proof (Qlt_floor (x + (1 # 2))) as Hlt.
  rewrite inject_Z_plus in Hlt. change (inject_Z 1) with 1 in Hlt.
  split; lra.
Qed.

Lemma tenth n : (n # 10) == inject_Z n * (1 # 10).
Proof. unfold Qeq, inject_Z, Qmult. cbn. lia. Qed.

Lemma round_tenths_nonneg x :
  Qabs ((Qfloor (x * 10 + (1 # 2)) # 10) - x) <= 1 # 20.
Proof.
  pose proof (Qfloor_le (x * 10 + (1 # 2))) as Hle.
  pose proof (Qlt_floor (x * 10 + (1 # 2))) as Hlt.
  rewrite inject_Z_plus in Hlt. change (inject_Z 1) with 1 in Hlt.
  rewrite tenth. apply Qabs_Qle_condition. split; lra.
Qed.

Lemma toFixed1_rounds x y :
  toFixed1 x = Some y -> rounded_to_one_decimal x y.
Proof.
  unfold toFixed1. destruct (Qle_bool (10 ^ 21) (Qabs x)); [discriminate|].
  destruct (Qle_bool 0 x); intros H; apply (inj Some) in H; subst y; split.
  - eexists. reflexivity.
  - apply round_tenths_nonneg.
  - exists (- Qfloor (- x * 10 + (1 # 2)))%Z. reflexivity.
  - pose proof (round_tenths_nonneg (- x)) as H.
    apply Qabs_Qle_condition in H. apply Qabs_Qle_condition.
    rewrite tenth in *. destruct H as [H1 H2].
    generalize dependent (inject_Z (Qfloor (- x * 10 + (1 # 2)))). intros a H1 H2.
    split; lra.
Qed.

Lemma toFixed1_defined x : Qabs x < 10 ^ 21 -> exists y, toFixed1 x = Some y.
Proof.
  intros H. unfold toFixed1. destruct (Qle_bool (10 ^ 21) (Qabs x)) eqn:E.
  - apply Qle_bool_iff in E. exfalso. apply (Qlt_not_le _ _ H E).
  - destruct (Qle_bool 0 x); eauto.
Qed.

(** away from a tie, rounding to one decimal place has one result *)
Lemma rounded_to_one_decimal_unique x y y' :
  ~ tie x ->
  rounded_to_one_decimal x y -> rounded_to_one_decimal x y' -> y == y'.
Proof.
  assert (Hmain : forall n n' : Z,
            Qabs ((n # 10) - x) <= 1 # 20 -> Qabs ((n' # 10) - x) <= 1 # 20 ->
            (n < n')%Z -> tie x).
  { intros n n' H H' Hlt. apply Qabs_Qle_condition in H, H'.
    rewrite tenth in H, H'. destruct H as [H1 H2], H' as [H1' H2'].
    assert (Hq : inject_Z n + 1 <= inject_Z n').
    { change 1 with (inject_Z 1). rewrite <- inject_Z_plus. rewrite <- Zle_Qle. lia. }
    exists n. assert (Hx : x == inject_Z n * (1 # 10) + (1 # 20)) by lra.
    rewrite Hx. unfold Qeq, inject_Z, Qplus, Qmult. cbn. lia. }
  intros Hnt [[n Hn] Hy] [[n' Hn'] Hy']. rewrite Hn in Hy. rewrite Hn' in Hy'.
  rewrite Hn, Hn'. destruct (Z.lt_trichotomy n n') as [Hlt | [-> | Hgt]].
  - exfalso. apply Hnt. exact (Hmain n n' Hy Hy' Hlt).
  - reflexivity.
  - exfalso. apply Hnt. apply (Hmain n' n Hy' Hy). lia.
Qed.

(** C3, as the dashboard computes it.  An average score is shown rounded to
    one decimal place, so it is the number of the exported report whenever
    the average is not a tie between two tenths; a completion rate is shown
    rounded to the nearest whole number, a tie going up, in the overview
    and in the list of students alike. *)
Theorem dashboard_rounding (x : Q) :
  (forall shown, student_avg_score x = Some shown ->
     rounded_to_one_decimal x shown /\
     (forall exported, ~ tie x -> rounded_to_one_decimal x exported ->
                       shown == exported)) /\
  (Qabs x < 10 ^ 21 -> exists shown, student_avg_score x = Some shown) /\
  (x - (1 # 2) < inject_Z (student_completion x) /\
   inject_Z (student_completion x) <= x + (1 # 2)) /\
  overview_completion (Some x) = student_completion x /\
  overview_completion None = 0%Z.
Proof.
  split; [|split; [|split; [|split]]].
  - intros shown H. apply toFixed1_rounds in H. split; [exact H|].
    intros exported Hnt He. apply (rounded_to_one_decimal_unique x); assumption.
  - apply toFixed1_defined.
  - apply Math_round_nearest.
  - reflexivity.
  - reflexivity.
Qed.

(** A completion rate of 85.5: the report's one decimal place keeps it as it
    is, and nothing else; the dashboard shows 86, in both views. *)
Lemma completion_rate_shown_as_integer :
  rounded_to_one_decimal (171 # 2) (171 # 2) /\
  student_completion (171 # 2) = 86%Z /\
  overview_completion (Some (171 # 2)) = 86%Z /\
  ~ (forall x exported, rounded_to_one_decimal x exported ->
                        inject_Z (student_completion x) == exported).
Proof.
  assert (H : rounded_to_one_decimal (171 # 2) (171 # 2)).
  { split; [exists 855%Z; reflexivity | apply Qabs_Qle_condition; split; lra]. }
  split; [exact H|]. split; [reflexivity|]. split; [reflexivity|].
  intros Hall. specialize (Hall _ _ H). revert Hall. vm_compute. discriminate.
Qed.

Example avg_score_shown :
  student_avg_score (13 # 4) = Some (33 # 10) /\
  student_avg_score (17 # 5) = Some (34 # 10) /\
  student_avg_score (- (1 # 25)) = Some (- (0 # 10)).
Proof. repeat split. Qed.

End AnalyticsFacts.

(** *** The token of the report download *)
Section AuthFacts.
Import Auth.

Lemma string_length_app (s1 s2 : string) :
  String.length (s1 ++ s2)%string = (String.length s1 + String.length s2)%nat.
Proof. induction s1 as [|c s1 IH]; simpl; [reflexivity | f_equal; exact IH]. Qed.

Lemma occurs_in_length pat s :
  JS.occurs_in pat s -> (String.length pat <= String.length s)%nat.
Proof. intros (pre & post & ->). rewrite !string_length_app. lia. Qed.

(** the login flow writes no key but ['authToken'] *)
Lemma login_flow_step_keys storage e key :
  key <> "authToken" -> login_flow_step storage e !! key = storage !! key.
Proof.
  intros Hk. destruct e as [ok | [token|] | |]; cbn;
    unfold initAuth, login, logout, authAPI_logout_resolved, setItem, removeItem.
  - destruct (JS.truthy (getItem "authToken" storage)); [|reflexivity].
    destruct ok; [reflexivity|]. apply lookup_delete_ne. congruence.
  - apply lookup_insert_ne. congruence.
  - reflexivity.
  - apply lookup_delete_ne. congruence.
  - apply lookup_delete_ne. congruence.
Qed.

Lemma fold_login_flow_keys events storage key :
  key <> "authToken" ->
  fold_left login_flow_step events storage !! key = storage !! key.
Proof.
  intros Hk. revert storage. induction events as [|e events IH]; intros storage.
  - reflexivity.
  - cbn [fold_left]. rewrite IH. apply login_flow_step_keys, Hk.
Qed.

Lemma login_flow_keys events key :
  key <> "authToken" -> login_flow events !! key = None.
Proof.
  intros Hk. unfold login_flow. rewrite fold_login_flow_keys by exact Hk.
  apply lookup_empty.
Qed.

(** C8.  In every storage that the login flow can produce, the key ['token']
    that the report download reads is absent: the token it reads is [null]
    and its header is the text [Token null], whoever is logged in.  The
    token of the logged-in user sits under ['authToken'], from where every
    other request takes its header; the header of the download differs from
    that header and, for a token of more than ten characters, does not
    contain the token. *)
Theorem report_download_ignores_login (events : list LoginFlowEvent) :
  let storage := login_flow events in
  report_token storage = None /\
  report_authorization storage = "Token null" /\
  (forall key, is_Some (storage !! key) -> key = "authToken") /\
  (forall token, getItem "authToken" storage = Some token -> token <> EmptyString ->
     request_authorization storage = Some ("Token " ++ token)%string /\
     (token <> "null" ->
        Some (report_authorization storage) <> request_authorization storage) /\
     ((10 < String.length token)%nat ->
        ~ JS.occurs_in token (report_authorization storage))).
Proof.
  cbv zeta.
  assert (Htok : report_token (login_flow events) = None)
    by (apply login_flow_keys; discriminate).
  assert (Hhdr : report_authorization (login_flow events) = "Token null")
    by (unfold report_authorization; rewrite Htok; reflexivity).
  split; [exact Htok|]. split; [exact Hhdr|]. split.
  - intros key [v Hv]. destruct (decide (key = "authToken")) as [|Hne]; [assumption|].
    rewrite login_flow_keys in Hv by exact Hne. discriminate.
  - intros token Hget Hne.
    assert (Hreq : request_authorization (login_flow events)
                   = Some ("Token " ++ token)%string).
    { unfold request_authorization. rewrite Hget. cbn.
      destruct (String.eqb_spec token EmptyString); [contradiction | reflexivity]. }
    split; [exact Hreq|]. split.
    + intros Hnull. rewrite Hreq, Hhdr. intros [= H]. apply Hnull. symmetry. exact H.
    + intros Hlen Hocc. rewrite Hhdr in Hocc. apply occurs_in_length in Hocc.
      cbn in Hocc. lia.
Qed.

(** after a login the two headers, side by side *)
Example report_header_after_login :
  let storage := login_flow [Login (Some "9944b09199c62bcf9418ad846dd0e4bbdfc6ee4b")] in
  request_authorization storage = Some "Token 9944b09199c62bcf9418ad846dd0e4bbdfc6ee4b" /\
  report_authorization storage = "Token null".
Proof. cbv zeta. split; reflexivity. Qed.

End AuthFacts.

(** *** The record control of the story reader *)
Section StoryReaderFacts.
Import Types StoryReader.

Variable p : Props.
Variable a : StudentAssignment.t.
Hypothesis has_assignment : assignment p = Some a.
Hypothesis exhausted : StudentAssignment.can_attempt a = false.

Lemma record_disabled_exhausted : record_disabled p = true.
Proof. unfold record_disabled. rewrite has_assignment, exhausted. reflexivity. Qed.

Lemma step_closed m e m' sent :
  closed m -> step p m e = Some (m', sent) -> sent = [] /\ closed m'.
Proof.
  intros [Hshow Hup] H. unfold closed.
  destruct e; cbn [step] in H; rewrite ?Hshow, ?Hup, ?record_disabled_exhausted in H;
    cbn [negb andb] in H; try discriminate.
  - destruct (negb (isPlaying (ui m))); [|discriminate].
    destruct started; injection H as <- <-; cbn; auto.
  - destruct (isPlaying (ui m)); [|discriminate]. injection H as <- <-; cbn; auto.
  - injection H as <- <-; cbn; auto.
  - injection H as <- <-; cbn; auto.
Qed.

Lemma run_closed es : forall m m' sent,
  closed m -> run p m es = Some (m', sent) -> sent = [] /\ closed m'.
Proof.
  induction es as [|e es IH]; intros m m' sent Hc H; cbn [run] in H.
  - injection H as <- <-. auto.
  - destruct (step p m e) as [[m1 sent1]|] eqn:E1; [|discriminate].
    destruct (run p m1 es) as [[m2 sent2]|] eqn:E2; [|discriminate].
    injection H as <- <-.
    destruct (step_closed _ _ _ _ Hc E1) as [-> Hc1].
    destruct (IH _ _ _ Hc1 E2) as [-> Hc2]. auto.
Qed.

End StoryReaderFacts.

(** *** The upload operation *)
Section RecordingStoreFacts.
Import RecordingStore.
Local Open Scope Z_scope.

Lemma can_attempt_false max_attempts p :
  can_attempt max_attempts p = false <->
  max_attempts <> -1 /\ max_attempts <= attempts_used p.
Proof.
  unfold can_attempt, unlimited. rewrite orb_false_iff, Z.eqb_neq, Z.ltb_ge. reflexivity.
Qed.

Lemma upload_recording_exhausted cfg max_attempts u st :
  can_attempt max_attempts (progress st) = false ->
  upload_recording cfg max_attempts u st
  = (st, inl match validate_payload cfg u with
             | Some e => e
             | None => AttemptLimitExceeded
             end).
Proof.
  intros H. unfold upload_recording, reserve_attempt. rewrite H.
  destruct (validate_payload cfg u); reflexivity.
Qed.

End RecordingStoreFacts.

Section AttemptLimitTheorem.
Import Types.
Local Open Scope Z_scope.

(** a reader whose assignment says that an attempt is left: the control is
    enabled, the recorder opens, and a take that is handed over is sent *)
Lemma reader_with_attempt (p : StoryReader.Props) (a : StudentAssignment.t)
    (m : StoryReader.Machine) :
  StoryReader.assignment p = Some a ->
  StudentAssignment.can_attempt a = true ->
  StoryReader.record_disabled p = false /\
  (StoryReader.showRecording (StoryReader.ui m) = false ->
   exists m1, StoryReader.step p m StoryReader.ClickStartRecording = Some (m1, []) /\
              StoryReader.showRecording (StoryReader.ui m1) = true) /\
  (StoryReader.showRecording (StoryReader.ui m) = true ->
   forall blob_size, exists m2 upl,
     StoryReader.step p m (StoryReader.RecorderSubmit blob_size) = Some (m2, [upl]) /\
     StoryReader.form_assignment upl = StudentAssignment.id a /\
     StoryReader.audio_size upl = blob_size).
Proof.
  intros Hp Hc.
  assert (Hd : StoryReader.record_disabled p = false)
    by (unfold StoryReader.record_disabled; rewrite Hp, Hc; reflexivity).
  split; [exact Hd|]. split.
  - intros Hs. cbn [StoryReader.step]. rewrite Hs, Hd. cbn [negb andb].
    eexists. split; reflexivity.
  - intros Hs blob_size. cbn [StoryReader.step]. rewrite Hs.
    unfold StoryReader.handleRecordingComplete_send. rewrite Hp.
    eexists. eexists. split; [reflexivity|]. split; reflexivity.
Qed.

(** C4, as amended.  When the attempt allowance of an assignment is
    exhausted (the attempts used have reached the maximum of an assignment
    that is not unlimited), the store accepts no further recording: the
    upload is rejected, with [AttemptLimitExceeded] once its payload is
    valid, and the state stays as it was.  The story reader decides on the
    [can_attempt] of the assignment it was given, whatever the store holds
    by now: given [can_attempt] false, it keeps its record control
    disabled, never opens the recorder and sends no upload; given
    [can_attempt] true, its control is enabled, the recorder opens and
    every take handed over is sent. *)
Theorem exhausted_allowance_blocks_upload
    (cfg : RecordingStore.Config) (max_attempts : Z) (u : RecordingStore.Upload)
    (st : RecordingStore.PairState)
    (p : StoryReader.Props) (a : StudentAssignment.t)
    (events : list StoryReader.Event) (m : StoryReader.Machine)
    (sent : list StoryReader.UploadForm) :
  RecordingStore.can_attempt max_attempts (RecordingStore.progress st) = false ->
  StoryReader.assignment p = Some a ->
  StoryReader.run p StoryReader.mounted events = Some (m, sent) ->
  (max_attempts <> -1 /\
   max_attempts <= RecordingStore.attempts_used (RecordingStore.progress st)) /\
  fst (RecordingStore.upload_recording cfg max_attempts u st) = st /\
  (exists e, snd (RecordingStore.upload_recording cfg max_attempts u st) = inl e) /\
  (RecordingStore.validate_payload cfg u = None ->
   snd (RecordingStore.upload_recording cfg max_attempts u st)
   = inl RecordingStore.AttemptLimitExceeded) /\
  (StudentAssignment.can_attempt a = false ->
   StoryReader.record_disabled p = true /\
   sent = [] /\
   StoryReader.showRecording (StoryReader.ui m) = false) /\
  (StudentAssignment.can_attempt a = true ->
   StoryReader.record_disabled p = false /\
   (StoryReader.showRecording (StoryReader.ui m) = false ->
    exists m1, StoryReader.step p m StoryReader.ClickStartRecording = Some (m1, []) /\
               StoryReader.showRecording (StoryReader.ui m1) = true) /\
   (StoryReader.showRecording (StoryReader.ui m) = true ->
    forall blob_size, exists m2 upl,
      StoryReader.step p m (StoryReader.RecorderSubmit blob_size) = Some (m2, [upl]) /\
      StoryReader.form_assignment upl = StudentAssignment.id a /\
      StoryReader.audio_size upl = blob_size)).
Proof.
  intros Hex Hp Hrun.
  rewrite (upload_recording_exhausted cfg max_attempts u st Hex). cbn [fst snd].
  split; [apply can_attempt_false, Hex|]. split; [reflexivity|].
  split; [eexists; reflexivity|]. split; [intros ->; reflexivity|].
  split.
  - intros Hfield.
    split; [apply (record_disabled_exhausted p a Hp Hfield)|].
    assert (Hc : StoryReader.closed StoryReader.mounted) by (split; reflexivity).
    destruct (run_closed p a Hp Hfield events _ _ _ Hc Hrun) as [Hs [Hshow _]].
    auto.
  - intros Hfield. apply (reader_with_attempt p a m Hp Hfield).
Qed.

Lemma exhausted_allowance_blocks_upload_witness :
  fst (RecordingStore.upload_recording RecordingStore.sample_config 3
         RecordingStore.sample_upload RecordingStore.at_ceiling)
  = RecordingStore.at_ceiling /\
  snd (RecordingStore.upload_recording RecordingStore.sample_config 3
         RecordingStore.sample_upload RecordingStore.at_ceiling)
  = inl RecordingStore.AttemptLimitExceeded /\
  StoryReader.record_disabled StoryReader.exhausted_props = true.
Proof.
  destruct (exhausted_allowance_blocks_upload
              RecordingStore.sample_config 3 RecordingStore.sample_upload
              RecordingStore.at_ceiling StoryReader.exhausted_props
              StoryReader.exhausted_assignment
              [StoryReader.ClickListen true; StoryReader.ClickPause]
              {| StoryReader.ui := StoryReader.initialState; StoryReader.uploading := 0 |}
              [] eq_refl eq_refl eq_refl)
    as (_ & Hst & _ & Herr & Hdis & _).
  split; [exact Hst|]. split; [apply Herr; reflexivity | apply Hdis; reflexivity].
Defined.

(** The reader was opened while one of three attempts was left.  Its first
    upload is accepted as the third attempt, which exhausts the allowance;
    the reader still has its record control enabled, opens the recorder
    again and sends a second upload, which the store rejects.  So it does
    not hold that a reader initiates no upload once the allowance is
    exhausted. *)
Lemma stale_can_attempt_second_upload :
  ~ StaleAllowance.reader_stops_when_exhausted RecordingStore.sample_config 3 "audio/wav" /\
  StudentAssignment.can_attempt StaleAllowance.served_with_one_left = true /\
  (exists m3 m5,
     StoryReader.run StaleAllowance.reader_props StoryReader.mounted
       StaleAllowance.first_take = Some (m3, [StaleAllowance.the_upload]) /\
     StoryReader.run StaleAllowance.reader_props m3
       StaleAllowance.second_take = Some (m5, [StaleAllowance.the_upload])) /\
  snd (RecordingStore.upload_recording RecordingStore.sample_config 3
         RecordingStore.sample_upload RecordingStore.one_left) = inr 3 /\
  RecordingStore.can_attempt 3 (RecordingStore.progress StaleAllowance.after_first_take)
  = false /\
  StoryReader.record_disabled StaleAllowance.reader_props = false /\
  snd (RecordingStore.upload_recording RecordingStore.sample_config 3
         RecordingStore.sample_upload StaleAllowance.after_first_take)
  = inl RecordingStore.AttemptLimitExceeded.
Proof.
  split.
  { intros H.
    destruct (StoryReader.run StaleAllowance.reader_props StoryReader.mounted
                StaleAllowance.first_take) as [[m3 sent]|] eqn:E1;
      [|vm_compute in E1; discriminate].
    pose proof E1 as E1'. vm_compute in E1'. injection E1' as <- <-.
    specialize (H StaleAllowance.reader_props StaleAllowance.served_with_one_left
                  RecordingStore.one_left StaleAllowance.first_take
                  StaleAllowance.second_take _ _ _ [StaleAllowance.the_upload]
                  eq_refl eq_refl E1 eq_refl eq_refl).
    discriminate H. }
  split; [reflexivity|]. split.
  - eexists. eexists. split; reflexivity.
  - repeat split.
Qed.

(** the same reader with an attempt left: the recorder opens and the upload leaves *)
Example upload_with_attempt_left :
  let a := StudentAssignment.mk 7 "Week 3 reading" "The Tortoise and the Hare" 12 None
             2 true true "2024-01-10T08:00:00Z" in
  exists m,
    StoryReader.run (StoryReader.mkProps 12 (Some a)) StoryReader.mounted
      [StoryReader.ClickStartRecording; StoryReader.RecorderSubmit 480000;
       StoryReader.UploadSettled]
    = Some (m, [StoryReader.mkUploadForm "recording.wav" 480000 12 7 "60" 480000]).
Proof. cbv zeta. eexists. reflexivity. Qed.

End AttemptLimitTheorem.

(** *** Uploads that run at the same time *)
Section ConcurrentUploads.
Import RecordingStore.
Local Open Scope Z_scope.

Variable cfg : Config.
Variable max_attempts : Z.
Variable st0 : PairState.

Hypothesis limited : unlimited max_attempts = false.
Hypothesis st0_consistent : consistent st0.
Hypothesis st0_within : attempts_used (progress st0) <= max_attempts.

Lemma reserved_insert (l : list Pc) i x y :
  l !! i = Some x ->
  Z.of_nat (length (List.filter is_reserved (<[i := y]> l)))
  = Z.of_nat (length (List.filter is_reserved l)) - b2z (is_reserved x) + b2z (is_reserved y).
Proof.
  revert i; induction l as [|c l IH]; intros i H; [discriminate|].
  destruct i as [|i]; cbn in H.
  - injection H as ->. simpl.
    destruct (is_reserved x), (is_reserved y); simpl length; unfold b2z; lia.
  - simpl. specialize (IH i H).
    destruct (is_reserved c); simpl length; lia.
Qed.

Local Abbreviation safe := (safe max_attempts st0).

Lemma arrivals_safe us : safe (arrivals st0 us).
Proof.
  unfold safe, arrivals, committed. cbn [pair threads].
  assert (Hnone : List.filter is_reserved (map Received us) = []).
  { induction us as [|u us IH]; [reflexivity | exact IH]. }
  rewrite Hnone. cbn [length]. split; [unfold consistent in st0_consistent; lia|].
  split; [exact st0_within|]. split; [lia|]. split.
  - exists []. rewrite app_nil_r. reflexivity.
  - clear Hnone. apply List.Forall_forall. intros pc Hin. apply in_map_iff in Hin.
    destruct Hin as [u [<- _]]. discriminate.
Qed.

Lemma thread_step_safe s i s' :
  safe s -> thread_step ConditionalUpdate cfg max_attempts s i = Some s' -> safe s'.
Proof.
  intros (Hc & Hmax & Hge & [extra Hext] & Hnc) H. unfold thread_step in H.
  destruct (threads s !! i) as [pc|] eqn:E; [|discriminate].
  assert (Hother : forall pc', is_reserved pc = false -> is_reserved pc' = false ->
            pc' <> Checked -> safe (set_thread i pc' s)).
  { intros pc' H1 H2 H3. unfold safe, set_thread, committed. cbn [pair threads].
    rewrite (reserved_insert _ _ _ pc' E), H1, H2. unfold committed in Hc. cbn [b2z].
    repeat split; try lia; eauto. apply Forall_insert; assumption. }
  destruct pc as [u| | |n|n|e].
  - destruct (validate_payload cfg u); injection H as <-;
      apply Hother; reflexivity || discriminate.
  - unfold reserve_attempt in H. destruct (can_attempt max_attempts (progress (pair s))) eqn:Ec.
    + injection H as <-. unfold safe, committed. cbn [pair threads progress accepted attempts_used].
      rewrite (reserved_insert _ _ _ _ E). cbn [is_reserved b2z]. unfold committed in Hc.
      unfold can_attempt in Ec. rewrite limited in Ec. cbn [orb] in Ec.
      apply Z.ltb_lt in Ec.
      repeat split; try lia; eauto. apply Forall_insert; [assumption | discriminate].
    + injection H as <-. apply Hother; reflexivity || discriminate.
  - exfalso. rewrite List.Forall_forall in Hnc. apply (Hnc Checked); [|reflexivity].
    apply list_elem_of_In, list_elem_of_lookup. eauto.
  - injection H as <-. unfold safe, committed. cbn [pair threads progress accepted].
    rewrite (reserved_insert _ _ _ _ E), length_app. cbn [is_reserved b2z length].
    unfold committed in Hc.
    repeat split; try lia.
    + exists (extra ++ [n]). rewrite Hext, <- app_assoc. reflexivity.
    + apply Forall_insert; [assumption | discriminate].
  - discriminate.
  - discriminate.
Qed.

Lemma interleave_safe schedule : forall s s',
  safe s -> interleave ConditionalUpdate cfg max_attempts s schedule = Some s' -> safe s'.
Proof.
  induction schedule as [|i rest IH]; intros s s' Hs H; cbn [interleave] in H.
  - injection H as <-. exact Hs.
  - destruct (thread_step ConditionalUpdate cfg max_attempts s i) as [s1|] eqn:E;
      [|discriminate].
    apply (IH s1); [eapply thread_step_safe; eassumption | exact H].
Qed.

Lemma safe_bound s :
  safe s ->
  Z.of_nat (length (accepted (pair s))) <= max_attempts /\
  (attempts_used (progress st0) = max_attempts -> accepted (pair s) = accepted st0).
Proof.
  intros (Hc & Hmax & Hge & [extra Hext] & _). unfold committed in Hc.
  split; [lia|]. intros Hceil. rewrite Hext.
  assert (Hlen : Z.of_nat (length (accepted (pair s))) <= Z.of_nat (length (accepted st0))).
  { unfold consistent in st0_consistent. lia. }
  rewrite Hext, length_app in Hlen. destruct extra; [apply app_nil_r|].
  cbn [length] in Hlen. lia.
Qed.

End ConcurrentUploads.

Section ConcurrentUploadsTheorem.
Import RecordingStore.
Local Open Scope Z_scope.

(** C7.  Uploads of one student against one assignment with an attempt
    limit, handled at the same time: with the attempt check made as one
    atomic conditional update of the progress row, every interleaving of
    the steps of the handlers leaves at most [max_attempts] recordings
    accepted, and none is accepted when the uploads arrive at the ceiling. *)
Theorem concurrent_uploads_within_limit
    (cfg : Config) (max_attempts : Z) (st : PairState) (uploads : list Upload)
    (schedule : list nat) (s' : System) :
  unlimited max_attempts = false ->
  consistent st ->
  attempts_used (progress st) <= max_attempts ->
  interleave ConditionalUpdate cfg max_attempts (arrivals st uploads) schedule = Some s' ->
  Z.of_nat (length (accepted (pair s'))) <= max_attempts /\
  (attempts_used (progress st) = max_attempts -> accepted (pair s') = accepted st).
Proof.
  intros Hlim Hcons Hwithin Hrun.
  apply (safe_bound max_attempts st Hcons).
  apply (interleave_safe cfg max_attempts st Hlim schedule _ _
           (arrivals_safe max_attempts st Hcons Hwithin uploads) Hrun).
Qed.

(** two uploads arrive with one attempt left and take their steps in turn:
    one is accepted as the third attempt, the other is rejected *)
Example two_uploads_one_attempt_left :
  interleave ConditionalUpdate sample_config 3
    (arrivals one_left [sample_upload; sample_upload]) [0; 1; 0; 1; 0]%nat
  = Some {| pair := {| progress := {| attempts_used := 3; completed := true |};
                       accepted := [1; 2; 3] |};
            threads := [Accepted 3; Rejected AttemptLimitExceeded] |}.
Proof. reflexivity. Qed.

Lemma concurrent_uploads_within_limit_witness :
  Z.of_nat (length [1; 2; 3]) <= 3 /\
  (attempts_used (progress one_left) = 3 -> [1; 2; 3] = accepted one_left).
Proof.
  exact (concurrent_uploads_within_limit sample_config 3 one_left
           [sample_upload; sample_upload] [0; 1; 0; 1; 0]%nat _
           eq_refl eq_refl ltac:(cbn; lia) two_uploads_one_attempt_left).
Defined.

(** The same two uploads when the check is a read of the counter and the
    increment a later write: both pass the check, and four recordings are
    accepted where three are allowed. *)
Example check_then_write_race :
  exists s', interleave CheckThenWrite sample_config 3
               (arrivals one_left [sample_upload; sample_upload])
               [0; 1; 0; 1; 0; 1; 0; 1]%nat = Some s' /\
             accepted (pair s') = [1; 2; 3; 4].
Proof. eexists. split; reflexivity. Qed.

End ConcurrentUploadsTheorem.

(** *** The flagging engine *)
Section FlagEngineFacts.
Import FlagEngine.

Lemma open_for_refresh e s t f : open_for s t (refresh e f) = open_for s t f.
Proof. unfold refresh. destruct (open_for (e_student e) (e_type e) f); reflexivity. Qed.

Lemma same_flag_refl f : same_flag f f.
Proof. unfold same_flag. repeat split. Qed.

Lemma same_flag_refresh e f : same_flag f (refresh e f).
Proof.
  unfold refresh. destruct (open_for (e_student e) (e_type e) f);
    [unfold same_flag; cbn; repeat split | apply same_flag_refl].
Qed.

Lemma same_flag_trans f g h : same_flag f g -> same_flag g h -> same_flag f h.
Proof. unfold same_flag. intuition congruence. Qed.

Lemma count_open_map_refresh e s t flags :
  count_open s t (map (refresh e) flags) = count_open s t flags.
Proof.
  unfold count_open. induction flags as [|f flags IH]; [reflexivity|].
  cbn [map List.filter]. rewrite open_for_refresh.
  destruct (open_for s t f); cbn [length]; rewrite IH; reflexivity.
Qed.

Lemma count_open_app s t l1 l2 :
  count_open s t (l1 ++ l2) = (count_open s t l1 + count_open s t l2)%nat.
Proof. unfold count_open. rewrite List.filter_app, length_app. reflexivity. Qed.

Lemma has_open_count s t flags :
  has_open s t flags = false <-> count_open s t flags = O.
Proof.
  unfold has_open, count_open. induction flags as [|f flags IH]; [split; reflexivity|].
  cbn [existsb List.filter]. destruct (open_for s t f); cbn [orb length].
  - split; discriminate.
  - exact IH.
Qed.

Lemma open_for_pair s t s' t' f :
  open_for s t f = true -> open_for s' t' f = true -> s' = s /\ t' = t.
Proof.
  unfold open_for. rewrite !andb_true_iff, !bool_decide_eq_true.
  intros [[_ <-] <-] [[_ <-] <-]. auto.
Qed.

(** recording an emission keeps the invariant *)
Lemma record_emission_at_most_one now flags e :
  at_most_one_open flags -> at_most_one_open (record_emission now flags e).
Proof.
  intros H s t. unfold record_emission.
  destruct (has_open (e_student e) (e_type e) flags) eqn:E.
  - rewrite count_open_map_refresh. apply H.
  - rewrite count_open_app. apply has_open_count in E.
    unfold count_open at 2. cbn [List.filter].
    destruct (open_for s t _) eqn:Eo; cbn [length]; [|specialize (H s t); lia].
    assert (Hpair : e_student e = s /\ e_type e = t).
    { unfold open_for in Eo. cbn [resolved student flag_type negb andb] in Eo.
      apply andb_true_iff in Eo. rewrite !bool_decide_eq_true in Eo. exact Eo. }
    destruct Hpair as [<- <-]. rewrite E. lia.
Qed.

(** resolving a flag opens none *)
Lemma count_open_resolve id notes s t flags :
  (count_open s t (resolve_flag id notes flags) <= count_open s t flags)%nat.
Proof.
  unfold count_open, resolve_flag. induction flags as [|f flags IH]; [reflexivity|].
  cbn [map List.filter]. destruct (flag_id f =? id)%nat.
  - unfold open_for at 1. cbn [resolved negb andb].
    destruct (open_for s t f); cbn [length]; lia.
  - destruct (open_for s t f); cbn [length]; lia.
Qed.

Lemma resolve_flag_at_most_one id notes flags :
  at_most_one_open flags -> at_most_one_open (resolve_flag id notes flags).
Proof.
  intros H s t. specialize (H s t).
  pose proof (count_open_resolve id notes s t flags). lia.
Qed.

(** recording an emission leaves an unresolved flag of its pair, and keeps
    the unresolved flags of every pair *)
Lemma record_emission_has_open now flags e :
  has_open (e_student e) (e_type e) (record_emission now flags e) = true.
Proof.
  unfold record_emission.
  destruct (has_open (e_student e) (e_type e) flags) eqn:E.
  - unfold has_open in *. rewrite existsb_exists in *.
    destruct E as [f [Hin Hf]]. exists (refresh e f). split; [apply in_map, Hin|].
    rewrite open_for_refresh. exact Hf.
  - unfold has_open. rewrite existsb_app. cbn [existsb]. unfold open_for at 2.
    cbn [resolved student flag_type negb andb].
    rewrite !bool_decide_eq_true_2 by reflexivity. apply orb_true_r.
Qed.

Lemma record_emission_keeps_open now flags e s t :
  has_open s t flags = true -> has_open s t (record_emission now flags e) = true.
Proof.
  intros H. unfold record_emission.
  destruct (has_open (e_student e) (e_type e) flags).
  - unfold has_open in *. rewrite existsb_exists in *.
    destruct H as [f [Hin Hf]]. exists (refresh e f). split; [apply in_map, Hin|].
    rewrite open_for_refresh. exact Hf.
  - unfold has_open in *. rewrite existsb_app, H. reflexivity.
Qed.

Lemma fold_record_keeps_open now es : forall flags s t,
  has_open s t flags = true ->
  has_open s t (fold_left (record_emission now) es flags) = true.
Proof.
  induction es as [|e es IH]; intros flags s t H; [exact H|].
  cbn [fold_left]. apply IH, record_emission_keeps_open, H.
Qed.

Lemma fold_record_has_open now es : forall flags e,
  In e es ->
  has_open (e_student e) (e_type e) (fold_left (record_emission now) es flags) = true.
Proof.
  induction es as [|e' es IH]; intros flags e Hin; [destruct Hin|].
  cbn [fold_left]. destruct Hin as [-> | Hin].
  - apply fold_record_keeps_open, record_emission_has_open.
  - apply IH, Hin.
Qed.

Lemma Forall2_same_flag_refl flags : Forall2 same_flag flags flags.
Proof. induction flags; constructor; [apply same_flag_refl | assumption]. Qed.

Lemma Forall2_same_flag_map e flags : Forall2 same_flag flags (map (refresh e) flags).
Proof. induction flags; constructor; [apply same_flag_refresh | assumption]. Qed.

Lemma Forall2_same_flag_trans l1 l2 l3 :
  Forall2 same_flag l1 l2 -> Forall2 same_flag l2 l3 -> Forall2 same_flag l1 l3.
Proof.
  intros H; revert l3. induction H as [|x y l1 l2 Hxy _ IH]; intros l3 H'.
  - inversion H'. constructor.
  - inversion H' as [|y' z l2' l3' Hyz Hrest]; subst. constructor.
    + eapply same_flag_trans; eassumption.
    + apply IH, Hrest.
Qed.

(** emissions for pairs that have an unresolved flag create no flag: the
    table keeps its flags, up to their severity and description *)
Lemma fold_record_same_flags now' es : forall flags,
  (forall e, In e es -> has_open (e_student e) (e_type e) flags = true) ->
  Forall2 same_flag flags (fold_left (record_emission now') es flags).
Proof.
  induction es as [|e es IH]; intros flags H; [apply Forall2_same_flag_refl|].
  cbn [fold_left].
  assert (He : record_emission now' flags e = map (refresh e) flags).
  { unfold record_emission. rewrite (H e (or_introl eq_refl)). reflexivity. }
  eapply Forall2_same_flag_trans; [apply (Forall2_same_flag_map e)|].
  rewrite <- He. apply IH. intros e' Hin.
  apply record_emission_keeps_open, H. right. exact Hin.
Qed.

Lemma fold_record_at_most_one now es : forall flags,
  at_most_one_open flags -> at_most_one_open (fold_left (record_emission now) es flags).
Proof.
  induction es as [|e es IH]; intros flags H; [exact H|].
  cbn [fold_left]. apply IH, record_emission_at_most_one, H.
Qed.

Lemma flags_after_at_most_one History (evaluate : History -> list Emission) actions :
  at_most_one_open (flags_after History evaluate actions).
Proof.
  unfold flags_after.
  assert (H0 : at_most_one_open []) by (intros s t; cbn; lia).
  revert H0. generalize (@nil StudentFlag).
  induction actions as [|a actions IH]; intros flags H; [exact H|].
  cbn [fold_left]. apply IH. destruct a as [now h | id notes]; cbn [act].
  - apply fold_record_at_most_one, H.
  - apply resolve_flag_at_most_one, H.
Qed.

(** C6.  At any time, that is after any history of engine runs and
    resolutions, each (student, flag type) pair has at most one unresolved
    flag, also after one more run of the engine; and a run of the engine on
    the data of the run before it creates no flag: the table keeps the same
    flags, of which only the severity and the description may have been
    brought up to date. *)
Theorem engine_never_duplicates_open_flag
    (History : Type) (evaluate : History -> list Emission)
    (actions : list (Action History)) (h : History) (now now' : string) :
  let flags := flags_after History evaluate actions in
  let once := run_engine History evaluate now h flags in
  let again := run_engine History evaluate now' h once in
  at_most_one_open flags /\
  at_most_one_open once /\
  at_most_one_open again /\
  Forall2 same_flag once again /\
  length again = length once /\
  (forall s t, has_open s t flags = true ->
               count_open s t once = 1%nat /\ count_open s t again = 1%nat).
Proof.
  cbv zeta.
  set (flags := flags_after History evaluate actions).
  set (once := run_engine History evaluate now h flags).
  set (again := run_engine History evaluate now' h once).
  assert (H0 : at_most_one_open flags) by apply flags_after_at_most_one.
  assert (H1 : at_most_one_open once) by (apply fold_record_at_most_one, H0).
  assert (H2 : at_most_one_open again) by (apply fold_record_at_most_one, H1).
  assert (Hsame : Forall2 same_flag once again).
  { apply fold_record_same_flags. intros e Hin. apply fold_record_has_open, Hin. }
  split; [exact H0|]. split; [exact H1|]. split; [exact H2|]. split; [exact Hsame|].
  split; [symmetry; eapply Forall2_length; exact Hsame|].
  intros s t Hopen.
  assert (Ho : has_open s t once = true) by (apply fold_record_keeps_open, Hopen).
  assert (Ha : has_open s t again = true) by (apply fold_record_keeps_open, Ho).
  specialize (H1 s t). specialize (H2 s t).
  destruct (count_open s t once) eqn:E1.
  - apply has_open_count in E1. congruence.
  - destruct (count_open s t again) eqn:E2.
    + apply has_open_count in E2. congruence.
    + lia.
Qed.

(** two runs of the engine on a gap of ten days, then one on fifteen: one
    flag, raised from medium to high *)
Example gap_flag_updated_in_place :
  flags_after Z gap_rule
    [RunEngine Z "2024-02-01" 10%Z; RunEngine Z "2024-02-02" 10%Z;
     RunEngine Z "2024-02-07" 15%Z]
  = [ {| flag_id := 1; student := 42; flag_type := submission_gap; severity := high;
         description := "No recording submitted recently"; resolved := false;
         resolution_notes := EmptyString; created_at := "2024-02-01" |} ].
Proof. reflexivity. Qed.

End FlagEngineFacts.

(** *** Regular expressions and the check of an email address *)
Section RegexFacts.
Import Regex.

Lemma string_app_nil_r (s : string) : (s ++ EmptyString)%string = s.
Proof.
  induction s as [|c s IH]; [reflexivity|].
  change (String c (s ++ EmptyString)%string = String c s). f_equal. exact IH.
Qed.

Lemma chars_app (a b : string) : JS.chars (a ++ b)%string = JS.chars a ++ JS.chars b.
Proof.
  induction a as [|c a IH]; [reflexivity|].
  change (c :: JS.chars (a ++ b)%string = c :: (JS.chars a ++ JS.chars b)).
  f_equal. exact IH.
Qed.

Lemma all_in_cons cls c w :
  all_in cls (String c w) <-> cls c = true /\ all_in cls w.
Proof.
  unfold all_in. simpl. split.
  - intros H. split; [apply H; left; reflexivity | intros x Hx; apply H; right; exact Hx].
  - intros [Hc H] x [<- | Hx]; [exact Hc | apply H, Hx].
Qed.

Lemma all_in_nil cls : all_in cls EmptyString.
Proof. intros c []. Qed.

(** the matcher decides the language of the pattern *)
Lemma test_language pat : forall s, test pat s = true <-> language pat s.
Proof.
  induction pat as [|[c | cls] rest IH]; intros s.
  - cbn [test language]. apply String.eqb_eq.
  - cbn [test language]. destruct s as [|c' s]; [split; [discriminate | intros (s' & H & _); discriminate]|].
    rewrite andb_true_iff, Ascii.eqb_eq, IH. split.
    + intros [-> H]. exists s. auto.
    + intros (s' & [= -> ->] & H). auto.
  - cbn [test language]. induction s as [|c' s IHs].
    + split; [discriminate|]. intros (w & s' & Hw & _ & H & _).
      destruct w; [contradiction | discriminate].
    + rewrite andb_true_iff, orb_true_iff, IH, IHs. split.
      * intros [Hc [H | (w & s' & Hw & Hall & -> & H)]].
        -- exists (String c' EmptyString), s. split; [discriminate|].
           split; [apply all_in_cons; split; [exact Hc | apply all_in_nil]|]. auto.
        -- exists (String c' w), s'. split; [discriminate|].
           split; [apply all_in_cons; auto|]. auto.
      * intros (w & s' & Hw & Hall & Hs & H). destruct w as [|a w]; [contradiction|].
        simpl in Hs. injection Hs as -> ->. apply all_in_cons in Hall. destruct Hall as [Ha Hall].
        split; [exact Ha|]. destruct w as [|b w].
        -- left. exact H.
        -- right. exists (String b w), s'. split; [discriminate|]. auto.
Qed.

End RegexFacts.

Section EmailFacts.
Import Regex EmailCheck.

Lemma occurrences_app c a b :
  occurrences c (a ++ b)%string = (occurrences c a + occurrences c b)%nat.
Proof. unfold occurrences. rewrite chars_app, List.filter_app, length_app. reflexivity. Qed.

Lemma occurrences_none c cls w :
  cls c = false -> all_in cls w -> occurrences c w = O.
Proof.
  intros Hc. unfold occurrences. induction w as [|a w IH]; intros Hall; [reflexivity|].
  apply all_in_cons in Hall. destruct Hall as [Ha Hall]. simpl.
  destruct (Ascii.eqb_spec c a) as [<- | _]; [congruence | apply IH, Hall].
Qed.

(** X3.  [isValidEmail] accepts exactly the texts made of a local part, an
    at sign, a domain, a dot and an ending, the three parts being non-empty
    and free of white space and of at signs.  So an accepted address has
    exactly one at sign and no white space; nothing more is asked of the
    parts, which may themselves hold dots. *)
Theorem isValidEmail_characterisation (email : string) :
  (isValidEmail email = true <->
     exists local domain ending,
       email = (local ++ "@" ++ domain ++ "." ++ ending)%string /\
       local <> EmptyString /\ domain <> EmptyString /\ ending <> EmptyString /\
       all_in not_space_at local /\ all_in not_space_at domain /\
       all_in not_space_at ending) /\
  (isValidEmail email = true ->
     occurrences "@" email = 1%nat /\
     forall c, In c (JS.chars email) -> is_whitespace c = false).
Proof.
  assert (Hiff : isValidEmail email = true <->
     exists local domain ending,
       email = (local ++ "@" ++ domain ++ "." ++ ending)%string /\
       local <> EmptyString /\ domain <> EmptyString /\ ending <> EmptyString /\
       all_in not_space_at local /\ all_in not_space_at domain /\
       all_in not_space_at ending).
  { unfold isValidEmail. rewrite test_language. unfold emailRegex. cbn [language]. split.
    - intros (l & s1 & Hl & Hal & -> & s2 & -> & d & s3 & Hd & Had & -> & s4 & -> &
              t & s5 & Ht & Hat & -> & ->).
      exists l, d, t. rewrite string_app_nil_r. repeat split; assumption.
    - intros (l & d & t & -> & Hl & Hd & Ht & Hal & Had & Hat).
      exists l, ("@" ++ d ++ "." ++ t)%string. repeat split; try assumption.
      eexists. split; [reflexivity|].
      exists d, ("." ++ t)%string. repeat split; try assumption.
      eexists. split; [reflexivity|].
      exists t, EmptyString. rewrite string_app_nil_r. repeat split; assumption. }
  split; [exact Hiff|].
  intros H. apply Hiff in H.
  destruct H as (l & d & t & -> & _ & _ & _ & Hal & Had & Hat). split.
  - rewrite !occurrences_app.
    rewrite (occurrences_none "@" not_space_at l), (occurrences_none "@" not_space_at d),
      (occurrences_none "@" not_space_at t) by (reflexivity || assumption).
    reflexivity.
  - intros c Hc. rewrite !chars_app in Hc.
    assert (Hpart : forall w, all_in not_space_at w -> In c (JS.chars w) ->
              is_whitespace c = false).
    { intros w Hw Hin. specialize (Hw c Hin). unfold not_space_at in Hw.
      apply andb_true_iff in Hw. destruct Hw as [Hw _]. apply negb_true_iff, Hw. }
    repeat (apply in_app_or in Hc; destruct Hc as [Hc | Hc]); eauto.
    + destruct Hc as [<- | []]. reflexivity.
    + destruct Hc as [<- | []]. reflexivity.
Qed.

Example isValidEmail_examples :
  isValidEmail "sam.reader@school.example.org" = true /\
  isValidEmail "sam@school" = false /\
  isValidEmail "sam reader@school.org" = false /\
  isValidEmail "sam@@school.org" = false /\
  isValidEmail "a@b..c" = true.
Proof. repeat split. Qed.

End EmailFacts.

(** *** The limiter of form submissions *)
Section SubmissionLimiterFacts.
Import FormSecurityUtils LimiterRules.
Local Open Scope Z_scope.

Lemma last_cons (l : list Z) : forall c d, List.last (c :: l) d = List.last l c.
Proof.
  induction l as [|z l IH]; intros c d; [reflexivity|].
  change (List.last (z :: l) d = List.last (z :: l) c). rewrite !IH. reflexivity.
Qed.

Lemma submission_run_spaced gap calls : forall last,
  spaced gap last (let_through (submission_run gap last calls)).
Proof.
  induction calls as [|now calls IH]; intros last; [exact I|].
  cbn [submission_run]. unfold submission_call.
  destruct (now - last <? gap) eqn:E.
  - change (let_through ((now, false) :: submission_run gap last calls))
      with (let_through (submission_run gap last calls)). apply IH.
  - change (let_through ((now, true) :: submission_run gap now calls))
      with (now :: let_through (submission_run gap now calls)).
    apply Z.ltb_ge in E. split; [exact E | apply IH].
Qed.

(** X1.  Of the calls that the function made by
    [createSubmissionLimiter(minInterval)] answers with [true], each comes
    at least [minInterval] milliseconds (1000 when none is given) after the
    one before it, and the first one at least that long after time 0; a
    call that is refused does not postpone the next one, since only an
    accepted call is remembered. *)
Theorem createSubmissionLimiter_spacing (minInterval : option Z) (calls : list Z) :
  spaced (minInterval_of minInterval) 0
         (let_through (createSubmissionLimiter minInterval calls)) /\
  (forall before now after,
     calls = before ++ now :: after ->
     exists last ok rest,
       createSubmissionLimiter minInterval calls
       = createSubmissionLimiter minInterval before ++ (now, ok) :: rest /\
       last = List.last (let_through (createSubmissionLimiter minInterval before)) 0 /\
       (ok = true <-> minInterval_of minInterval <= now - last)).
Proof.
  split; [apply submission_run_spaced|].
  intros before now after ->. unfold createSubmissionLimiter.
  set (gap := minInterval_of minInterval).
  assert (Hgen : forall l0 last0,
            exists ok rest,
              submission_run gap last0 (l0 ++ now :: after)
              = submission_run gap last0 l0 ++ (now, ok) :: rest /\
              (ok = true <->
               gap <= now - List.last (let_through (submission_run gap last0 l0)) last0)).
  { induction l0 as [|c l0 IH]; intros last0.
    - cbn [app submission_run]. unfold submission_call.
      destruct (now - last0 <? gap) eqn:E; eexists _, _; (split; [reflexivity|]);
        cbn [let_through List.filter map List.last].
      + apply Z.ltb_lt in E. split; [discriminate | lia].
      + apply Z.ltb_ge in E. split; [intros _; exact E | reflexivity].
    - cbn [app submission_run]. unfold submission_call.
      destruct (c - last0 <? gap).
      + destruct (IH last0) as (ok & rest & Heq & Hok). exists ok, rest.
        rewrite Heq. split; [reflexivity|]. exact Hok.
      + destruct (IH c) as (ok & rest & Heq & Hok). exists ok, rest.
        rewrite Heq. split; [reflexivity|].
        change (let_through ((c, true) :: submission_run gap c l0))
          with (c :: let_through (submission_run gap c l0)).
        rewrite Hok, last_cons. reflexivity. }
  destruct (Hgen before 0) as (ok & rest & Heq & Hok).
  exists (List.last (let_through (submission_run gap 0 before)) 0), ok, rest. auto.
Qed.

Example createSubmissionLimiter_run :
  createSubmissionLimiter None [1000; 1500; 1999; 2000; 2500; 3100]
  = [(1000, true); (1500, false); (1999, false); (2000, true); (2500, false); (3100, true)].
Proof. reflexivity. Qed.

End SubmissionLimiterFacts.

(** *** The check of an API response *)
Section APIResponseFacts.
Import APIResponse.

(** induction on a value, with the property at hand for the items of an
    array and for the values of the properties of an object *)
Lemma JSON_nested_ind (P : JSON -> Prop) :
  P JNull -> (forall b, P (JBool b)) -> (forall q, P (JNumber q)) ->
  (forall s, P (JString s)) ->
  (forall items, Forall P items -> P (JArray items)) ->
  (forall props, Forall (fun kv => P (snd kv)) props -> P (JObject props)) ->
  forall v, P v.
Proof.
  intros Hnull Hbool Hnum Hstr Harr Hobj.
  fix IH 1. intros [| b | q | s | items | props].
  - exact Hnull.
  - apply Hbool.
  - apply Hnum.
  - apply Hstr.
  - apply Harr. induction items as [|v items IHitems]; constructor; [apply IH | exact IHitems].
  - apply Hobj. induction props as [|[k v] props IHprops]; constructor;
      [apply IH | exact IHprops].
Qed.

Lemma is_dangerous_spec key : is_dangerous key = true <-> In key dangerousKeys.
Proof.
  unfold is_dangerous. rewrite existsb_exists. split.
  - intros [x [Hin Hx]]. apply String.eqb_eq in Hx. subst. exact Hin.
  - intros Hin. exists key. split; [exact Hin | apply String.eqb_refl].
Qed.

Lemma checkObject_spec v : checkObject v = true <-> ~ has_dangerous_key v.
Proof.
  induction v as [| b | q | s | items IH | props IH] using JSON_nested_ind;
    try (cbn; split; [intros _ H; inversion H | reflexivity]).
  - cbn [checkObject]. rewrite forallb_forall. rewrite List.Forall_forall in IH. split.
    + intros H Hd. inversion Hd as [| | items' v Hin Hv]; subst.
      apply (proj1 (IH v Hin) (H v Hin)). exact Hv.
    + intros H v Hin. apply IH; [exact Hin|]. intros Hv. apply H.
      eapply dangerous_in_item; eassumption.
  - cbn [checkObject]. rewrite forallb_forall. rewrite List.Forall_forall in IH. split.
    + intros H Hd. inversion Hd as [props' k v Hin Hk | props' k v Hin Hv |]; subst.
      * specialize (H (k, v) Hin). cbn [fst snd] in H. apply andb_true_iff in H.
        destruct H as [H _]. apply is_dangerous_spec in Hk. rewrite Hk in H. discriminate.
      * specialize (H (k, v) Hin). cbn [fst snd] in H. apply andb_true_iff in H.
        destruct H as [_ H].
        apply (proj1 (IH (k, v) Hin) H). exact Hv.
    + intros H [k v] Hin. cbn [fst snd]. apply andb_true_iff. split.
      * apply negb_true_iff. destruct (is_dangerous k) eqn:E; [|reflexivity].
        exfalso. apply H. apply is_dangerous_spec in E. eapply dangerous_here; eassumption.
      * apply (IH (k, v) Hin). intros Hv. apply H. eapply dangerous_in_prop; eassumption.
Qed.

(** X2.  [validateAPIResponse] answers [true] exactly when no object inside
    the response, at any depth and also inside arrays, has a property named
    [__proto__], [constructor] or [prototype]. *)
Theorem validateAPIResponse_characterisation (response : JSON) :
  validateAPIResponse response = true <-> ~ has_dangerous_key response.
Proof.
  destruct response; try apply checkObject_spec;
    (split; [intros _ H; inversion H | reflexivity]).
Qed.

Example validateAPIResponse_examples :
  validateAPIResponse
    (JObject [("results", JArray [JObject [("id", JNumber 1); ("name", JString "constructor")]])])
  = true /\
  validateAPIResponse
    (JObject [("results", JArray [JObject [("id", JNumber 1); ("__proto__", JObject [])]])])
  = false.
Proof. split; reflexivity. Qed.

End APIResponseFacts.

(** *** The CSRF token and the security headers *)
Section CSRFFacts.
Import CSRF.

(** the first piece of a text split at the equals sign: it holds no equals
    sign, and the text starts with it *)
Lemma split_eq_first x : forall cur,
  exists p rest,
    split_go "=" 0 cur x = (cur ++ p)%string :: rest /\
    free_of "=" p /\ JS.startsWith x p = true.
Proof.
  induction x as [|c x IH]; intros cur.
  - exists EmptyString, []. cbn [split_go]. rewrite string_app_nil_r.
    split; [reflexivity|]. split; [intros [] | reflexivity].
  - cbn [split_go]. destruct (JS.startsWith (String c x) "=") eqn:E.
    + exists EmptyString, (split_go "=" (String.length "=" - 1) EmptyString x).
      rewrite string_app_nil_r. split; [reflexivity|]. split; [intros [] | reflexivity].
    + destruct (IH (cur ++ String c EmptyString)%string) as (p & rest & Heq & Hfree & Hstart).
      exists (String c p), rest. split; [|split].
      * rewrite Heq. f_equal. clear. induction cur as [|a cur IHc]; [reflexivity|].
        change (String a ((cur ++ String c EmptyString) ++ p)%string
                = String a (cur ++ String c p)%string). f_equal. exact IHc.
      * intros [-> | Hin]; [|exact (Hfree Hin)].
        cbn in E. destruct x; discriminate.
      * cbn [JS.startsWith]. rewrite Ascii.eqb_refl. exact Hstart.
Qed.

Lemma startsWith_nil s : JS.startsWith s EmptyString = true.
Proof. destruct s; reflexivity. Qed.

Lemma split_csrftoken x :
  split "=" ("csrftoken=" ++ x)%string = "csrftoken" :: split_go "=" 0 EmptyString x.
Proof.
  unfold split.
  change ("csrftoken=" ++ x)%string
    with (String "c" (String "s" (String "r" (String "f" (String "t" (String "o"
           (String "k" (String "e" (String "n" (String "=" x)))))))))).
  cbn [split_go JS.startsWith Ascii.eqb Bool.eqb andb String.append String.length Nat.sub].
  rewrite startsWith_nil. reflexivity.
Qed.

Lemma cookieValue_spec doc v :
  cookieValue doc = Some v ->
  free_of "=" v /\
  exists row, In row (split "; " (cookie doc)) /\
              JS.startsWith row ("csrftoken=" ++ v)%string = true.
Proof.
  unfold cookieValue.
  destruct (List.find _ (split "; " (cookie doc))) as [row|] eqn:E; [|discriminate].
  apply find_some in E. destruct E as [Hin Hstart].
  apply startsWith_spec in Hstart. destruct Hstart as [x ->].
  intros H. rewrite split_csrftoken in H. cbn [nth_error] in H.
  destruct (split_eq_first x EmptyString) as (p & rest & Heq & Hfree & Hp).
  rewrite Heq in H. cbn [nth_error] in H. injection H as <-.
  change (EmptyString ++ p)%string with p.
  split; [exact Hfree|]. exists ("csrftoken=" ++ x)%string. split; [exact Hin|].
  apply startsWith_spec. apply startsWith_spec in Hp. destruct Hp as [post ->].
  exists post. reflexivity.
Qed.

Lemma truthy_Some x : JS.truthy x = true <-> exists v, x = Some v /\ v <> EmptyString.
Proof.
  destruct x as [v|]; cbn.
  - rewrite negb_true_iff. destruct (String.eqb_spec v EmptyString) as [-> | Hne].
    + split; [discriminate | intros (v & [= <-] & H); contradiction].
    + split; [eauto | reflexivity].
  - split; [discriminate | intros (v & H & _); discriminate].
Qed.

Lemma or_null_not_empty x : or_null x <> Some EmptyString.
Proof.
  destruct x as [v|]; unfold or_null; cbn; [|discriminate].
  destruct (String.eqb_spec v EmptyString); cbn; congruence.
Qed.

Lemma getCSRFToken_not_empty doc : getCSRFToken doc <> Some EmptyString.
Proof.
  unfold getCSRFToken. destruct (JS.truthy (cookieValue doc)) eqn:E; [|apply or_null_not_empty].
  apply truthy_Some in E. destruct E as (v & -> & Hv). congruence.
Qed.

Lemma or_null_match x :
  or_null x = match x with
              | Some c => if String.eqb c EmptyString then None else Some c
              | None => None
              end.
Proof. destruct x as [c|]; unfold or_null; cbn; [|reflexivity]. destruct (String.eqb c EmptyString); reflexivity. Qed.

Lemma string_app_snoc cur c p :
  ((cur ++ String c EmptyString) ++ p)%string = (cur ++ String c p)%string.
Proof.
  induction cur as [|a cur IH]; [reflexivity|].
  change (String a ((cur ++ String c EmptyString) ++ p)%string
          = String a (cur ++ String c p)%string). f_equal. exact IH.
Qed.

Lemma separator_free row :
  ~ JS.occurs_in "; " row <-> JS.includes row "; " = false.
Proof. rewrite <- includes_spec. destruct (JS.includes row "; "); split; congruence. Qed.

(** whether a text starts with the separator is read off its first two
    characters *)
Lemma startsWith_separator c x :
  JS.startsWith (String c x) "; "
  = Ascii.eqb ";" c && match x with
                       | EmptyString => false
                       | String d _ => Ascii.eqb " " d
                       end.
Proof.
  cbn [JS.startsWith]. destruct x as [|d x]; [reflexivity|].
  cbn [JS.startsWith]. rewrite startsWith_nil, andb_true_r. reflexivity.
Qed.

Lemma includes_cons c p :
  JS.includes (String c p) "; " = false ->
  JS.startsWith (String c p) "; " = false /\ JS.includes p "; " = false.
Proof. cbn [JS.includes]. apply orb_false_iff. Qed.

(** reading a piece that holds no separator, up to the end of the text *)
Lemma split_go_end p : forall cur,
  JS.includes p "; " = false -> split_go "; " 0 cur p = [(cur ++ p)%string].
Proof.
  induction p as [|c p IH]; intros cur Hp.
  - cbn [split_go]. rewrite string_app_nil_r. reflexivity.
  - apply includes_cons in Hp as [Hs Hp]. cbn [split_go]. rewrite Hs.
    rewrite (IH _ Hp), string_app_snoc. reflexivity.
Qed.

(** reading a piece that holds no separator, up to the next separator *)
Lemma split_go_separator p : forall cur s,
  JS.includes p "; " = false ->
  split_go "; " 0 cur (p ++ "; " ++ s)
  = (cur ++ p)%string :: split_go "; " 0 EmptyString s.
Proof.
  induction p as [|c p IH]; intros cur s Hp.
  - change (EmptyString ++ "; " ++ s)%string with (String ";" (String " " s)).
    cbn [split_go]. rewrite startsWith_separator. cbn [Ascii.eqb Bool.eqb andb].
    cbn [String.length Nat.sub split_go]. rewrite string_app_nil_r. reflexivity.
  - apply includes_cons in Hp as [Hs Hp].
    change (String c p ++ "; " ++ s)%string with (String c (p ++ "; " ++ s)%string).
    cbn [split_go].
    assert (Hs' : JS.startsWith (String c (p ++ "; " ++ s)%string) "; " = false).
    { rewrite startsWith_separator in *. destruct p as [|d p].
      - change (EmptyString ++ "; " ++ s)%string with (String ";" (String " " s)).
        cbn [Ascii.eqb Bool.eqb]. apply andb_false_r.
      - exact Hs. }
    rewrite Hs', (IH _ _ Hp), string_app_snoc. reflexivity.
Qed.

(** [split] gives back the entries of a cookie string, whichever they are *)
Lemma split_entries s rows : entries s rows -> split "; " s = rows.
Proof.
  intros (Hne & <- & HF). unfold split.
  destruct rows as [|p rest]; [contradiction|]. clear Hne.
  revert p HF. induction rest as [|q rest IH]; intros p HF;
    apply List.Forall_cons_iff in HF as [Hp HF]; apply separator_free in Hp.
  - cbn [join]. apply (split_go_end p EmptyString Hp).
  - change (join "; " (p :: q :: rest)) with (p ++ "; " ++ join "; " (q :: rest))%string.
    rewrite (split_go_separator p EmptyString _ Hp). f_equal. apply IH, HF.
Qed.

Lemma join_cons_head c p rest :
  join "; " (String c p :: rest) = String c (join "; " (p :: rest)).
Proof. destruct rest; reflexivity. Qed.

(** every cookie string has its entries *)
Lemma entries_exist s : exists rows, entries s rows.
Proof.
  unfold entries. induction s as [|c s IH].
  - exists [EmptyString]. split; [discriminate|]. split; [reflexivity|].
    constructor; [apply separator_free; reflexivity | constructor].
  - destruct IH as (rows & Hne & Hj & HF).
    destruct rows as [|p rest]; [contradiction|].
    apply List.Forall_cons_iff in HF as [Hp HF]. apply separator_free in Hp.
    destruct (JS.startsWith (String c s) "; ") eqn:E.
    + rewrite startsWith_separator in E. apply andb_true_iff in E as [Ec Ed].
      apply Ascii.eqb_eq in Ec. subst c.
      destruct s as [|d s]; [discriminate|]. apply Ascii.eqb_eq in Ed. subst d.
      destruct p as [|a q].
      * exfalso. destruct rest; cbn in Hj; discriminate.
      * rewrite join_cons_head in Hj. injection Hj as -> Hj.
        exists (EmptyString :: q :: rest). split; [discriminate|]. split.
        -- change (join "; " (EmptyString :: q :: rest))
             with (String ";" (String " " (join "; " (q :: rest)))).
           exact (f_equal (fun x => String ";" (String " " x)) Hj).
        -- constructor; [apply separator_free; reflexivity|].
           constructor; [|exact HF]. apply separator_free.
           apply includes_cons in Hp. apply Hp.
    + exists (String c p :: rest). split; [discriminate|]. split.
      * rewrite join_cons_head, Hj. reflexivity.
      * constructor; [|exact HF]. apply separator_free.
        cbn [JS.includes]. rewrite Hp, orb_false_r.
        rewrite startsWith_separator in *.
        destruct p as [|a q]; [apply andb_false_r|].
        rewrite join_cons_head in Hj. rewrite <- Hj in E. exact E.
Qed.

Lemma names_token_startsWith row :
  names_token row <-> JS.startsWith row "csrftoken=" = true.
Proof. unfold names_token. rewrite startsWith_spec. reflexivity. Qed.

Lemma find_no_token rows :
  List.Forall (fun row => ~ names_token row) rows ->
  List.find (fun row => JS.startsWith row "csrftoken=") rows = None.
Proof.
  induction 1 as [|row rows Hrow _ IH]; [reflexivity|].
  cbn [List.find]. destruct (JS.startsWith row "csrftoken=") eqn:E; [|exact IH].
  apply names_token_startsWith in E. contradiction.
Qed.

Lemma find_first_token before row after :
  List.Forall (fun r => ~ names_token r) before -> names_token row ->
  List.find (fun r => JS.startsWith r "csrftoken=") (before ++ row :: after) = Some row.
Proof.
  intros HF Hrow. induction HF as [|r before Hr _ IH]; cbn [List.find app].
  - apply names_token_startsWith in Hrow. rewrite Hrow. reflexivity.
  - destruct (JS.startsWith r "csrftoken=") eqn:E; [|exact IH].
    apply names_token_startsWith in E. contradiction.
Qed.

(** the piece that [split] reads up to the first equals sign *)
Lemma split_go_first_piece t : forall cur rest,
  free_of "=" t ->
  rest = EmptyString \/ (exists rest', rest = ("=" ++ rest')%string) ->
  exists more, split_go "=" 0 cur (t ++ rest) = (cur ++ t)%string :: more.
Proof.
  induction t as [|c t IH]; intros cur rest Hfree Hrest.
  - rewrite string_app_nil_r. destruct Hrest as [-> | [rest' ->]].
    + exists []. reflexivity.
    + change (EmptyString ++ "=" ++ rest')%string with (String "=" rest').
      cbn [split_go JS.startsWith]. rewrite startsWith_nil. cbn [Ascii.eqb Bool.eqb andb].
      eexists. reflexivity.
  - change (String c t ++ rest)%string with (String c (t ++ rest)%string).
    cbn [split_go JS.startsWith].
    assert (Hc : Ascii.eqb "=" c = false).
    { apply Ascii.eqb_neq. intros <-. apply Hfree. left. reflexivity. }
    rewrite Hc. cbn [andb].
    destruct (IH (cur ++ String c EmptyString)%string rest) as [more Hm].
    + intros Hin. apply Hfree. right. exact Hin.
    + exact Hrest.
    + exists more. rewrite Hm, string_app_snoc. reflexivity.
Qed.

Lemma entry_token_split row t :
  entry_token row t -> nth_error (split "=" row) 1 = Some t.
Proof.
  intros (rest & -> & Hfree & Hrest). rewrite split_csrftoken.
  destruct (split_go_first_piece t EmptyString rest Hfree Hrest) as [more ->].
  reflexivity.
Qed.

Lemma entry_token_names row t : entry_token row t -> names_token row.
Proof. intros (rest & -> & _). eexists. reflexivity. Qed.

(** X4.  [getCSRFToken] never answers the empty text.  It reads the
    entries of the cookie string, the texts between the separators made of
    a semicolon and a space, and takes the first entry that starts with
    [csrftoken=]; the token is the text of that entry after [csrftoken=],
    up to the next equals sign or to the end of the entry.  When that token
    is not empty it is the answer.  When it is empty, or no entry starts
    with [csrftoken=], the answer is the [content] of the [meta] element,
    and [null] when there is no such element or its [content] is empty. *)
Theorem getCSRFToken_result (doc : Document) :
  let meta :=
    match csrf_meta doc with
    | Some c => if String.eqb c EmptyString then None else Some c
    | None => None
    end in
  getCSRFToken doc <> Some EmptyString /\
  (exists rows, entries (cookie doc) rows) /\
  (forall rows, entries (cookie doc) rows ->
     (List.Forall (fun row => ~ names_token row) rows -> getCSRFToken doc = meta) /\
     (forall before row after t,
        rows = before ++ row :: after ->
        List.Forall (fun r => ~ names_token r) before ->
        entry_token row t ->
        getCSRFToken doc = if String.eqb t EmptyString then meta else Some t)).
Proof.
  cbv zeta. split; [apply getCSRFToken_not_empty|]. split; [apply entries_exist|].
  intros rows Hrows. apply split_entries in Hrows.
  unfold getCSRFToken, cookieValue. rewrite Hrows, <- or_null_match. split.
  - intros HF. rewrite (find_no_token rows HF). reflexivity.
  - intros before row after t -> HF Ht.
    rewrite (find_first_token before row after HF (entry_token_names row t Ht)).
    rewrite (entry_token_split row t Ht). cbn [JS.truthy].
    destruct (String.eqb t EmptyString); reflexivity.
Qed.

(** a token is taken from the first entry that names one, also when a
    later entry names another *)
Example getCSRFToken_first_entry :
  entries "a=1; csrftoken=; csrftoken=late" ["a=1"; "csrftoken="; "csrftoken=late"] /\
  entry_token "csrftoken=" EmptyString /\
  getCSRFToken (mkDocument "a=1; csrftoken=; csrftoken=late" (Some "fromMeta"))
  = Some "fromMeta".
Proof.
  split; [|split; [|reflexivity]].
  - split; [discriminate|]. split; [reflexivity|].
    repeat constructor; apply separator_free; reflexivity.
  - exists EmptyString. split; [reflexivity|]. split; [intros [] | left; reflexivity].
Qed.

Example getCSRFToken_examples :
  getCSRFToken (mkDocument "sessionid=abc; csrftoken=Zx81kq; theme=dark" (Some "fromMeta"))
  = Some "Zx81kq" /\
  getCSRFToken (mkDocument "sessionid=abc; csrftoken=Zx81==; theme=dark" None)
  = Some "Zx81" /\
  getCSRFToken (mkDocument "sessionid=abc; csrftoken=" (Some "fromMeta")) = Some "fromMeta" /\
  getCSRFToken (mkDocument "sessionid=abc" (Some EmptyString)) = None.
Proof. repeat split. Qed.

(** X5.  [addSecurityHeaders] always sends [Content-Type: application/json]
    and [X-Requested-With: XMLHttpRequest], whatever the caller passed under
    these names; it sets [X-CSRFToken] to the token when there is one and
    leaves the caller's value otherwise; every other header of the caller
    is kept as it is. *)
Theorem addSecurityHeaders_headers (doc : Document) (headers : gmap string string) :
  let result := addSecurityHeaders doc headers in
  result !! "Content-Type" = Some "application/json" /\
  result !! "X-Requested-With" = Some "XMLHttpRequest" /\
  result !! "X-CSRFToken"
  = match getCSRFToken doc with
    | Some token => Some token
    | None => headers !! "X-CSRFToken"
    end /\
  (forall name, name <> "Content-Type" -> name <> "X-Requested-With" ->
                name <> "X-CSRFToken" -> result !! name = headers !! name).
Proof.
  cbv zeta. unfold addSecurityHeaders.
  pose proof (getCSRFToken_not_empty doc) as Hne.
  destruct (getCSRFToken doc) as [token|] eqn:E.
  - assert (Ht : JS.truthy (Some token) = true).
    { apply truthy_Some. exists token. split; [reflexivity|]. congruence. }
    rewrite Ht. cbn [JS.template]. repeat split.
    + rewrite lookup_insert_ne by discriminate. rewrite lookup_insert_ne by discriminate.
      apply lookup_insert_eq.
    + rewrite lookup_insert_ne by discriminate. apply lookup_insert_eq.
    + apply lookup_insert_eq.
    + intros name H1 H2 H3. rewrite !lookup_insert_ne by congruence. reflexivity.
  - cbn [JS.truthy]. repeat split.
    + rewrite lookup_insert_ne by discriminate. apply lookup_insert_eq.
    + apply lookup_insert_eq.
    + rewrite !lookup_insert_ne by discriminate. reflexivity.
    + intros name H1 H2 H3. rewrite !lookup_insert_ne by congruence. reflexivity.
Qed.

End CSRFFacts.

(** *** Clearing the sensitive data *)
Section StorageFacts.
Import StorageSecurityUtils.

Lemma clearSensitiveData_unfold st :
  clearSensitiveData st
  = {| localStorage :=
         delete "session_data" (delete "user_data" (delete "auth_token" (localStorage st)));
       sessionStorage :=
         delete "session_data" (delete "user_data" (delete "auth_token" (sessionStorage st))) |}.
Proof. reflexivity. Qed.

(** X6.  [clearSensitiveData] removes the keys [auth_token], [user_data] and
    [session_data] from both storages and touches no other key.  The token
    of the login flow sits under [authToken], which is not among them: the
    header that the requests carry is the same before and after. *)
Theorem clearSensitiveData_effect (st : Storages) :
  (forall key, In key sensitiveKeys ->
     localStorage (clearSensitiveData st) !! key = None /\
     sessionStorage (clearSensitiveData st) !! key = None) /\
  (forall key, ~ In key sensitiveKeys ->
     localStorage (clearSensitiveData st) !! key = localStorage st !! key /\
     sessionStorage (clearSensitiveData st) !! key = sessionStorage st !! key) /\
  Auth.getItem "authToken" (localStorage (clearSensitiveData st))
  = Auth.getItem "authToken" (localStorage st) /\
  Auth.request_authorization (localStorage (clearSensitiveData st))
  = Auth.request_authorization (localStorage st).
Proof.
  rewrite clearSensitiveData_unfold. cbn [localStorage sessionStorage].
  assert (Hkeep : forall (m : gmap string string) key, ~ In key sensitiveKeys ->
            delete "session_data" (delete "user_data" (delete "auth_token" m)) !! key
            = m !! key).
  { intros m key Hk. unfold sensitiveKeys in Hk. cbn [In] in Hk.
    rewrite !lookup_delete_ne by (intros <-; tauto). reflexivity. }
  assert (Hgone : forall (m : gmap string string) key, In key sensitiveKeys ->
            delete "session_data" (delete "user_data" (delete "auth_token" m)) !! key
            = None).
  { intros m key [<- | [<- | [<- | []]]].
    - rewrite !lookup_delete_ne by discriminate. apply lookup_delete_eq.
    - rewrite lookup_delete_ne by discriminate. apply lookup_delete_eq.
    - apply lookup_delete_eq. }
  assert (Hauth : ~ In "authToken" sensitiveKeys).
  { cbn. intros [H | [H | [H | []]]]; discriminate. }
  split; [intros key Hk; split; apply Hgone, Hk|].
  split; [intros key Hk; split; apply Hkeep, Hk|].
  split; [apply Hkeep, Hauth|].
  unfold Auth.request_authorization, Auth.getItem. rewrite (Hkeep _ _ Hauth). reflexivity.
Qed.

End StorageFacts.

(** *** More on the review component *)
Section ReviewViewsFacts.
Import Types RecordingReviewComponent RecordingReviewViews.

(** the submit button and the requests in flight *)
Lemma step_one_in_flight m e m' :
  (submitLoading (ui m) = true <-> inflight m <> []) -> (length (inflight m) <= 1)%nat ->
  step m e = Some m' ->
  (submitLoading (ui m') = true <-> inflight m' <> []) /\ (length (inflight m') <= 1)%nat.
Proof.
  intros Hiff Hlen H.
  assert (Hsame : forall m1, submitLoading (ui m1) = submitLoading (ui m) ->
            inflight m1 = inflight m ->
            (submitLoading (ui m1) = true <-> inflight m1 <> []) /\
            (length (inflight m1) <= 1)%nat).
  { intros m1 -> ->. auto. }
  assert (Hform : forall f m1, change_form f m = Some m1 ->
            (submitLoading (ui m1) = true <-> inflight m1 <> []) /\
            (length (inflight m1) <= 1)%nat).
  { intros f m1. unfold change_form. destruct (dialog_open m); [|discriminate].
    intros [= <-]. apply Hsame; reflexivity. }
  destruct e; cbn [step] in H.
  - destruct (pendingRecordings (ui m) !! card); [|discriminate].
    injection H as <-. apply Hsame; reflexivity.
  - destruct (reviewedCards (ui m) !! card); [|discriminate].
    injection H as <-. apply Hsame; reflexivity.
  - destruct (dialog_open m); [|discriminate]. injection H as <-. apply Hsame; reflexivity.
  - destruct (score_option v); [eauto | discriminate].
  - destruct (score_option v); [eauto | discriminate].
  - eauto.
  - eauto.
  - destruct (dialog_open m); [|discriminate]. cbn [andb] in H.
    unfold submit_disabled in H.
    destruct (submitLoading (ui m)) eqn:El; [discriminate|]. cbn [orb] in H.
    destruct (negb (trim_is_empty (feedback (reviewForm (ui m))))); [|discriminate].
    unfold handleSubmitReview_send in H.
    destruct (selectedRecording (ui m)); [|discriminate]. injection H as <-. cbn.
    assert (Hnil : inflight m = []).
    { destruct (inflight m) as [|c l]; [reflexivity|].
      assert (false = true) by (apply Hiff; discriminate). discriminate. }
    rewrite Hnil. cbn. split; [split; [discriminate | reflexivity] | lia].
  - destruct (inflight m !! k) as [c|] eqn:E; [|discriminate]. injection H as <-.
    destruct (inflight m) as [|c0 [|c1 l]]; [discriminate | | cbn in Hlen; lia].
    destruct k as [|k]; [|destruct k; discriminate].
    destruct o; cbn; (split; [split; [discriminate | congruence] | lia]).
Qed.

Lemma steps_one_in_flight es : forall m m',
  (submitLoading (ui m) = true <-> inflight m <> []) -> (length (inflight m) <= 1)%nat ->
  steps m es = Some m' ->
  (submitLoading (ui m') = true <-> inflight m' <> []) /\ (length (inflight m') <= 1)%nat.
Proof.
  induction es as [|e es IH]; intros m m' Hiff Hlen H; cbn [steps] in H.
  - injection H as <-. auto.
  - destruct (step m e) as [m1|] eqn:E; [|discriminate].
    destruct (step_one_in_flight m e m1 Hiff Hlen E) as [H1 H2]. eapply IH; eassumption.
Qed.

(** X7.  The review component never has two submissions in flight: the
    submit button is disabled from the moment a review is sent until its
    answer has come, whatever else the teacher does in between (closing the
    dialog, opening another recording, editing the form). *)
Theorem review_single_submission (results : list Recording.t) (m : Machine) :
  reachable results m ->
  (length (inflight m) <= 1)%nat /\
  (submitLoading (ui m) = true <-> inflight m <> []) /\
  (inflight m <> [] -> step m SubmitForm = None).
Proof.
  intros [es H].
  assert (H0 : submitLoading (ui (loaded results)) = true <-> inflight (loaded results) <> []).
  { cbn. split; [discriminate | congruence]. }
  destruct (steps_one_in_flight es _ _ H0 (Nat.le_0_l 1) H) as [Hiff Hlen].
  split; [exact Hlen|]. split; [exact Hiff|].
  intros Hne. apply Hiff in Hne. cbn [step]. unfold submit_disabled. rewrite Hne.
  cbn [orb negb]. rewrite andb_false_r. reflexivity.
Qed.

Lemma review_single_submission_witness :
  (length (inflight sample_submitted) <= 1)%nat /\
  (submitLoading (ui sample_submitted) = true <-> inflight sample_submitted <> []) /\
  (inflight sample_submitted <> [] -> step sample_submitted SubmitForm = None).
Proof.
  apply (review_single_submission [sample_recording]).
  exists (take 5 sample_review). reflexivity.
Defined.

Lemma step_error_stays m e m' :
  step m e = Some m' -> error_shown m -> error_shown m'.
Proof.
  unfold error_shown. intros H Herr.
  assert (Hform : forall f m1, change_form f m = Some m1 -> error (ui m1) <> EmptyString).
  { intros f m1. unfold change_form. destruct (dialog_open m); [|discriminate].
    intros [= <-]. exact Herr. }
  destruct e; cbn [step] in H.
  - destruct (pendingRecordings (ui m) !! card); [|discriminate]. injection H as <-. exact Herr.
  - destruct (reviewedCards (ui m) !! card); [|discriminate]. injection H as <-. exact Herr.
  - destruct (dialog_open m); [|discriminate]. injection H as <-. exact Herr.
  - destruct (score_option v); [eauto | discriminate].
  - destruct (score_option v); [eauto | discriminate].
  - eauto.
  - eauto.
  - destruct (dialog_open m && negb (submit_disabled (ui m))); [|discriminate].
    unfold handleSubmitReview_send in H.
    destruct (selectedRecording (ui m)); [|discriminate]. injection H as <-. exact Herr.
  - destruct (inflight m !! k); [|discriminate]. injection H as <-.
    destruct o; cbn; [exact Herr | discriminate].
Qed.

(** X8.  When the server refuses a review, the component shows its error
    message and keeps the dialog open with the recording and the form as
    they were, so that the review can be sent again; and an error message,
    once shown, is never taken away again, not even by a review that is
    accepted later. *)
Theorem review_error_stays (m : Machine) (es : list Event) (m' : Machine) :
  steps m es = Some m' ->
  error_shown m ->
  error_shown m' /\
  (forall c st,
     let st' := handleSubmitReview_settle c Rejected st in
     error st' <> EmptyString /\ selectedRecording st' = selectedRecording st /\
     reviewForm st' = reviewForm st /\ recordings st' = recordings st).
Proof.
  intros H Herr. split.
  - revert m H Herr. induction es as [|e es IH]; intros m H Herr; cbn [steps] in H.
    + injection H as <-. exact Herr.
    + destruct (step m e) as [m1|] eqn:E; [|discriminate].
      apply (IH m1 H). eapply step_error_stays; eassumption.
  - intros c st. cbn. repeat split. discriminate.
Qed.

Lemma review_error_stays_witness :
  error_shown sample_refused_then_accepted /\
  (forall c st,
     let st' := handleSubmitReview_settle c Rejected st in
     error st' <> EmptyString /\ selectedRecording st' = selectedRecording st /\
     reviewForm st' = reviewForm st /\ recordings st' = recordings st).
Proof.
  apply (review_error_stays sample_refused [SubmitForm; Settle 0 Resolved]).
  - reflexivity.
  - unfold error_shown. cbn. discriminate.
Defined.

Lemma ids_evolved l0 l :
  Forall2 evolved l0 l -> map Recording.id l = map Recording.id l0.
Proof.
  induction 1 as [|r0 r l0 l (Hid & _) _ IH]; [reflexivity|].
  cbn [map]. rewrite Hid, IH. reflexivity.
Qed.

Lemma update_reviewed_other sel form l :
  (forall r, In r l -> Recording.id r <> Recording.id sel) ->
  update_reviewed sel form l = l.
Proof.
  intros H. unfold update_reviewed. induction l as [|a l IH]; [reflexivity|].
  cbn [map]. rewrite (proj2 (Z.eqb_neq _ _)) by (apply H; left; reflexivity).
  f_equal. apply IH. intros r Hr. apply H. right. exact Hr.
Qed.

(** the update after an accepted review moves exactly one card *)
Lemma update_reviewed_counts sel form l r :
  List.NoDup (map Recording.id l) -> In r l ->
  Recording.id r = Recording.id sel -> Recording.status r = pending ->
  S (length (List.filter (has_status pending) (update_reviewed sel form l)))
  = length (List.filter (has_status pending) l) /\
  length (List.filter (has_status reviewed) (update_reviewed sel form l))
  = S (length (List.filter (has_status reviewed) l)).
Proof.
  induction l as [|a l IH]; intros Hnd Hin Hid Hst; [destruct Hin|].
  cbn [map] in Hnd. apply List.NoDup_cons_iff in Hnd. destruct Hnd as [Hnotin Hnd].
  destruct (Z.eq_dec (Recording.id a) (Recording.id sel)) as [Ha | Ha].
  - assert (Hrest : forall x, In x l -> Recording.id x <> Recording.id sel).
    { intros x Hx Heq. apply Hnotin. rewrite Ha, <- Heq. apply in_map, Hx. }
    assert (a = r) as ->.
    { destruct Hin as [<- | Hin]; [reflexivity|]. exfalso. apply (Hrest r Hin Hid). }
    change (update_reviewed sel form (r :: l))
      with ((if (Recording.id r =? Recording.id sel)%Z
             then spread_reviewed (feedback form) r else r) :: update_reviewed sel form l).
    rewrite (proj2 (Z.eqb_eq _ _) Ha), (update_reviewed_other sel form l Hrest).
    assert (E1 : has_status pending (spread_reviewed (feedback form) r) = false)
      by (apply bool_decide_eq_false_2; discriminate).
    assert (E2 : has_status reviewed (spread_reviewed (feedback form) r) = true)
      by (apply bool_decide_eq_true_2; reflexivity).
    assert (E3 : has_status pending r = true)
      by (apply bool_decide_eq_true_2; exact Hst).
    assert (E4 : has_status reviewed r = false)
      by (apply bool_decide_eq_false_2; rewrite Hst; discriminate).
    cbn [List.filter]. rewrite E1, E2, E3, E4. cbn [length]. auto.
  - destruct Hin as [-> | Hin]; [contradiction|].
    destruct (IH Hnd Hin Hid Hst) as [IH1 IH2].
    change (update_reviewed sel form (a :: l))
      with ((if (Recording.id a =? Recording.id sel)%Z
             then spread_reviewed (feedback form) a else a) :: update_reviewed sel form l).
    rewrite (proj2 (Z.eqb_neq _ _) Ha). cbn [List.filter].
    destruct (has_status pending a), (has_status reviewed a); cbn [length]; lia.
Qed.

(** X9.  When the review of a pending recording is accepted, the header of
    the component counts one pending review less and one completed review
    more (the recordings being loaded under distinct ids): exactly that one
    card moves from the pending list to the reviewed list. *)
Theorem review_accepted_moves_one_card
    (results : list Recording.t) (m : Machine) (k : nat) (c : Submission)
    (r : Recording.t) (m' : Machine) :
  List.NoDup (map Recording.id results) ->
  reachable results m ->
  inflight m !! k = Some c ->
  In r (recordings (ui m)) ->
  Recording.id r = Recording.id (fst c) ->
  Recording.status r = pending ->
  step m (Settle k Resolved) = Some m' ->
  S (pending_count m') = pending_count m /\
  completed_count m' = S (completed_count m) /\
  length (recordings (ui m')) = length (recordings (ui m)).
Proof.
  intros Hnd Hreach Hk Hin Hid Hst Hstep.
  pose proof (reachable_Inv results Hnd m Hreach) as (Hev & _ & _).
  assert (Hnd' : List.NoDup (map Recording.id (recordings (ui m))))
    by (rewrite (ids_evolved _ _ Hev); exact Hnd).
  cbn [step] in Hstep. rewrite Hk in Hstep. injection Hstep as <-.
  unfold pending_count, completed_count, pendingRecordings, reviewedRecordings. cbn.
  destruct (update_reviewed_counts (fst c) (snd c) _ r Hnd' Hin Hid Hst) as [H1 H2].
  split; [exact H1|]. split; [exact H2|]. unfold update_reviewed. apply length_map.
Qed.

Lemma review_accepted_moves_one_card_witness :
  S (pending_count sample_reviewed) = pending_count sample_submitted /\
  completed_count sample_reviewed = S (completed_count sample_submitted) /\
  length (recordings (ui sample_reviewed)) = length (recordings (ui sample_submitted)).
Proof.
  apply (review_accepted_moves_one_card [sample_recording] sample_submitted 0
           (sample_recording, mkForm "Good pacing" good 4 3) sample_recording).
  - repeat constructor. intros [].
  - exists (take 5 sample_review). reflexivity.
  - reflexivity.
  - left. reflexivity.
  - reflexivity.
  - reflexivity.
  - reflexivity.
Defined.

End ReviewViewsFacts.


(** *** The uploads of the story reader *)
Section StoryReaderUploadFacts.
Import Types StoryReader StoryReaderUploads.

Lemma submitted_cons e es : submitted (e :: es) = submitted [e] ++ submitted es.
Proof. unfold submitted. cbn [flat_map]. rewrite app_nil_r. reflexivity. Qed.

Lemma step_free p m e m' sent :
  assignment p = None -> step p m e = Some (m', sent) ->
  sent = [] /\ (uploading m' <= uploading m)%nat.
Proof.
  intros Hp H.
  destruct e; cbn [step] in H;
    unfold handleRecordingComplete_send in H; rewrite ?Hp in H.
  - destruct (negb (showRecording (ui m)) && negb (isPlaying (ui m))); [|discriminate].
    destruct started; injection H as <- <-; cbn; auto.
  - destruct (negb (showRecording (ui m)) && isPlaying (ui m)); [|discriminate].
    injection H as <- <-; cbn; auto.
  - destruct (negb (showRecording (ui m))); [|discriminate].
    injection H as <- <-; cbn; auto.
  - destruct (negb (showRecording (ui m))); [|discriminate].
    injection H as <- <-; cbn; auto.
  - destruct (negb (showRecording (ui m)) && negb (record_disabled p)); [|discriminate].
    injection H as <- <-; cbn; auto.
  - destruct (showRecording (ui m)); [|discriminate].
    injection H as <- <-; cbn. split; [reflexivity | lia].
  - destruct (showRecording (ui m)); [|discriminate].
    injection H as <- <-; cbn; auto.
  - destruct (uploading m) as [|n] eqn:E; [discriminate|].
    injection H as <- <-; cbn. split; [reflexivity | lia].
Qed.

Lemma run_free p es : forall m m' sent,
  assignment p = None -> run p m es = Some (m', sent) ->
  sent = [] /\ (uploading m' <= uploading m)%nat.
Proof.
  induction es as [|e es IH]; intros m m' sent Hp H; cbn [run] in H.
  - injection H as <- <-. auto.
  - destruct (step p m e) as [[m1 sent1]|] eqn:E1; [|discriminate].
    destruct (run p m1 es) as [[m2 sent2]|] eqn:E2; [|discriminate].
    injection H as <- <-.
    destruct (step_free _ _ _ _ _ Hp E1) as [-> H1].
    destruct (IH _ _ _ Hp E2) as [-> H2]. split; [reflexivity | lia].
Qed.

(** without an assignment the recorder closes as soon as it hands over *)
Lemma step_free_submit p m blob_size m' sent :
  assignment p = None -> step p m (RecorderSubmit blob_size) = Some (m', sent) ->
  showRecording (ui m') = false.
Proof.
  intros Hp H. cbn [step] in H. unfold handleRecordingComplete_send in H.
  rewrite Hp in H. destruct (showRecording (ui m)); [|discriminate].
  injection H as <- <-. reflexivity.
Qed.

Lemma step_uploads p a m e m' sent :
  assignment p = Some a -> step p m e = Some (m', sent) ->
  map audio_size sent = submitted [e] /\ List.Forall (names p a) sent /\
  (uploading m' + answered [e] = uploading m + length sent)%nat.
Proof.
  intros Hp H.
  destruct e; cbn [step] in H;
    unfold handleRecordingComplete_send in H; rewrite ?Hp in H.
  - destruct (negb (showRecording (ui m)) && negb (isPlaying (ui m))); [|discriminate].
    destruct started; injection H as <- <-; cbn; auto.
  - destruct (negb (showRecording (ui m)) && isPlaying (ui m)); [|discriminate].
    injection H as <- <-; cbn; auto.
  - destruct (negb (showRecording (ui m))); [|discriminate].
    injection H as <- <-; cbn; auto.
  - destruct (negb (showRecording (ui m))); [|discriminate].
    injection H as <- <-; cbn; auto.
  - destruct (negb (showRecording (ui m)) && negb (record_disabled p)); [|discriminate].
    injection H as <- <-; cbn; auto.
  - destruct (showRecording (ui m)); [|discriminate].
    injection H as <- <-; cbn. split; [reflexivity|]. split; [|lia].
    constructor; [|constructor]. unfold names; cbn. auto.
  - destruct (showRecording (ui m)); [|discriminate].
    injection H as <- <-; cbn; auto.
  - destruct (uploading m) as [|n] eqn:E; [discriminate|].
    injection H as <- <-; cbn. split; [reflexivity|]. split; [constructor | lia].
Qed.

Lemma run_uploads p a es : forall m m' sent,
  assignment p = Some a -> run p m es = Some (m', sent) ->
  map audio_size sent = submitted es /\ List.Forall (names p a) sent /\
  (uploading m' + answered es = uploading m + length sent)%nat.
Proof.
  induction es as [|e es IH]; intros m m' sent Hp H; cbn [run] in H.
  - injection H as <- <-. cbn. auto.
  - destruct (step p m e) as [[m1 sent1]|] eqn:E1; [|discriminate].
    destruct (run p m1 es) as [[m2 sent2]|] eqn:E2; [|discriminate].
    injection H as <- <-.
    destruct (step_uploads _ _ _ _ _ _ Hp E1) as (H1 & F1 & U1).
    destruct (IH _ _ _ Hp E2) as (H2 & F2 & U2).
    rewrite map_app, submitted_cons, H1, H2. split; [reflexivity|].
    split; [apply Forall_app; auto|].
    rewrite length_app. unfold answered in *. cbn [List.filter length] in *.
    destruct (is_settled e); cbn [length] in *; lia.
Qed.

(** X10.  A reader that was opened without an assignment (free practice
    from the story list) never sends an upload, whatever the student does
    and however often the recorder hands over a take; no request is ever in
    flight, and the recording is dropped when the recorder closes. *)
Theorem reader_free_practice_sends_nothing
    (p : Props) (es : list Event) (m : Machine) (sent : list UploadForm) :
  assignment p = None ->
  run p mounted es = Some (m, sent) ->
  record_disabled p = false /\ sent = [] /\ uploading m = O.
Proof.
  intros Hp H. split; [unfold record_disabled; rewrite Hp; reflexivity|].
  destruct (run_free _ _ _ _ _ Hp H) as [-> Hle]. cbn in Hle. split; [reflexivity | lia].
Qed.

Lemma reader_free_practice_sends_nothing_witness :
  exists m,
    run free_practice mounted [ClickStartRecording; RecorderSubmit 480000] = Some (m, [])
    /\ showRecording (ui m) = false /\ uploading m = O.
Proof.
  eexists. split; [reflexivity|].
  split; [reflexivity|].
  apply (reader_free_practice_sends_nothing free_practice
           [ClickStartRecording; RecorderSubmit 480000] _ [] eq_refl eq_refl).
Defined.

(** X11.  With an assignment, the reader sends exactly one upload for each
    take the recorder hands over, in order: it carries the blob under the
    name recording.wav, the id of the reader's story, the id of the
    assignment, the fixed duration 60 and the size of the blob.  The
    requests in flight are the uploads sent less those answered.  A second
    hand-over while the first upload is unanswered is sent as well. *)
Theorem reader_uploads_one_per_take
    (p : Props) (a : StudentAssignment.t) (es : list Event) (m : Machine)
    (sent : list UploadForm) :
  assignment p = Some a ->
  run p mounted es = Some (m, sent) ->
  map audio_size sent = submitted es /\
  List.Forall (fun u =>
     audio_name u = "recording.wav" /\ story u = story_id p /\
     form_assignment u = StudentAssignment.id a /\ duration u = "60" /\
     file_size u = audio_size u) sent /\
  (uploading m + answered es = length sent)%nat.
Proof.
  intros Hp H. destruct (run_uploads _ _ _ _ _ _ Hp H) as (H1 & H2 & H3).
  split; [exact H1|]. split; [exact H2|]. exact H3.
Qed.

Lemma reader_uploads_one_per_take_witness :
  exists m sent,
    run (mkProps 12 (Some one_attempt_left)) mounted
      [ClickStartRecording; RecorderSubmit 480000; RecorderSubmit 480000; UploadSettled]
    = Some (m, sent) /\
    map audio_size sent = [480000; 480000]%Z /\ uploading m = 1%nat.
Proof.
  eexists. eexists. split; [reflexivity|].
  destruct (reader_uploads_one_per_take (mkProps 12 (Some one_attempt_left))
              one_attempt_left
              [ClickStartRecording; RecorderSubmit 480000; RecorderSubmit 480000;
               UploadSettled] _ _ eq_refl eq_refl) as (H1 & _ & H3).
  split; [exact H1|]. vm_compute in H3. vm_compute. lia.
Defined.

End StoryReaderUploadFacts.

(** *** The voice of the story audio *)
Section StoryVoicesFacts.
Import StoryTypes StoryVoices.

Lemma string_app_not_empty (a b : string) :
  b <> EmptyString -> (a ++ b)%string <> EmptyString.
Proof. destruct a; cbn; [auto | discriminate]. Qed.

Lemma getAudioUrl_not_empty env storyId voiceType :
  Api.getAudioUrl env storyId voiceType <> EmptyString.
Proof. unfold Api.getAudioUrl. apply string_app_not_empty. discriminate. Qed.

Lemma availableVoices_In story voice :
  In voice (availableVoices story) <->
  In voice voiceOptions /\
  exists audio, In audio (Story.audio_files story) /\ AudioFile.voice_type audio = value voice.
Proof.
  unfold availableVoices. rewrite List.filter_In, existsb_exists.
  split; intros [Hv [audio [Hin Heq]]]; (split; [exact Hv|]); exists audio; split; auto.
  - apply bool_decide_eq_true_1 in Heq. exact Heq.
  - apply bool_decide_eq_true_2. exact Heq.
Qed.

Lemma currentAudioFile_found story v audio :
  In audio (Story.audio_files story) -> AudioFile.voice_type audio = v ->
  exists f, currentAudioFile story v = Some f /\ AudioFile.voice_type f = v /\
            In f (Story.audio_files story).
Proof.
  intros Hin Heq. unfold currentAudioFile.
  destruct (List.find _ (Story.audio_files story)) as [f|] eqn:E.
  - apply List.find_some in E as [Hf Hb]. apply bool_decide_eq_true_1 in Hb. eauto.
  - apply (List.find_none _ _ E) in Hin. apply bool_decide_eq_false_1 in Hin. contradiction.
Qed.

Lemma choose_Some story v selected :
  choose story v = Some selected ->
  selected = v /\
  exists audio, In audio (Story.audio_files story) /\ AudioFile.voice_type audio = v.
Proof.
  unfold choose. destruct (existsb _ (availableVoices story)) eqn:E; [|discriminate].
  intros [= <-]. split; [reflexivity|].
  apply existsb_exists in E as [voice [Hin Hv]]. apply bool_decide_eq_true_1 in Hv.
  apply availableVoices_In in Hin as [_ [audio [Ha Hav]]]. exists audio. split; congruence.
Qed.

Lemma choices_has_audio story vs : forall selected final,
  (exists audio, In audio (Story.audio_files story) /\ AudioFile.voice_type audio = selected) ->
  choices story selected vs = Some final ->
  exists audio, In audio (Story.audio_files story) /\ AudioFile.voice_type audio = final.
Proof.
  induction vs as [|v vs IH]; intros selected final Hsel H; cbn [choices] in H.
  - injection H as <-. exact Hsel.
  - destruct (choose story v) as [s|] eqn:E; [|discriminate].
    apply choose_Some in E as [-> Ha]. apply (IH _ _ Ha H).
Qed.

Lemma choices_no_audio story selected vs final :
  Story.audio_files story = [] ->
  choices story selected vs = Some final -> vs = [] /\ final = selected.
Proof.
  intros Hnil H. destruct vs as [|v vs]; cbn [choices] in H.
  - injection H as <-. auto.
  - unfold choose, availableVoices in H. rewrite Hnil in H. cbn in H. discriminate.
Qed.

(** X12.  In the story reader the selected voice always has an audio file
    when the story has any: it starts at the voice of the first file, and
    the select only offers voices that have a file.  So the player has an
    address, that of the selected voice, exactly when the story has audio;
    for a story without audio no voice is offered, the selection stays at
    female_1 and the address of the player is empty. *)
Theorem reader_voice_has_audio
    (env : option string) (story : Story.t) (vs : list VoiceType) (selected : VoiceType) :
  choices story (initialVoice story) vs = Some selected ->
  (Story.audio_files story <> [] ->
   exists f, currentAudioFile story selected = Some f /\
             AudioFile.voice_type f = selected /\
             In f (Story.audio_files story) /\
             audioUrl env story selected
             = Api.getAudioUrl env (Story.id story) (voice_text selected)) /\
  (Story.audio_files story = [] ->
   availableVoices story = [] /\ vs = [] /\ selected = female_1 /\
   audioUrl env story selected = EmptyString) /\
  (audioUrl env story selected = EmptyString <-> Story.audio_files story = []).
Proof.
  intros H.
  assert (Hsome : Story.audio_files story <> [] ->
    exists f, currentAudioFile story selected = Some f /\
              AudioFile.voice_type f = selected /\ In f (Story.audio_files story)).
  { intros Hne.
    assert (Hinit : exists audio, In audio (Story.audio_files story) /\
                                  AudioFile.voice_type audio = initialVoice story).
    { unfold initialVoice. destruct (Story.audio_files story) as [|a0 l]; [contradiction|].
      exists a0. split; [left; reflexivity | reflexivity]. }
    destruct (choices_has_audio _ _ _ _ Hinit H) as [audio [Hin Hv]].
    apply (currentAudioFile_found _ _ _ Hin Hv). }
  assert (Hnone : Story.audio_files story = [] ->
    availableVoices story = [] /\ vs = [] /\ selected = female_1 /\
    audioUrl env story selected = EmptyString).
  { intros Hnil. destruct (choices_no_audio _ _ _ _ Hnil H) as [-> ->].
    unfold audioUrl, currentAudioFile, availableVoices, initialVoice. rewrite Hnil.
    cbn. auto. }
  split; [|split].
  - intros Hne. destruct (Hsome Hne) as [f (Hf & Hv & Hin)].
    exists f. repeat split; auto. unfold audioUrl. rewrite Hf. reflexivity.
  - exact Hnone.
  - split.
    + intros Hurl. destruct (Story.audio_files story) as [|a0 l] eqn:E; [reflexivity|].
      exfalso. destruct Hsome as [f (Hf & _)]; [discriminate|].
      unfold audioUrl in Hurl. rewrite Hf in Hurl.
      apply (getAudioUrl_not_empty _ _ _ Hurl).
    + intros Hnil. apply Hnone, Hnil.
Qed.

Lemma reader_voice_has_audio_witness :
  audioUrl None narrated female_2 = "http://localhost:8000/api/stories/12/audio/female_2/".
Proof.
  destruct (reader_voice_has_audio None narrated [female_2; male_1; female_2] female_2
              eq_refl) as (Hsome & _).
  destruct Hsome as [f (_ & _ & _ & Hurl)]; [discriminate|].
  rewrite Hurl. reflexivity.
Defined.

(** a voice without a file is not on the list, so it cannot be chosen *)
Example voice_without_file_not_offered :
  map value (availableVoices narrated) = [female_2; male_1] /\
  initialVoice narrated = male_1 /\
  choices narrated (initialVoice narrated) [female_1] = None.
Proof. repeat split. Qed.

End StoryVoicesFacts.

(** *** The assignment card *)
Section AssignmentCardFacts.
Import Types StoryTypes AssignmentCard.

Variable a : StudentAssignment.t.

Lemma step_Inv m e m' : Inv a m -> step a m e = Some m' -> Inv a m'.
Proof.
  intros (Hle & Hload & Hoff) H. unfold Inv.
  destruct (StudentAssignment.can_attempt a || StudentAssignment.is_completed a) eqn:Hopen.
  - assert (Hgoal : (fetching m' <= 1)%nat /\ loading (ui m') = (fetching m' =? 1)%nat).
    { destruct e; cbn [step] in H.
      - destruct (negb (reader_shown (ui m)) && negb (start_disabled a (ui m))) eqn:E;
          [|discriminate].
        injection H as <-. cbn.
        apply andb_true_iff in E as [_ E]. apply negb_true_iff in E.
        unfold start_disabled in E. apply orb_false_iff in E as [E _].
        rewrite E in Hload. symmetry in Hload. apply Nat.eqb_neq in Hload.
        assert (fetching m = O) as -> by lia. auto.
      - destruct (fetching m) as [|n] eqn:E; [discriminate|].
        injection H as <-. assert (n = O) as -> by lia.
        destruct storyData; cbn; auto.
      - destruct (reader_shown (ui m)); [|discriminate].
        injection H as <-. cbn. auto. }
    destruct Hgoal as [H1 H2]. split; [exact H1|]. split; [exact H2|]. discriminate.
  - specialize (Hoff eq_refl). subst m. exfalso.
    apply orb_false_iff in Hopen as [Hc Hd].
    destruct e; cbn [step] in H; try discriminate.
    unfold start_disabled in H. rewrite Hc, Hd in H. cbn in H. discriminate.
Qed.

Lemma run_Inv es : forall m m', Inv a m -> run a m es = Some m' -> Inv a m'.
Proof.
  induction es as [|e es IH]; intros m m' HI H; cbn [run] in H.
  - injection H as <-. exact HI.
  - destruct (step a m e) as [m1|] eqn:E; [|discriminate].
    apply (IH _ _ (step_Inv _ _ _ HI E) H).
Qed.

Lemma mounted_Inv : Inv a mounted.
Proof. unfold Inv. cbn. auto. Qed.

Lemma step_off e :
  StudentAssignment.can_attempt a = false -> StudentAssignment.is_completed a = false ->
  step a mounted e = None.
Proof.
  intros Hc Hd. destruct e; cbn [step]; try reflexivity.
  unfold start_disabled. rewrite Hc, Hd. reflexivity.
Qed.

(** X13.  The assignment card keeps at most one story request in flight,
    and shows its loading label exactly while one is.  When the assignment
    can no longer be attempted and is not completed the button is off and
    the card never does anything: no story is fetched and the reader never
    opens.  A reader that the card opens gets the card's own assignment,
    so its record control is off exactly when that assignment cannot be
    attempted. *)
Theorem assignment_card_gate (es : list Event) (m : Machine) :
  run a mounted es = Some m ->
  (fetching m <= 1)%nat /\
  loading (ui m) = (fetching m =? 1)%nat /\
  (StudentAssignment.can_attempt a = false -> StudentAssignment.is_completed a = false ->
   es = [] /\ m = mounted) /\
  (forall p, reader_props a (ui m) = Some p ->
     reader_shown (ui m) = true /\
     StudentAssignment.can_attempt a || StudentAssignment.is_completed a = true /\
     StoryReader.assignment p = Some a /\
     StoryReader.record_disabled p = negb (StudentAssignment.can_attempt a)).
Proof.
  intros H. destruct (run_Inv _ _ _ mounted_Inv H) as (Hle & Hload & Hoff).
  split; [exact Hle|]. split; [exact Hload|]. split.
  - intros Hc Hd. destruct es as [|e es]; cbn [run] in H.
    + injection H as <-. auto.
    + rewrite (step_off e Hc Hd) in H. discriminate.
  - intros p Hp. unfold reader_props in Hp.
    destruct (showReader (ui m)) eqn:Hs; [|discriminate].
    destruct (fullStory (ui m)) as [s|] eqn:Hf; [|discriminate].
    injection Hp as <-.
    split; [unfold reader_shown; rewrite Hs, Hf; reflexivity|].
    split.
    + destruct (StudentAssignment.can_attempt a || StudentAssignment.is_completed a)
        eqn:Hopen; [reflexivity|].
      specialize (Hoff eq_refl). subst m. cbn in Hs. discriminate.
    + split; reflexivity.
Qed.

End AssignmentCardFacts.

Section AssignmentCardBadge.
Import Types StoryTypes AssignmentCard.

Lemma assignment_card_gate_witness :
  exists m,
    run StoryReaderUploads.one_attempt_left mounted
      [ClickStart; StoryLoaded None; ClickStart; StoryLoaded (Some StoryVoices.narrated)]
    = Some m /\
    reader_props StoryReaderUploads.one_attempt_left (ui m)
    = Some (StoryReader.mkProps 12 (Some StoryReaderUploads.one_attempt_left)) /\
    fetching m = O.
Proof.
  eexists. split; [reflexivity|]. split; [reflexivity|].
  destruct (assignment_card_gate StoryReaderUploads.one_attempt_left
              [ClickStart; StoryLoaded None; ClickStart;
               StoryLoaded (Some StoryVoices.narrated)] _ eq_refl) as (_ & Hload & _).
  cbn in Hload. reflexivity.
Defined.

Lemma toString_head z :
  exists c rest, JSNumber.toString z = String c rest /\ c <> "M"%char.
Proof.
  unfold JSNumber.toString.
  assert (Hu : forall d, exists c rest,
             DecimalString.NilZero.string_of_uint d = String c rest /\ c <> "M"%char).
  { intros d. destruct d; cbn; eexists; eexists; (split; [reflexivity | discriminate]). }
  destruct (Z.to_int z) as [d|d]; cbn [DecimalString.NilZero.string_of_int].
  - apply Hu.
  - eexists; eexists; split; [reflexivity | discriminate].
Qed.

(** X14.  On the assignment card the badge and the button agree: the badge
    reads Max attempts reached, and is red, exactly when the idle button is
    off, that is when the assignment is not completed and cannot be
    attempted; a completed assignment always reads Completed in green and
    keeps its button, labelled Review, even with no attempt left. *)
Theorem assignment_card_badge (a : StudentAssignment.t) :
  (start_disabled a initialState = true <-> getStatusText a = "Max attempts reached") /\
  (start_disabled a initialState = true <-> getStatusColor a = "#F44336") /\
  (StudentAssignment.is_completed a = true <-> getStatusText a = "Completed") /\
  (StudentAssignment.is_completed a = true ->
   getStatusColor a = "#4CAF50" /\ start_disabled a initialState = false /\
   start_label a initialState = "Review").
Proof.
  unfold start_disabled, getStatusText, getStatusColor, start_label. cbn [loading initialState].
  destruct (toString_head (StudentAssignment.attempts_used a)) as (c & rest & Hs & Hc).
  rewrite Hs.
  assert (HC : c <> "C"%char).
  { intros ->. unfold JSNumber.toString in Hs.
    destruct (Z.to_int (StudentAssignment.attempts_used a)) as [d|d];
      cbn [DecimalString.NilZero.string_of_int] in Hs; [|discriminate].
    destruct d; cbn in Hs; discriminate. }
  destruct (StudentAssignment.is_completed a), (StudentAssignment.can_attempt a);
    cbn; repeat split; intros; try discriminate; try reflexivity; try congruence.
  all: match goal with
       | H : (String ?ch ?r ++ ?x)%string = ?rhs |- _ =>
           change (String ch (r ++ x)%string = rhs) in H; injection H; intros; congruence
       end.
Qed.

End AssignmentCardBadge.

(** *** The audio recorder *)
Section AudioRecorderFacts.
Import AudioRecorder.
Local Open Scope Z_scope.

Lemma Blob_size_pos parts :
  parts <> [] -> List.Forall (fun size => 0 < size) parts -> 0 < Blob_size parts.
Proof.
  intros Hne HF. destruct parts as [|x l]; [contradiction|].
  inversion HF as [|? ? Hx Hl]; subst. cbn [Blob_size fold_right].
  assert (0 <= fold_right Z.add 0 l); [|lia].
  clear -Hl. induction Hl; cbn; lia.
Qed.

Lemma step_Inv_recorder m e m' calls :
  Inv m -> step m e = Some (m', calls) ->
  Inv m' /\ forall size, In (onComplete size) calls -> 0 < size.
Proof.
  intros (HF & Hr & Hh) H. unfold Inv.
  destruct e; cbn [step] in H.
  - destruct (negb (hasRecording (ui m)) && negb (isRecording (ui m))); [|discriminate].
    injection H as <- <-. split; [|intros ? []]. cbn. auto.
  - destruct (media_requests m); [discriminate|].
    injection H as <- <-. split; [|intros ? []].
    unfold startRecording_answered. destruct granted; cbn; auto.
  - destruct (mediaRecorder (refs m)) eqn:E; [|discriminate].
    injection H as <- <-. split; [|intros ? []].
    unfold ondataavailable. destruct (0 <? size) eqn:Es; cbn; auto.
    split; [|auto]. apply Forall_app. split; [exact HF|].
    constructor; [|constructor]. apply Z.ltb_lt, Es.
  - destruct (mediaRecorder (refs m)) eqn:E; [|discriminate].
    injection H as <- <-. split; [|intros ? []]. cbn. auto.
  - destruct (intervals m); [discriminate|].
    injection H as <- <-. split; [|intros ? []]. cbn. auto.
  - destruct (negb (hasRecording (ui m)) && isRecording (ui m)); [|discriminate].
    injection H as <- <-. split; [|intros ? []].
    unfold stopRecording. destruct (mediaRecorder (refs m) && isRecording (ui m)) eqn:E;
      cbn; auto. split; [exact HF|]. split; [discriminate | exact Hh].
  - destruct (hasRecording (ui m) && negb (isPlaying (ui m))); [|discriminate].
    injection H as <- <-. split; [|intros ? []].
    unfold playRecording. destruct (audioUrl (refs m)); cbn; auto.
  - destruct (hasRecording (ui m) && isPlaying (ui m)); [|discriminate].
    injection H as <- <-. split; [|intros ? []]. cbn. auto.
  - destruct (hasRecording (ui m)); [|discriminate].
    injection H as <- <-. split; [|intros ? []]. cbn. auto.
  - destruct (hasRecording (ui m)) eqn:E; [|discriminate].
    injection H as <- <-. split; [|intros ? []]. cbn.
    split; [exact HF|]. split; [exact Hr | discriminate].
  - destruct (hasRecording (ui m)); [|discriminate].
    injection H as <- <-. split; [auto|].
    unfold handleSubmit. intros size Hin.
    destruct (audioChunks (refs m)) as [|x l] eqn:E; [destruct Hin|].
    destruct Hin as [Heq|[]]. injection Heq as <-.
    apply (Blob_size_pos (x :: l)); [discriminate | exact HF].
  - injection H as <- <-. split; [auto|]. intros size [Heq|[]]. discriminate.
Qed.

Lemma run_Inv_recorder es : forall m m' calls,
  Inv m -> run m es = Some (m', calls) ->
  Inv m' /\ forall size, In (onComplete size) calls -> 0 < size.
Proof.
  induction es as [|e es IH]; intros m m' calls HI H; cbn [run] in H.
  - injection H as <- <-. split; [exact HI | intros ? []].
  - destruct (step m e) as [[m1 c1]|] eqn:E1; [|discriminate].
    destruct (run m1 es) as [[m2 c2]|] eqn:E2; [|discriminate].
    injection H as <- <-.
    destruct (step_Inv_recorder _ _ _ _ HI E1) as [HI1 Hc1].
    destruct (IH _ _ _ HI1 E2) as [HI2 Hc2].
    split; [exact HI2|]. intros size Hin. apply in_app_or in Hin as [Hin|Hin]; auto.
Qed.

(** X15.  The audio recorder never hands an empty recording to its parent:
    every blob passed to onComplete has a positive size, because empty
    chunks are not kept and Submit Recording does nothing while no chunk is
    kept.  The review of a take, and with it Submit Recording, is on
    screen only after a recorder has been made. *)
Theorem recorder_never_submits_empty
    (es : list Event) (m : Machine) (calls : list Call) :
  run mounted es = Some (m, calls) ->
  (forall size, In (onComplete size) calls -> 0 < size) /\
  List.Forall (fun size => 0 < size) (audioChunks (refs m)) /\
  (audioChunks (refs m) = [] -> handleSubmit m = []) /\
  (hasRecording (ui m) = true -> mediaRecorder (refs m) = true).
Proof.
  intros H.
  assert (HI : Inv mounted).
  { unfold Inv. cbn. split; [constructor|]. split; discriminate. }
  destruct (run_Inv_recorder _ _ _ _ HI H) as [(HF & _ & Hh) Hc].
  split; [exact Hc|]. split; [exact HF|]. split; [|exact Hh].
  intros Hnil. unfold handleSubmit. rewrite Hnil. reflexivity.
Qed.

Lemma recorder_never_submits_empty_witness :
  exists m,
    run mounted [ClickStartRecording; MediaAnswered true; Tick; DataAvailable 0;
                 ClickStopRecording; RecorderStopped; ClickSubmit; ClickRetry;
                 ClickStartRecording; MediaAnswered true; ClickStopRecording;
                 DataAvailable 480000; RecorderStopped; ClickSubmit]
    = Some (m, [onComplete 480000]) /\
    (forall size, In (onComplete size) [onComplete 480000] -> 0 < size) /\
    mediaRecorder (refs m) = true.
Proof.
  destruct (run mounted
              [ClickStartRecording; MediaAnswered true; Tick; DataAvailable 0;
               ClickStopRecording; RecorderStopped; ClickSubmit; ClickRetry;
               ClickStartRecording; MediaAnswered true; ClickStopRecording;
               DataAvailable 480000; RecorderStopped; ClickSubmit])
    as [[m calls]|] eqn:E; [|vm_compute in E; discriminate].
  pose proof E as E'. vm_compute in E'. injection E' as Hm Hcalls.
  destruct (recorder_never_submits_empty _ _ _ E) as (Hpos & _ & _ & Hrec).
  subst m calls. eexists. split; [reflexivity|].
  split; [exact Hpos | apply Hrec; reflexivity].
Defined.

(** a second click on Start Recording before the microphone is granted
    leaves an interval behind: the clock goes on after Stop Recording *)
Example start_clicked_twice :
  exists m,
    run mounted [ClickStartRecording; ClickStartRecording; MediaAnswered true;
                 MediaAnswered true; ClickStopRecording; Tick]
    = Some (m, []) /\
    isRecording (ui m) = false /\ recordingTime (ui m) = 1%nat.
Proof. eexists. split; [reflexivity|]. split; reflexivity. Qed.

End AudioRecorderFacts.


(** *** The bulk reports *)
Section BulkReportsFacts.
Import BulkReports.

Variable env : option string.

Lemma In_list_delete {A} (l : list A) : forall k x y,
  l !! k = Some x -> In y l -> y <> x -> In y (delete k l).
Proof.
  induction l as [|z l IH]; intros k x y Hk Hin Hne; [destruct Hin|].
  destruct k as [|k]; cbn in *.
  - injection Hk as ->. destruct Hin as [->|Hin]; [contradiction | exact Hin].
  - destruct Hin as [->|Hin]; [left; reflexivity | right; eauto].
Qed.

Lemma In_list_delete_inv {A} (l : list A) : forall k y, In y (delete k l) -> In y l.
Proof.
  induction l as [|z l IH]; intros k y Hin; [destruct k; destruct Hin|].
  destruct k as [|k]; cbn in *; [right; exact Hin|].
  destruct Hin as [->|Hin]; [left; reflexivity | right; eauto].
Qed.

Lemma Forall_list_delete {A} (P : A -> Prop) (l : list A) k :
  List.Forall P l -> List.Forall P (delete k l).
Proof.
  rewrite !List.Forall_forall. intros H y Hin. apply H, (In_list_delete_inv _ _ _ Hin).
Qed.

Lemma lookup_In {A} (l : list A) : forall k x, l !! k = Some x -> In x l.
Proof.
  induction l as [|z l IH]; intros [|k] x H; cbn in H; try discriminate.
  - injection H as ->. left; reflexivity.
  - right. eauto.
Qed.

Lemma generateReport_send_Inv report f m :
  Inv m -> loading (ui m) = false -> In report (availableReports (ui m)) ->
  Inv (fst (generateReport_send env report f m)).
Proof.
  intros (Hg & Hi & Ht & Hl) Hload Hin. unfold Inv. cbn.
  split; [|split; [|split]].
  - intros key Hkey. apply elem_of_union in Hkey as [Hkey|Hkey].
    + destruct (Hg key Hkey) as [r [Hr Hk]]. exists r. split; [|exact Hk].
      apply in_or_app. left; exact Hr.
    + apply elem_of_singleton in Hkey. subst key. exists report. split; [|reflexivity].
      apply in_or_app. right. left. reflexivity.
  - apply Forall_app. split; [exact Hi|]. constructor; [exact Hin | constructor].
  - exact Ht.
  - intros Hl'. rewrite Hload in Hl'. discriminate.
Qed.

Lemma step_Inv_reports m e m' urls :
  Inv m -> step env m e = Some (m', urls) ->
  Inv m' /\
  (loading (ui m) = false ->
   loading (ui m') = false /\ availableReports (ui m') = availableReports (ui m)) /\
  (loading (ui m) = true -> urls = []) /\
  List.Forall (fun u => exists report f,
                 In report (availableReports (ui m)) /\ u = report_url env report f) urls.
Proof.
  intros HI H. pose proof HI as (Hg & Hi & Ht & Hl).
  destruct e; cbn [step] in H.
  - destruct (loading (ui m)) eqn:Hload; [|discriminate].
    injection H as <- <-. destruct (Hl eq_refl) as (Ha & Htm & Hin).
    split; [|split; [discriminate | split; [reflexivity | constructor]]].
    unfold Inv. cbn [ui timers inflight]. rewrite Htm, Hin.
    split; [|split; [constructor | split; [constructor|]]].
    + intros key Hkey. destruct response; cbn in Hkey;
        destruct (Hg key Hkey) as [r [Hr _]]; rewrite Hin in Hr; destruct Hr.
    + destruct response; cbn; discriminate.
  - destruct (loading (ui m)) eqn:Hload; [discriminate|].
    injection H as <- <-. cbn.
    split; [|split; [auto | split; [discriminate | constructor]]].
    unfold Inv. cbn. split; [exact Hg|]. split; [exact Hi|]. split; [exact Ht|].
    intros E; rewrite Hload in E; discriminate.
  - destruct (loading (ui m)) eqn:Hload; [discriminate|].
    destruct (availableReports (ui m) !! i) as [report|] eqn:Hr; [|discriminate].
    destruct (bool_decide (reportKey report ∈ generatingReports (ui m))); [discriminate|].
    injection H as <- <-. apply lookup_In in Hr.
    split; [apply (generateReport_send_Inv report (selectedFormat (ui m)) m HI Hload Hr)|].
    cbn. split; [auto|]. split; [discriminate|].
    constructor; [|constructor]. exists report, (selectedFormat (ui m)). auto.
  - destruct (loading (ui m)) eqn:Hload; [discriminate|].
    destruct ((length (availableReports (ui m)) =? 0)%nat
              || negb (size (generatingReports (ui m)) =? 0)%nat); [discriminate|].
    injection H as <- <-. cbn.
    split; [|split; [auto | split; [discriminate | constructor]]].
    unfold Inv. cbn. split; [exact Hg|]. split; [exact Hi|]. split.
    + apply Forall_app. split; [exact Ht|].
      apply List.Forall_forall. intros t Hin. apply in_map_iff in Hin as [r [<- Hr]].
      exact Hr.
    + intros E; rewrite Hload in E; discriminate.
  - destruct (timers m !! k) as [[report f]|] eqn:Hk; [|discriminate].
    injection H as <- <-.
    assert (Hload : loading (ui m) = false).
    { destruct (loading (ui m)) eqn:E; [|reflexivity].
      destruct (Hl eq_refl) as (_ & Htm & _). rewrite Htm in Hk. discriminate. }
    assert (Hr : In report (availableReports (ui m))).
    { apply lookup_In in Hk. rewrite List.Forall_forall in Ht. apply (Ht _ Hk). }
    split.
    + apply (generateReport_send_Inv report f
               {| ui := ui m; timers := delete k (timers m); inflight := inflight m |});
        [|exact Hload|exact Hr].
      unfold Inv. cbn. split; [exact Hg|]. split; [exact Hi|].
      split; [apply Forall_list_delete, Ht|].
      intros E; rewrite Hload in E; discriminate.
    + cbn. split; [auto|]. split; [intros E; congruence|].
      constructor; [|constructor]. exists report, f. auto.
  - destruct (inflight m !! k) as [report|] eqn:Hk; [|discriminate].
    injection H as <- <-.
    assert (Hload : loading (ui m) = false).
    { destruct (loading (ui m)) eqn:E; [|reflexivity].
      destruct (Hl eq_refl) as (_ & _ & Hin). rewrite Hin in Hk. discriminate. }
    cbn. split; [|split; [auto | split; [reflexivity | constructor]]].
    unfold Inv. cbn. split; [|split; [apply Forall_list_delete, Hi | split; [exact Ht|]]].
    + intros key Hkey. apply elem_of_difference in Hkey as [Hkey Hne].
      destruct (Hg key Hkey) as [r [Hr Hkr]]. exists r. split; [|exact Hkr].
      apply (In_list_delete _ _ _ _ Hk Hr). intros ->. apply Hne.
      apply elem_of_singleton. symmetry. exact Hkr.
    + intros E; rewrite Hload in E; discriminate.
Qed.

Lemma run_Inv_reports es : forall m m' urls,
  Inv m -> run env m es = Some (m', urls) ->
  Inv m' /\
  (loading (ui m) = false -> availableReports (ui m') = availableReports (ui m)) /\
  List.Forall (fun u => exists report f,
                 In report (availableReports (ui m')) /\ u = report_url env report f) urls.
Proof.
  induction es as [|e es IH]; intros m m' urls HI H; cbn [run] in H.
  - injection H as <- <-. split; [exact HI|]. split; [reflexivity | constructor].
  - destruct (step env m e) as [[m1 u1]|] eqn:E1; [|discriminate].
    destruct (run env m1 es) as [[m2 u2]|] eqn:E2; [|discriminate].
    injection H as <- <-.
    destruct (step_Inv_reports _ _ _ _ HI E1) as (HI1 & Hkeep & Hquiet & Hu1).
    destruct (IH _ _ _ HI1 E2) as (HI2 & Hkeep2 & Hu2).
    split; [exact HI2|]. split.
    + intros Hload. destruct (Hkeep Hload) as [Hl1 Ha1]. rewrite (Hkeep2 Hl1). exact Ha1.
    + apply Forall_app. split; [|exact Hu2].
      destruct (loading (ui m)) eqn:Hload.
      * rewrite (Hquiet eq_refl). constructor.
      * destruct (Hkeep eq_refl) as [Hl1 Ha1]. rewrite (Hkeep2 Hl1), Ha1. exact Hu1.
Qed.

Lemma mounted_Inv_reports : Inv mounted.
Proof.
  unfold Inv. cbn. split; [|split; [constructor | split; [constructor | auto]]].
  intros key Hkey. apply elem_of_empty in Hkey. destruct Hkey.
Qed.

(** X17.  In the bulk reports, a report's button reads Generating only
    while a fetch of a report with that key is unanswered: every key in the
    set of generating reports belongs to a fetch in flight, so once every
    fetch is answered all buttons are enabled again.  Every address fetched
    is the address of one of the reports on the list. *)
Theorem bulk_reports_generating_sound
    (es : list Event) (m : Machine) (urls : list string) :
  run env mounted es = Some (m, urls) ->
  (forall key, key ∈ generatingReports (ui m) ->
     exists report, In report (inflight m) /\ In report (availableReports (ui m)) /\
                    reportKey report = key) /\
  (inflight m = [] -> generatingReports (ui m) = ∅) /\
  List.Forall (fun u => exists report f,
                 In report (availableReports (ui m)) /\ u = report_url env report f) urls.
Proof.
  intros H.
  destruct (run_Inv_reports _ _ _ _ mounted_Inv_reports H) as ((Hg & Hi & _) & _ & Hu).
  split; [|split; [|exact Hu]].
  - intros key Hkey. destruct (Hg key Hkey) as [r [Hr Hk]]. exists r.
    split; [exact Hr|]. split; [|exact Hk].
    rewrite List.Forall_forall in Hi. apply (Hi _ Hr).
  - intros Hnil. apply elem_of_equiv_empty_L. intros key Hkey.
    destruct (Hg key Hkey) as [r [Hr _]]. rewrite Hnil in Hr. destruct Hr.
Qed.

End BulkReportsFacts.

Section BulkReportsExamples.
Import BulkReports.

Lemma bulk_reports_generating_sound_witness :
  exists m,
    run None mounted
      [Loaded (Some [teacher_summary; class_performance]); ChooseFormat json;
       ClickDownload 1; Settled 0 false]
    = Some (m, ["http://localhost:8000/api/analytics/reports/class/4/?format=json"]) /\
    generatingReports (ui m) = ∅ /\
    error (ui m) = "Failed to generate Class Performance. Please try again.".
Proof.
  eexists. split; [vm_compute; reflexivity|].
  split; [|reflexivity].
  destruct (bulk_reports_generating_sound None
              [Loaded (Some [teacher_summary; class_performance]); ChooseFormat json;
               ClickDownload 1; Settled 0 false] _ _ eq_refl) as (_ & Hempty & _).
  apply Hempty. reflexivity.
Defined.

(** the converse does not hold: Download All can be clicked again before
    its timers fire, and then a report is fetched twice; the first answer
    enables the button while the second fetch is still unanswered *)
Example download_all_twice :
  exists m urls,
    run None mounted
      [Loaded (Some [teacher_summary]); ClickDownloadAll; ClickDownloadAll;
       TimerFires 0; TimerFires 0; Settled 0 true]
    = Some (m, urls) /\
    length urls = 2%nat /\ inflight m = [teacher_summary] /\
    bool_decide (reportKey teacher_summary ∈ generatingReports (ui m)) = false.
Proof. eexists. eexists. split; [vm_compute; reflexivity|]. repeat split. Qed.

(** X18.  The address of a report download is built from the environment
    variable of the API address with /api added, while every other request
    uses the variable as it is and falls back to an address ending in /api.
    The two agree only when the variable is unset or empty; when it is set,
    the report address has one more /api than the base of the other
    requests. *)
Theorem report_url_base (env : option string) (report : ReportOption) (f : Format) :
  report_url env report f
  = (Api.API_BASE_URL env ++ (if JS.truthy env then "/api" else EmptyString)
       ++ endpoint report ++ "?format=" ++ format_text f)%string.
Proof.
  unfold report_url, Api.API_BASE_URL. destruct (JS.truthy env); reflexivity.
Qed.

End BulkReportsExamples.

(** *** The creation of an assignment *)
Section AssignmentCreationFacts.
Import AssignmentCreation.
Local Open Scope Z_scope.

Variable classes : list ClassListItem.t.
Variable stories : list StoryListItem.t.

Lemma attempt_options_lookup k n : attempt_options !! k = Some n -> In n attempt_options.
Proof. apply lookup_In. Qed.

Lemma incomplete_false a :
  incomplete a = false <-> class_id a <> 0 /\ story_id a <> 0 /\ title a <> EmptyString.
Proof.
  unfold incomplete. rewrite !orb_false_iff, !Z.eqb_neq, String.eqb_neq. tauto.
Qed.

Lemma step_Inv_creation m e m' sent :
  Inv classes stories m -> step classes stories m e = Some (m', sent) ->
  Inv classes stories m' /\
  List.Forall (fun q => form_ok classes stories q /\ incomplete q = false) sent.
Proof.
  intros ((Hc & Hs & Ha) & Hle & Hload) H. unfold Inv, form_ok.
  destruct e; cbn [step] in H.
  - destruct (classes !! i) as [c|] eqn:E; [|discriminate].
    injection H as <- <-. cbn. split; [|constructor].
    split; [|auto]. split; [|auto]. right. exists c. split; [|reflexivity].
    apply (lookup_In _ _ _ E).
  - destruct (stories !! j) as [s|] eqn:E; [|discriminate].
    injection H as <- <-. cbn. split; [|constructor].
    split; [|auto]. split; [exact Hc|]. split; [|exact Ha].
    right. exists s. split; [|reflexivity]. apply (lookup_In _ _ _ E).
  - injection H as <- <-. cbn. split; [|constructor]. auto.
  - injection H as <- <-. cbn. split; [|constructor]. auto.
  - injection H as <- <-. cbn. split; [|constructor]. auto.
  - destruct (attempt_options !! k) as [n|] eqn:E; [|discriminate].
    injection H as <- <-. cbn. split; [|constructor].
    split; [|auto]. split; [exact Hc|]. split; [exact Hs|].
    apply (attempt_options_lookup _ _ E).
  - unfold submit_disabled, handleSubmit_send in H.
    destruct (loading (ui m)) eqn:El; [discriminate|].
    destruct (incomplete (assignment (ui m))) eqn:Ei; [discriminate|].
    cbn in H. injection H as <- <-. cbn.
    symmetry in Hload. apply Nat.eqb_neq in Hload.
    assert (inflight m = O) as -> by lia. cbn.
    split; [auto|]. constructor; [|constructor]. auto.
  - destruct (inflight m) as [|n] eqn:E; [discriminate|].
    injection H as <- <-. assert (n = O) as -> by lia.
    split; [|constructor].
    destruct response; cbn; [|auto].
    split; [|auto]. unfold attempt_options. cbn. auto 10.
Qed.

Lemma run_Inv_creation es : forall m m' sent,
  Inv classes stories m -> run classes stories m es = Some (m', sent) ->
  Inv classes stories m' /\
  List.Forall (fun q => form_ok classes stories q /\ incomplete q = false) sent.
Proof.
  induction es as [|e es IH]; intros m m' sent HI H; cbn [run] in H.
  - injection H as <- <-. split; [exact HI | constructor].
  - destruct (step classes stories m e) as [[m1 s1]|] eqn:E1; [|discriminate].
    destruct (run classes stories m1 es) as [[m2 s2]|] eqn:E2; [|discriminate].
    injection H as <- <-.
    destruct (step_Inv_creation _ _ _ _ HI E1) as [HI1 Hs1].
    destruct (IH _ _ _ HI1 E2) as [HI2 Hs2].
    split; [exact HI2 | apply Forall_app; auto].
Qed.

(** X19.  Every request that the assignment form sends names a class of
    the teacher's list and a story of the story list, neither with the id
    0, has a title that is not empty, and a number of attempts that is one
    of 1, 2, 3, 5 and -1 (unlimited).  One request at most is in flight,
    and the button reads Creating Assignment exactly while it is. *)
Theorem assignment_creation_requests
    (es : list Event) (m : Machine) (sent : list CreateClassAssignmentRequest) :
  run classes stories mounted es = Some (m, sent) ->
  List.Forall (fun q =>
     (exists c, In c classes /\ ClassListItem.id c = class_id q) /\ class_id q <> 0 /\
     (exists s, In s stories /\ StoryListItem.id s = story_id q) /\ story_id q <> 0 /\
     title q <> EmptyString /\
     In (max_attempts q) [1; 2; 3; 5; -1]) sent /\
  (inflight m <= 1)%nat /\
  loading (ui m) = (inflight m =? 1)%nat.
Proof.
  intros H.
  assert (HI : Inv classes stories mounted).
  { unfold Inv, form_ok, attempt_options. cbn. auto 10. }
  destruct (run_Inv_creation _ _ _ _ HI H) as ((_ & Hle & Hload) & Hs).
  split; [|auto].
  apply List.Forall_forall. intros q Hq. rewrite List.Forall_forall in Hs.
  destruct (Hs q Hq) as ((Hc & Hst & Ha) & Hi).
  apply incomplete_false in Hi as (Hc0 & Hs0 & Ht).
  destruct Hc as [Hc|Hc]; [contradiction|]. destruct Hst as [Hst|Hst]; [contradiction|].
  auto 10.
Qed.

End AssignmentCreationFacts.

Section AssignmentCreationExamples.
Import AssignmentCreation.
Local Open Scope Z_scope.

Lemma assignment_creation_requests_witness :
  exists m,
    run sample_classes sample_stories mounted
      [ClickStory 0; ChangeMaxAttempts 4; ClickClass 0; Submit; Settled (Some "Created")]
    = Some (m, [mkRequest 4 12 "Reading Practice: The Tortoise and the Hare"
                  EmptyString EmptyString (-1)]) /\
    assignment (ui m) = emptyAssignment /\ loading (ui m) = false.
Proof.
  eexists. split; [reflexivity|]. split; [reflexivity|].
  destruct (assignment_creation_requests sample_classes sample_stories
              [ClickStory 0; ChangeMaxAttempts 4; ClickClass 0; Submit;
               Settled (Some "Created")] _ _ eq_refl) as (_ & _ & Hload).
  exact Hload.
Defined.

End AssignmentCreationExamples.


(** *** The session *)
Section AuthProviderFacts.
Import AuthProvider.

Lemma run_app es1 : forall es2 m,
  run m (es1 ++ es2)
  = match run m es1 with Some m1 => run m1 es2 | None => None end.
Proof.
  induction es1 as [|e es1 IH]; intros es2 m; cbn [run app]; [reflexivity|].
  destruct (step m e); [apply IH | reflexivity].
Qed.

Lemma has_logout_loaded st : has_logout (Dashboard st) = true -> loading st = false.
Proof. unfold Dashboard. destruct (loading st); [discriminate | reflexivity]. Qed.

Lemma step_Logout m m' : step m Logout = Some m' -> signed_out m'.
Proof.
  cbn [step]. destruct (has_logout (Dashboard (ui m))) eqn:E; [|discriminate].
  intros [= <-]. unfold signed_out. cbn. split; [reflexivity|].
  split; [apply has_logout_loaded, E|].
  unfold Auth.logout, Auth.removeItem. apply lookup_delete_eq.
Qed.

Lemma step_signed_out m e m' :
  signed_out m -> no_login [e] = true -> step m e = Some m' -> signed_out m'.
Proof.
  intros (Hu & Hl & Ht) Hno H. unfold signed_out.
  destruct e; cbn [step] in H.
  - rewrite Hl in H. discriminate.
  - destruct response; [discriminate|].
    unfold Dashboard in H. rewrite Hl, Hu in H. injection H as <-. cbn. auto.
  - unfold Dashboard in H. rewrite Hl, Hu in H. discriminate.
  - destruct (logout_requests m); [discriminate|]. injection H as <-. cbn.
    split; [exact Hu|]. split; [exact Hl|].
    unfold Auth.authAPI_logout_resolved, Auth.removeItem. apply lookup_delete_eq.
Qed.

Lemma run_signed_out es : forall m m',
  signed_out m -> no_login es = true -> run m es = Some m' -> signed_out m'.
Proof.
  induction es as [|e es IH]; intros m m' Hs Hno H; cbn [run] in H.
  - injection H as <-. exact Hs.
  - destruct (step m e) as [m1|] eqn:E; [|discriminate].
    cbn [no_login forallb] in Hno. apply andb_true_iff in Hno as [Hne Hnes].
    apply (IH m1 m'); [|exact Hnes|exact H].
    apply (step_signed_out m e m1 Hs); [|exact E].
    cbn [no_login forallb]. rewrite Hne. reflexivity.
Qed.

(** X20.  Logging out ends the session for good: after Log Out, and until
    a login is answered with a token, nobody is signed in, no token is kept
    under authToken, requests carry no Authorization header and the
    dashboard shows the login form, whatever else happens, the late answer
    to the logout request included. *)
Theorem logout_ends_session
    (storage0 : gmap string string) (before after : list Event) (m : Machine) :
  no_login after = true ->
  run (mounted storage0) (before ++ Logout :: after) = Some m ->
  user (ui m) = None /\
  storage m !! "authToken" = None /\
  Auth.request_authorization (storage m) = None /\
  Dashboard (ui m) = LoginForm.
Proof.
  intros Hno H. rewrite run_app in H.
  destruct (run (mounted storage0) before) as [m1|]; [|discriminate].
  cbn [run] in H. destruct (step m1 Logout) as [m2|] eqn:E; [|discriminate].
  destruct (run_signed_out _ _ _ (step_Logout _ _ E) Hno H) as (Hu & Hl & Ht).
  split; [exact Hu|]. split; [exact Ht|]. split.
  - unfold Auth.request_authorization, Auth.getItem. rewrite Ht. reflexivity.
  - unfold Dashboard. rewrite Hl, Hu. reflexivity.
Qed.

Lemma logout_ends_session_witness :
  exists m,
    run (mounted ∅)
      ([InitAuthDone None; Login (Some (LoginResponse.mk "abc" pupil))]
         ++ Logout :: [Login None; LogoutRequestResolved])
    = Some m /\
    Dashboard (ui m) = LoginForm.
Proof.
  destruct (run (mounted ∅)
              ([InitAuthDone None; Login (Some (LoginResponse.mk "abc" pupil))]
                 ++ Logout :: [Login None; LogoutRequestResolved])) as [m|] eqn:E;
    [|vm_compute in E; discriminate].
  exists m. split; [reflexivity|].
  apply (logout_ends_session ∅
           [InitAuthDone None; Login (Some (LoginResponse.mk "abc" pupil))]
           [Login None; LogoutRequestResolved] m eq_refl E).
Defined.

(** when the answer to a logout request comes after the next login, it
    takes the new token away while the user stays signed in *)
Example late_logout_answer_drops_new_token :
  exists m,
    run (mounted ∅)
      [InitAuthDone None; Login (Some (LoginResponse.mk "abc" pupil)); Logout;
       Login (Some (LoginResponse.mk "def" pupil)); LogoutRequestResolved]
    = Some m /\
    Dashboard (ui m) = StudentDashboard /\
    Auth.request_authorization (storage m) = None.
Proof. eexists. split; [vm_compute; reflexivity|]. split; reflexivity. Qed.

Lemma NotRecognized_admin st t : Dashboard st = NotRecognized t -> t = admin.
Proof.
  unfold Dashboard, isStudent, isTeacher. destruct (loading st); [discriminate|].
  destruct (user st) as [u|]; [|discriminate].
  destruct (User.user_type u); cbn; intros H; try discriminate.
  injection H as <-. reflexivity.
Qed.

Lemma step_NotRecognized m e m' t :
  Dashboard (ui m) = NotRecognized t -> step m e = Some m' -> ui m' = ui m.
Proof.
  intros Hd H. destruct e; cbn [step] in H.
  - unfold Dashboard in Hd. destruct (loading (ui m)); discriminate.
  - rewrite Hd in H. discriminate.
  - rewrite Hd in H. discriminate.
  - destruct (logout_requests m); [discriminate|]. injection H as <-. reflexivity.
Qed.

(** X21.  The dashboard has no screen for an administrator: a signed-in
    user who is neither a student nor a teacher, which can only be an
    administrator, gets the notice User type not recognized, and this
    screen offers neither the login form nor Log Out, so the user stays
    signed in and on this screen whatever happens. *)
Theorem unrecognised_user_stays
    (m : Machine) (t : UserType) (es : list Event) (m' : Machine) :
  Dashboard (ui m) = NotRecognized t ->
  run m es = Some m' ->
  t = admin /\ ui m' = ui m /\ isAuthenticated (ui m') = true /\
  Dashboard (ui m') = NotRecognized admin /\
  Forall (fun e => e = LogoutRequestResolved) es.
Proof.
  intros Hd H.
  assert (Ht : t = admin) by apply (NotRecognized_admin _ _ Hd). subst t.
  assert (Hrun : ui m' = ui m /\ Forall (fun e => e = LogoutRequestResolved) es).
  { revert m Hd H. induction es as [|e es IH]; intros m Hd H; cbn [run] in H.
    - injection H as <-. split; [reflexivity | constructor].
    - destruct (step m e) as [m1|] eqn:E; [|discriminate].
      pose proof (step_NotRecognized _ _ _ _ Hd E) as Hui.
      destruct (IH m1) as [H1 H2]; [rewrite Hui; exact Hd | exact H |].
      split; [congruence|]. constructor; [|exact H2].
      destruct e; cbn [step] in E; [| | |reflexivity].
      + unfold Dashboard in Hd. destruct (loading (ui m)); discriminate.
      + rewrite Hd in E. discriminate.
      + rewrite Hd in E. discriminate. }
  destruct Hrun as [Hui Hes]. split; [reflexivity|]. split; [exact Hui|].
  rewrite Hui. split; [|split; [exact Hd | exact Hes]].
  unfold isAuthenticated. unfold Dashboard in Hd.
  destruct (loading (ui m)); [discriminate|]. destruct (user (ui m)); [reflexivity|discriminate].
Qed.

Lemma unrecognised_user_stays_witness :
  exists m,
    run (mounted ∅) [InitAuthDone None; Login (Some (LoginResponse.mk "abc" administrator))]
    = Some m /\
    Dashboard (ui m) = NotRecognized admin /\
    step m Logout = None /\
    Auth.request_authorization (storage m) = Some "Token abc".
Proof.
  eexists. split; [vm_compute; reflexivity|].
  split; [|split; [reflexivity | vm_compute; reflexivity]].
  apply (unrecognised_user_stays
           {| ui := {| user := Some administrator; loading := false |};
              storage := <["authToken" := "abc"]> ∅; logout_requests := 0 |}
           admin [] _ eq_refl eq_refl).
Defined.

End AuthProviderFacts.

(** *** The flags view *)
Section FlagsViewFacts.
Import FlagsView.

Lemma filter_all_length {A} (f : A -> bool) (l : list A) :
  length (List.filter f l) = length l <-> List.Forall (fun x => f x = true) l.
Proof.
  split.
  - intros H. apply List.Forall_forall, forallb_forall, filter_length_forallb, H.
  - intros H. induction H as [|x l Hx Hl IH]; cbn [List.filter]; [reflexivity|].
    rewrite Hx. cbn [length]. rewrite IH. reflexivity.
Qed.

Lemma filter_none {A} (f : A -> bool) (l : list A) :
  List.filter f l = [] <-> List.Forall (fun x => f x = false) l.
Proof.
  induction l as [|x l IH]; cbn [List.filter].
  - split; [constructor | reflexivity].
  - destruct (f x) eqn:E; split; intros H.
    + discriminate.
    + inversion H; congruence.
    + constructor; [exact E | apply IH, H].
    + inversion H; subst. apply IH. assumption.
Qed.

(** X22.  In the flags view the grid shows one card for each unresolved
    flag, as many as the navigation button counts, while the heading counts
    all flags of the list, resolved ones included; the two numbers agree
    exactly when no flag of the list is resolved.  When the list is not
    empty and all its flags are resolved, the view shows neither a card nor
    the notice that there are no active flags. *)
Theorem flags_view_counts (flags : list StudentFlag) :
  length (cards flags) = nav_count flags /\
  (nav_count flags <= heading_count flags)%nat /\
  (nav_count flags = heading_count flags <->
   List.Forall (fun f => is_resolved f = false) flags) /\
  (empty_state flags = false /\ cards flags = [] <->
   flags <> [] /\ List.Forall (fun f => is_resolved f = true) flags).
Proof.
  unfold cards, nav_count, heading_count, empty_state.
  split; [|split; [|split]].
  - destruct flags; reflexivity.
  - apply filter_length_le.
  - rewrite filter_all_length. apply Forall_iff. intros f.
    destruct (is_resolved f); cbn; split; congruence.
  - destruct flags as [|f flags].
    + cbn. split; [intros [H _]; discriminate | intros [H _]; contradiction].
    + cbn [length Nat.eqb]. rewrite filter_none. split.
      * intros [_ H]. split; [discriminate|].
        eapply List.Forall_impl; [|exact H]. intros x. cbn. destruct (is_resolved x); auto.
      * intros [_ H]. split; [reflexivity|].
        eapply List.Forall_impl; [|exact H]. intros x. cbn. intros ->. reflexivity.
Qed.

End FlagsViewFacts.

(** *** The clock of the recorder *)
Section FormatTimeFacts.
Import AudioRecorder.

Lemma toString_inj z1 z2 : JSNumber.toString z1 = JSNumber.toString z2 -> z1 = z2.
Proof.
  unfold JSNumber.toString. intros H.
  assert (Hn : forall z, DecimalString.NilZero.int_of_string
                           (DecimalString.NilZero.string_of_int (Z.to_int z))
                         = Some (Z.to_int z)).
  { intros z. apply DecimalString.NilZero.isi; destruct z; cbn; try discriminate.
    - intros [= E]. apply (DecimalPos.Unsigned.to_uint_nonnil _ E).
    - intros [= E]. apply (DecimalPos.Unsigned.to_uint_nonnil _ E). }
  pose proof (Hn z1) as H1. rewrite H, Hn in H1. injection H1 as H1.
  rewrite <- (DecimalZ.of_to z1), <- (DecimalZ.of_to z2), H1. reflexivity.
Qed.

Lemma string_app_inj_tail (a : string) : forall a' b b',
  String.length b = String.length b' ->
  (a ++ b)%string = (a' ++ b')%string -> a = a' /\ b = b'.
Proof.
  induction a as [|c a IH]; intros a' b b' Hlen H; destruct a' as [|c' a'].
  - auto.
  - exfalso. change (b = String c' (a' ++ b')%string) in H. subst b.
    cbn [String.length] in Hlen. rewrite string_length_app in Hlen. lia.
  - exfalso. change (String c (a ++ b)%string = b') in H. subst b'.
    cbn [String.length] in Hlen. rewrite string_length_app in Hlen. lia.
  - change (String c (a ++ b)%string = String c' (a' ++ b')%string) in H.
    injection H as -> H. destruct (IH _ _ _ Hlen H) as [-> ->]. auto.
Qed.

Lemma seconds_two_digits s :
  (s < 60)%nat ->
  String.length (JSNumber.padStart 2 "0" (JSNumber.toString (Z.of_nat s))) = 2%nat.
Proof.
  intros Hs.
  assert (H : forallb (fun s => Nat.eqb
                (String.length (JSNumber.padStart 2 "0" (JSNumber.toString (Z.of_nat s)))) 2)
                (seq 0 60) = true) by (vm_compute; reflexivity).
  rewrite forallb_forall in H. apply Nat.eqb_eq, H, in_seq. lia.
Qed.

Lemma seconds_inj s t :
  (s < 60)%nat -> (t < 60)%nat ->
  JSNumber.padStart 2 "0" (JSNumber.toString (Z.of_nat s))
  = JSNumber.padStart 2 "0" (JSNumber.toString (Z.of_nat t)) -> s = t.
Proof.
  intros Hs Ht H.
  assert (Hall : forallb (fun s => forallb (fun t =>
                   implb (String.eqb
                            (JSNumber.padStart 2 "0" (JSNumber.toString (Z.of_nat s)))
                            (JSNumber.padStart 2 "0" (JSNumber.toString (Z.of_nat t))))
                         (Nat.eqb s t)) (seq 0 60)) (seq 0 60) = true)
    by (vm_compute; reflexivity).
  rewrite forallb_forall in Hall.
  assert (Hs' : In s (seq 0 60)) by (apply in_seq; lia).
  specialize (Hall s Hs'). rewrite forallb_forall in Hall.
  assert (Ht' : In t (seq 0 60)) by (apply in_seq; lia).
  specialize (Hall t Ht'). rewrite H, String.eqb_refl in Hall. cbn in Hall.
  apply Nat.eqb_eq, Hall.
Qed.

Lemma colon_inj (x y : string) : (":" ++ x)%string = (":" ++ y)%string -> x = y.
Proof. intros H. change (String ":" x = String ":" y) in H. injection H as H. exact H. Qed.

Lemma colon_length (x : string) : String.length (":" ++ x)%string = S (String.length x).
Proof. reflexivity. Qed.

(** X16.  The clock of the recorder writes the minutes, a colon and the
    seconds in two digits; it has no hours, so an hour reads 60:00.  Two
    different durations never read the same. *)
Theorem formatTime_unique (s t : nat) :
  (formatTime s = formatTime t <-> s = t) /\
  String.length (formatTime s)
  = (String.length (JSNumber.toString (Z.of_nat (s / 60))) + 3)%nat /\
  formatTime (60 * 60) = "60:00".
Proof.
  split; [|split; [|vm_compute; reflexivity]].
  - split; [|intros ->; reflexivity].
    unfold formatTime. cbv zeta. intros H.
    apply string_app_inj_tail in H as [Hm Hs].
    + apply toString_inj, Nat2Z.inj in Hm.
      apply colon_inj in Hs. apply seconds_inj in Hs; try (apply Nat.mod_upper_bound; lia).
      rewrite (Nat.div_mod_eq s 60), (Nat.div_mod_eq t 60), Hm, Hs. reflexivity.
    + rewrite !colon_length, !seconds_two_digits; try (apply Nat.mod_upper_bound; lia). reflexivity.
  - unfold formatTime. cbv zeta. rewrite string_length_app.
    rewrite colon_length, seconds_two_digits; [reflexivity | apply Nat.mod_upper_bound; lia].
Qed.

End FormatTimeFacts.


(** *** Sets *)
Section JSSetFacts.
Context {A : Type} `{EqDecision A}.

Lemma has_In (x : A) s : JSSet.has x s = true <-> In x s.
Proof.
  unfold JSSet.has. rewrite existsb_exists. split.
  - intros [y [Hin Hy]]. apply bool_decide_eq_true_1 in Hy. subst y. exact Hin.
  - intros Hin. exists x. split; [exact Hin | apply bool_decide_eq_true_2; reflexivity].
Qed.

Lemma has_not_In (x : A) s : JSSet.has x s = false <-> ~ In x s.
Proof. rewrite <- has_In. destruct (JSSet.has x s); split; congruence. Qed.

Lemma add_In (x y : A) s : In y (JSSet.add x s) <-> y = x \/ In y s.
Proof.
  unfold JSSet.add. destruct (JSSet.has x s) eqn:E.
  - apply has_In in E. split; [auto | intros [->|H]; auto].
  - rewrite in_app_iff. cbn. split; [intros [H|[H|[]]]; auto | intros [->|H]; auto].
Qed.

Lemma add_NoDup (x : A) s : List.NoDup s -> List.NoDup (JSSet.add x s).
Proof.
  intros Hnd. unfold JSSet.add. destruct (JSSet.has x s) eqn:E; [exact Hnd|].
  apply has_not_In in E. apply List.NoDup_app; [exact Hnd | |].
  - constructor; [intros [] | constructor].
  - intros a Ha [<-|[]]. contradiction.
Qed.

Lemma delete_In (x y : A) s : In y (JSSet.delete x s) <-> In y s /\ y <> x.
Proof.
  unfold JSSet.delete. rewrite List.filter_In, negb_true_iff.
  rewrite bool_decide_eq_false. reflexivity.
Qed.

Lemma delete_NoDup (x : A) s : List.NoDup s -> List.NoDup (JSSet.delete x s).
Proof. apply List.NoDup_filter. Qed.

Lemma from_acc (l : list A) : forall acc,
  List.NoDup acc ->
  List.NoDup (fold_left (fun s x => JSSet.add x s) l acc) /\
  (forall y, In y (fold_left (fun s x => JSSet.add x s) l acc) <-> In y acc \/ In y l).
Proof.
  induction l as [|x l IH]; intros acc Hnd; cbn [fold_left].
  - split; [exact Hnd|]. intros y. cbn. tauto.
  - destruct (IH (JSSet.add x acc) (add_NoDup x acc Hnd)) as [H1 H2].
    split; [exact H1|]. intros y. rewrite H2, add_In. cbn. intuition congruence.
Qed.

Lemma from_NoDup (l : list A) : List.NoDup (JSSet.from l).
Proof. apply from_acc. constructor. Qed.

Lemma from_In (l : list A) y : In y (JSSet.from l) <-> In y l.
Proof.
  unfold JSSet.from. destruct (from_acc l [] (List.NoDup_nil A)) as [_ H].
  rewrite H. cbn. tauto.
Qed.

(** adding an element that was just taken out, or the reverse, gives the
    same members back *)
Lemma toggle_twice (x : A) s y :
  let toggle s := if JSSet.has x s then JSSet.delete x s else JSSet.add x s in
  In y (toggle (toggle s)) <-> In y s.
Proof.
  cbv beta zeta. destruct (JSSet.has x s) eqn:E.
  - assert (E' : JSSet.has x (JSSet.delete x s) = false).
    { apply has_not_In. rewrite delete_In. intros [_ H]. apply H. reflexivity. }
    rewrite E', add_In, delete_In. apply has_In in E.
    split; [intros [->|[H _]]; auto|].
    intros H. destruct (decide (y = x)) as [->|Hne]; auto.
  - assert (E' : JSSet.has x (JSSet.add x s) = true).
    { apply has_In, add_In. left; reflexivity. }
    rewrite E', delete_In, add_In. apply has_not_In in E.
    split; [intros [[->|H] Hne]; [contradiction | exact H]|].
    intros H. split; [right; exact H|]. intros ->. contradiction.
Qed.

End JSSetFacts.

(** *** The bulk generation of audio *)
Section BulkAudioFacts.
Import AssignmentCreation BulkAudioGeneration.

Lemma map_filter_id {B C} (g : B -> C) (f : C -> bool) (l : list B) :
  map g (List.filter (fun b => f (g b)) l) = List.filter f (map g l).
Proof.
  induction l as [|b l IH]; cbn [List.filter map]; [reflexivity|].
  destruct (f (g b)); cbn [map]; rewrite IH; reflexivity.
Qed.

Lemma selected_le st :
  List.NoDup (selectedStories st) ->
  (forall i, In i (selectedStories st) -> In i (map StoryListItem.id (stories st))) ->
  (length (selectedStories st) <= length (getSelectedStoriesData st))%nat.
Proof.
  intros Hnd Hsub. unfold getSelectedStoriesData.
  rewrite <- (length_map StoryListItem.id).
  rewrite (map_filter_id StoryListItem.id (fun i => JSSet.has i (selectedStories st))).
  apply List.NoDup_incl_length; [exact Hnd|].
  intros i Hi. apply List.filter_In. split; [apply Hsub, Hi | apply has_In, Hi].
Qed.

Lemma selected_ge st :
  List.NoDup (map StoryListItem.id (stories st)) ->
  (length (getSelectedStoriesData st) <= length (selectedStories st))%nat.
Proof.
  intros Hnd. unfold getSelectedStoriesData.
  rewrite <- (length_map StoryListItem.id).
  rewrite (map_filter_id StoryListItem.id (fun i => JSSet.has i (selectedStories st))).
  apply List.NoDup_incl_length; [apply List.NoDup_filter, Hnd|].
  intros i Hi. apply List.filter_In in Hi as [_ Hi]. apply has_In, Hi.
Qed.

Lemma size_zero {B} (s : list B) : (JSSet.size s =? 0)%nat = false <-> s <> [].
Proof.
  unfold JSSet.size. rewrite Nat.eqb_neq. destruct s; cbn; split; intros H; congruence.
Qed.

Lemma new_job_ok now st :
  Inv st ->
  (JSSet.size (selectedStories st) =? 0)%nat = false ->
  (JSSet.size (selectedVoices st) =? 0)%nat = false ->
  job_ok (stories st)
    {| Job.id := JSNumber.toString now;
       Job.stories := getSelectedStoriesData st;
       Job.voiceTypes := selectedVoices st;
       Job.status := pending; Job.progress := 0;
       Job.totalFiles := calculateTotalFiles st; Job.completedFiles := 0 |}.
Proof.
  intros (HndS & HsubS & HndV & HsubV & _) HS HV. unfold job_ok. cbn.
  apply size_zero in HS. apply size_zero in HV.
  pose proof (selected_le st HndS HsubS) as Hle.
  assert (HlenS : (1 <= length (selectedStories st))%nat)
    by (destruct (selectedStories st); [contradiction | cbn; lia]).
  assert (HlenV : (1 <= length (selectedVoices st))%nat)
    by (destruct (selectedVoices st); [contradiction | cbn; lia]).
  unfold calculateTotalFiles, JSSet.size.
  split; [exact HV|]. split; [exact HndV|]. split; [exact HsubV|].
  split; [destruct (getSelectedStoriesData st); [cbn in Hle; lia | discriminate]|].
  split; [intros s Hs; unfold getSelectedStoriesData in Hs;
          apply List.filter_In in Hs as [Hs _]; exact Hs|].
  split; [nia|]. split; [nia|].
  intros Hnd. pose proof (selected_ge st Hnd). nia.
Qed.

Lemma step_Inv_audio st e st' : Inv st -> step st e = Some st' -> Inv st'.
Proof.
  intros HI H. pose proof HI as (HndS & HsubS & HndV & HsubV & Hjobs & Hload & Hgen).
  unfold Inv.
  destruct e; cbn [step] in H.
  - destruct (loading st) eqn:El; [|discriminate]. injection H as <-.
    destruct (Hload eq_refl) as (Hst & Hsel & Hj). cbn.
    rewrite Hsel, Hj. split; [constructor|]. split; [intros i []|].
    split; [exact HndV|]. split; [exact HsubV|]. split; [constructor|].
    split; [discriminate | exact Hgen].
  - destruct (loading st) eqn:El; [discriminate|].
    destruct (stories st !! i) as [story|] eqn:Es; [|discriminate].
    injection H as <-. cbn.
    split; [|split; [|split; [exact HndV|split; [exact HsubV|split; [exact Hjobs|]]]]].
    + destruct (JSSet.has _ _); [apply delete_NoDup | apply add_NoDup]; exact HndS.
    + intros j Hj. destruct (JSSet.has _ _).
      * apply delete_In in Hj as [Hj _]. apply HsubS, Hj.
      * apply add_In in Hj as [->|Hj]; [|apply HsubS, Hj].
        apply in_map, (lookup_In _ _ _ Es).
    + split; [intros E; rewrite El in E; discriminate | exact Hgen].
  - destruct (loading st) eqn:El; [discriminate|].
    destruct (availableVoices !! j) as [voice|] eqn:Ev; [|discriminate].
    injection H as <-. cbn.
    split; [exact HndS|]. split; [exact HsubS|].
    split; [|split; [|split; [exact Hjobs|]]].
    + destruct (JSSet.has _ _); [apply delete_NoDup | apply add_NoDup]; exact HndV.
    + intros v Hv. destruct (JSSet.has _ _).
      * apply delete_In in Hv as [Hv _]. apply HsubV, Hv.
      * apply add_In in Hv as [->|Hv]; [|apply HsubV, Hv].
        change (In (Voice.id voice) (map Voice.id availableVoices)).
        apply in_map, (lookup_In _ _ _ Ev).
    + split; [intros E; rewrite El in E; discriminate | exact Hgen].
  - destruct (loading st) eqn:El; [discriminate|]. injection H as <-. cbn.
    split; [|split; [|split; [exact HndV|split; [exact HsubV|split; [exact Hjobs|]]]]].
    + destruct (_ =? _)%nat; [constructor | apply from_NoDup].
    + intros i Hi. destruct (_ =? _)%nat; [destruct Hi | apply from_In, Hi].
    + split; [intros E; rewrite El in E; discriminate | exact Hgen].
  - destruct (loading st) eqn:El; [discriminate|]. injection H as <-.
    unfold handleSelectAllVoices, setSelectedVoices.
    cbn [stories selectedStories selectedVoices loading generationJobs isGenerating].
    split; [exact HndS|]. split; [exact HsubS|].
    split; [|split; [|split; [exact Hjobs|]]].
    + destruct (_ =? _)%nat; [constructor | apply from_NoDup].
    + intros v Hv. destruct (_ =? _)%nat; [destruct Hv | apply from_In, Hv].
    + split; [intros E; rewrite El in E; discriminate | exact Hgen].
  - destruct (loading st) eqn:El; [discriminate|].
    destruct (summary_shown st && negb (start_disabled st)) eqn:Eb; [|discriminate].
    injection H as <-.
    apply andb_true_iff in Eb as [_ Eb]. apply negb_true_iff in Eb.
    unfold start_disabled in Eb. apply orb_false_iff in Eb as [Eb EV].
    apply orb_false_iff in Eb as [_ ES].
    unfold handleStartGeneration. rewrite ES, EV. cbn [orb].
    cbn [stories selectedStories selectedVoices loading generationJobs isGenerating].
    split; [constructor|]. split; [intros i []|].
    split; [apply from_NoDup|].
    split; [intros v Hv; apply from_In in Hv; destruct Hv as [<-|[]]; cbn; auto|].
    split; [constructor; [apply (new_job_ok now st HI ES EV) | exact Hjobs]|].
    split; [intros E; rewrite El in E; discriminate | reflexivity].
Qed.

Lemma step_stories st e st' :
  loading st = false -> step st e = Some st' ->
  loading st' = false /\ stories st' = stories st.
Proof.
  intros El H. destruct e; cbn [step] in H; rewrite El in H; try discriminate.
  - destruct (stories st !! i); [|discriminate]. injection H as <-. cbn. auto.
  - destruct (availableVoices !! j); [|discriminate]. injection H as <-. cbn. auto.
  - injection H as <-. cbn. auto.
  - injection H as <-. cbn. auto.
  - destruct (summary_shown st && negb (start_disabled st)); [|discriminate].
    injection H as <-. unfold handleStartGeneration.
    destruct (_ || _); cbn; auto.
Qed.

Lemma run_Inv_audio es : forall st st', Inv st -> run st es = Some st' -> Inv st'.
Proof.
  induction es as [|e es IH]; intros st st' HI H; cbn [run] in H.
  - injection H as <-. exact HI.
  - destruct (step st e) as [st1|] eqn:E; [|discriminate].
    apply (IH _ _ (step_Inv_audio _ _ _ HI E) H).
Qed.

Lemma initial_Inv_audio : Inv initialState.
Proof.
  unfold Inv. cbn.
  split; [constructor|]. split; [intros i []|].
  split; [apply (from_NoDup ["female_1"])|].
  split; [intros v Hv; apply (from_In ["female_1"]) in Hv; destruct Hv as [<-|[]]; auto|].
  split; [constructor|]. auto.
Qed.

(** X23.  In the bulk generation of audio, the selected stories are always
    stories of the loaded list and the selected voices are among the four
    voices, neither with repetitions.  Every job that is started has at
    least one story and one voice, stories of the loaded list, and a number
    of files that is at least one and at most stories times voices; the
    number is exactly stories times voices when the stories of the list
    have different ids.  Starting a job clears the selection of stories. *)
Theorem bulk_audio_jobs (es : list Event) (st : State) :
  run initialState es = Some st ->
  (JSSet.size (selectedStories st) <= length (stories st))%nat /\
  (JSSet.size (selectedVoices st) <= 4)%nat /\
  (forall i, In i (selectedStories st) ->
     exists story, In story (stories st) /\ StoryListItem.id story = i) /\
  List.Forall (fun job =>
     Job.stories job <> [] /\ Job.voiceTypes job <> [] /\
     (forall s, In s (Job.stories job) -> In s (stories st)) /\
     (forall v, In v (Job.voiceTypes job) ->
        In v ["female_1"; "female_2"; "male_1"; "male_2"]) /\
     (1 <= Job.totalFiles job
      <= length (Job.stories job) * length (Job.voiceTypes job))%nat /\
     (List.NoDup (map StoryListItem.id (stories st)) ->
      Job.totalFiles job = (length (Job.stories job) * length (Job.voiceTypes job))%nat))
    (generationJobs st) /\
  isGenerating st = false.
Proof.
  intros H.
  destruct (run_Inv_audio _ _ _ initial_Inv_audio H)
    as (HndS & HsubS & HndV & HsubV & Hjobs & _ & Hgen).
  split; [|split; [|split; [|split; [|exact Hgen]]]].
  - unfold JSSet.size. rewrite <- (length_map StoryListItem.id (stories st)).
    apply List.NoDup_incl_length; [exact HndS | exact HsubS].
  - unfold JSSet.size. change 4%nat with (length (map Voice.id availableVoices)).
    apply List.NoDup_incl_length; [exact HndV | exact HsubV].
  - intros i Hi. apply HsubS, in_map_iff in Hi as [s [Hs Hin]]. eauto.
  - eapply List.Forall_impl; [|exact Hjobs].
    intros job (H1 & H2 & H3 & H4 & H5 & H6 & H7 & H8). auto 10.
Qed.

Lemma bulk_audio_jobs_witness :
  exists st,
    run initialState
      [StoriesLoaded (Some two_stories); ClickSelectAllStories; ClickVoice 2;
       ClickStory 0; ClickStory 0; ClickStart 1700000000000]
    = Some st /\
    map Job.totalFiles (generationJobs st) = [4%nat] /\
    map Job.voiceTypes (generationJobs st) = [["female_1"; "male_1"]] /\
    selectedStories st = [] /\ isGenerating st = false.
Proof.
  eexists. split; [vm_compute; reflexivity|]. split; [reflexivity|].
  split; [reflexivity|]. split; [reflexivity|].
  destruct (bulk_audio_jobs
              [StoriesLoaded (Some two_stories); ClickSelectAllStories; ClickVoice 2;
               ClickStory 0; ClickStory 0; ClickStart 1700000000000] _ eq_refl)
    as (_ & _ & _ & _ & Hgen).
  exact Hgen.
Defined.

(** one file is estimated at no time at all *)
Example estimate_of_one_file :
  exists st,
    run initialState [StoriesLoaded (Some two_stories); ClickStory 1] = Some st /\
    calculateTotalFiles st = 1%nat /\ estimateGenerationTime st = "0m".
Proof. eexists. split; [vm_compute; reflexivity|]. split; reflexivity. Qed.

End BulkAudioFacts.

(** *** The counts of the teacher analytics *)
Section TeacherAnalyticsFacts.
Import Types RecordingReviewComponent TeacherAnalytics.

Lemma pending_reviewed_le (recordings : list Recording.t) :
  (length (List.filter (has_status pending) recordings)
   + length (List.filter (has_status reviewed) recordings)
   + length (List.filter (has_status flagged) recordings)
   = length recordings)%nat.
Proof.
  induction recordings as [|r l IH]; cbn [List.filter length]; [reflexivity|].
  assert (E : forall s, has_status s r = bool_decide (Recording.status r = s))
    by reflexivity.
  rewrite !E. destruct (Recording.status r);
    repeat case_bool_decide; try congruence; cbn [length]; lia.
Qed.

Lemma count_grade_le d r : (graded_total (count_grade d r) <= S (graded_total d))%nat.
Proof.
  unfold count_grade, graded_total. destruct (Recording.grade r) as [g|]; [|lia].
  destruct (String.eqb g "excellent"); [cbn; lia|].
  destruct (String.eqb g "good"); [cbn; lia|].
  destruct (String.eqb g "needs_practice"); cbn; lia.
Qed.

Lemma fold_count_grade_le l : forall d,
  (graded_total (fold_left count_grade l d) <= graded_total d + length l)%nat.
Proof.
  induction l as [|r l IH]; intros d; cbn [fold_left length]; [lia|].
  specialize (IH (count_grade d r)). pose proof (count_grade_le d r). lia.
Qed.

Lemma filter_take_le {B} (f : B -> bool) n (l : list B) :
  (length (List.filter f (take n l)) <= length (List.filter f l))%nat.
Proof.
  rewrite <- (take_drop n l) at 2. rewrite List.filter_app, length_app. lia.
Qed.

(** X24.  In the teacher analytics the pending and the completed reviews
    together with the flagged recordings make up all recordings, so pending
    plus completed never exceeds the total.  The grade distribution is
    taken from the recent activity, the first five recordings: it never
    counts more than five recordings, nor more than the completed reviews,
    however many recordings have been graded. *)
Theorem analytics_counts (recordings : list Recording.t) :
  (pendingReviews recordings + completedReviews recordings
   + length (List.filter (has_status flagged) recordings)
   = totalRecordings recordings)%nat /\
  (pendingReviews recordings + completedReviews recordings
   <= totalRecordings recordings)%nat /\
  (length (recentActivity recordings) <= 5)%nat /\
  (graded_total (getGradeDistribution recordings) <= 5)%nat /\
  (graded_total (getGradeDistribution recordings) <= completedReviews recordings)%nat.
Proof.
  unfold pendingReviews, completedReviews, totalRecordings.
  pose proof (pending_reviewed_le recordings) as Hsum.
  split; [exact Hsum|]. split; [lia|].
  assert (Hrecent : (length (recentActivity recordings) <= 5)%nat).
  { unfold recentActivity. rewrite length_take. lia. }
  split; [exact Hrecent|].
  unfold getGradeDistribution.
  pose proof (fold_count_grade_le
                (List.filter (has_status reviewed) (recentActivity recordings))
                {| excellent_count := 0; good_count := 0; needs_practice_count := 0 |}) as Hf.
  change (graded_total {| excellent_count := 0; good_count := 0;
                          needs_practice_count := 0 |}) with O in Hf.
  split.
  - pose proof (List.filter_length_le (has_status reviewed) (recentActivity recordings)).
    lia.
  - pose proof (filter_take_le (has_status reviewed) 5 recordings) as Ht.
    unfold recentActivity in *. lia.
Qed.

End TeacherAnalyticsFacts.
